(** * pyquantregForest: quantile regression forest

    A shallow embedding of [pyquantregForest.py] (class [QuantileForest] and
    the free function [check_function]) and the properties of its weighting
    scheme, of its two quantile strategies and of its attribute handling.

    Conventions of the embedding.
    - A Python float is an exact rational ([Q]); the one non-finite value the
      program can produce, numpy's [nan] of a division [0/0], is the extra
      constructor [NaN] of [fnum].  Rounding is not modelled.
    - An instance of [QuantileForest] is the record [obj]: the state inherited
      from scikit-learn's [RandomForestRegressor] ([estimators_], [bootstrap])
      in typed fields, and the attributes that the methods of this file assign
      ([self._xxx]) in a dictionary from attribute name to value.  Reading a
      name that is not bound raises [AttributeError].
    - A method is a computation in the state-and-exception monad [M]; the
      object keeps the attributes assigned before an exception is raised.
    - scikit-learn's tree growing, numpy's [percentile], scipy's optimizers
      and numpy's random shuffle are collaborators: variables of the section
      [Methods]. *)

From Stdlib Require Import QArith Qabs Qminmax Qround Lqa ZArith List Lia Sorting.Sorted Permutation.
From stdpp Require Import gmap strings.

Local Open Scope Q_scope.

(** ** Floats *)

Inductive fnum : Type :=
| Fin (q : Q)
| NaN.

(** [a + b], [a - b], [a * b] on floats: [nan] is absorbing. *)
Definition fadd (a b : fnum) : fnum :=
  match a, b with Fin x, Fin y => Fin (x + y) | _, _ => NaN end.

Definition fsub (a b : fnum) : fnum :=
  match a, b with Fin x, Fin y => Fin (x - y) | _, _ => NaN end.

Definition fmul (a b : fnum) : fnum :=
  match a, b with Fin x, Fin y => Fin (x * y) | _, _ => NaN end.

(** numpy's true division.  Every division of the program has a numerator
    that is [0] when the denominator is [0] (an indicator column divided by
    its own sum, a sum divided by the number of its terms), so the quotient by
    zero is always numpy's [0/0 = nan]. *)
Definition fdiv (a b : fnum) : fnum :=
  match a, b with
  | Fin x, Fin y => if Qeq_bool y 0 then NaN else Fin (x / y)
  | _, _ => NaN
  end.

(** Comparisons with [nan]: [<=] and [>=] are [False], [!=] is [True]. *)
Definition Qleb (x y : Q) : bool := if Qlt_le_dec y x then false else true.
Definition Qltb (x y : Q) : bool := if Qlt_le_dec x y then true else false.

Definition fle (a b : fnum) : bool :=
  match a, b with Fin x, Fin y => Qleb x y | _, _ => false end.

Definition fge (a b : fnum) : bool := fle b a.

Definition fne0 (a : fnum) : bool :=
  match a with Fin x => negb (Qeq_bool x 0) | NaN => true end.

Definition b2q (b : bool) : Q := if b then 1 else 0.

Definition Qsum (l : list Q) : Q := fold_right Qplus 0 l.
Definition fsum (l : list fnum) : fnum := fold_right fadd (Fin 0) l.

(** [v[mask]]: boolean-mask indexing of a one-dimensional array.  The mask
    and the array have the same length wherever the program indexes: both
    have one entry per training sample (numpy raises [IndexError]
    otherwise). *)
Fixpoint mask_select {A : Type} (mask : list bool) (v : list A) : list A :=
  match mask, v with
  | b :: mask', x :: v' =>
      if b then x :: mask_select mask' v' else mask_select mask' v'
  | _, _ => []
  end.

(** ** [check_function] (pinball loss of one residual)

    [u = y - yi; return u * (alpha - (u < 0.) * 1.)].  On arrays numpy applies
    it elementwise. *)
Definition check_function (y yi alpha : Q) : Q :=
  let u := y - yi in
  u * (alpha - b2q (Qltb u 0) * 1).

(** [_optFunc], after [self._output_sample.values] has been read:
    [check_function(ys[w != 0], yi, alpha).sum()]. *)
Definition optFunc_value (ys : list Q) (yi : Q) (w : list fnum) (alpha : Q) : Q :=
  Qsum (map (fun y => check_function y yi alpha) (mask_select (map fne0 w) ys)).

(** [_ieqFunc], after the attribute has been read:
    [w[ys <= yi].sum() - alpha]. *)
Definition ieqFunc_value (ys : list Q) (yi : Q) (w : list fnum) (alpha : Q) : fnum :=
  fsub (fsum (mask_select (map (fun y => Qleb y yi) ys) w)) (Fin alpha).

(** ** Exceptions and results *)

Record exn : Type := Exn { exn_class : string; exn_arg : string }.

Definition AttributeError (name : string) : exn := Exn "AttributeError" name.
Definition ValueError (msg : string) : exn := Exn "ValueError" msg.
Definition IndexError (msg : string) : exn := Exn "IndexError" msg.
Definition TypeError (msg : string) : exn := Exn "TypeError" msg.

Inductive result (A : Type) : Type :=
| Ok (a : A)
| Raise (e : exn).
Arguments Ok {A} a.
Arguments Raise {A} e.

Definition is_Ok {A : Type} (r : result A) : Prop :=
  match r with Ok _ => True | Raise _ => False end.

Definition raises_class {A : Type} (r : result A) (cls : string) : Prop :=
  match r with Ok _ => False | Raise e => exn_class e = cls end.

(** ** Arrays *)

(** numpy arrays of floats of dimension 0, 1 and 2.  A two-dimensional array
    is the list of its rows together with its number of columns, which an
    array without rows still has. *)
Inductive ndarray : Type :=
| Arr0 (x : Q)
| Arr1 (v : list Q)
| Arr2 (c : nat) (rows : list (list Q)).

(** [X.shape[0]] and [X.shape[1]]; a missing axis is an [IndexError]. *)
Definition shape0 (X : ndarray) : result nat :=
  match X with
  | Arr0 _ => Raise (IndexError "tuple index out of range")
  | Arr1 v => Ok (length v)
  | Arr2 _ rows => Ok (length rows)
  end.

Definition shape1 (X : ndarray) : result nat :=
  match X with
  | Arr2 c _ => Ok c
  | _ => Raise (IndexError "tuple index out of range")
  end.

Definition size (X : ndarray) : nat :=
  match X with
  | Arr0 _ => 1%nat
  | Arr1 v => length v
  | Arr2 c rows => (length rows * c)%nat
  end.

(** [X[0]]. *)
Definition item0 (X : ndarray) : result ndarray :=
  match X with
  | Arr1 (x :: _) => Ok (Arr0 x)
  | Arr2 _ (r :: _) => Ok (Arr1 r)
  | Arr0 _ => Raise (IndexError "invalid index to scalar variable")
  | _ => Raise (IndexError "index 0 is out of bounds")
  end.

(** [X.resize(n, 1)] of an array with [n] entries: the data in storage
    order as one column.  numpy resizes in place only when the number of
    entries stays the same or nothing else refers to the array;
    [_check_input] checks the first before it calls this. *)
Definition flat (X : ndarray) : list Q :=
  match X with
  | Arr0 x => [x]
  | Arr1 v => v
  | Arr2 _ rows => concat rows
  end.

Definition resize_column (X : ndarray) (n : nat) : ndarray :=
  Arr2 1 (map (fun x => [x]) (firstn n (flat X ++ repeat 0 n))).

(** ** The forest collaborator *)

(** One fitted regression tree, seen through [apply]: the identifier of the
    leaf an input row falls into. *)
Definition tree : Type := list Q -> Z.

(** scikit-learn's input validation: a scalar or a one-dimensional array is
    taken as a single sample. *)
Definition atleast_2d (X : ndarray) : nat * list (list Q) :=
  match X with
  | Arr0 x => (1%nat, [[x]])
  | Arr1 v => (length v, [v])
  | Arr2 c rows => (c, rows)
  end.

(** ** Objects *)

(** Values of the attributes assigned by this file. *)
Inductive pyval : Type :=
| VInt (n : nat)
| VSeries (v : list Q)               (* pandas Series of floats *)
| VGrid (v : list fnum)              (* Series that may hold nan: _yCDF *)
| VFrame (c : nat) (rows : list (list Q)) (* DataFrame of floats, c columns *)
| VLeaves (rows : list (list Z))     (* DataFrame of leaf identifiers *)
| VMask (rows : list (list bool))    (* boolean DataFrame: _infYY *)
| VArray (rows : list (list fnum))   (* two-dimensional float array: _CDF *)
| VIndex (ids : list (list nat)).    (* per tree, a list of sample indices *)

Record obj : Type := Obj {
  estimators_ : option (list tree);  (* set by RandomForestRegressor.fit *)
  n_features_ : nat;
  bootstrap : bool;
  attrs : gmap string pyval          (* the attributes self._xxx *)
}.

Definition set_attrs (f : gmap string pyval -> gmap string pyval) (self : obj) : obj :=
  Obj (estimators_ self) (n_features_ self) (bootstrap self) (f (attrs self)).

(** [QuantileForest()]: the class defines no [__init__]; the constructor of
    [RandomForestRegressor] assigns none of the attributes of this file. *)
Definition QuantileForest_new : obj := Obj None O true ∅.

(** ** The state-and-exception monad of methods *)

Definition M (A : Type) : Type := obj -> result A * obj.

Definition ret {A : Type} (a : A) : M A := fun self => (Ok a, self).
Definition raise {A : Type} (e : exn) : M A := fun self => (Raise e, self).
Definition bind {A B : Type} (c : M A) (k : A -> M B) : M B :=
  fun self =>
    match c self with
    | (Ok a, self') => k a self'
    | (Raise e, self') => (Raise e, self')
    end.
Definition lift {A : Type} (r : result A) : M A := fun self => (r, self).

Notation "'do' x <- c ; k" := (bind c (fun x => k))
  (at level 10, x pattern, c at level 100, k at level 200).
Notation "c ;; k" := (bind c (fun _ => k))
  (at level 100, k at level 200, right associativity).

Definition getattr (name : string) : M pyval :=
  fun self =>
    match attrs self !! name with
    | Some v => (Ok v, self)
    | None => (Raise (AttributeError name), self)
    end.

Definition setattr (name : string) (v : pyval) : M unit :=
  fun self => (Ok tt, set_attrs (insert name v) self).

(** Reading an attribute at the type its uses expect. *)
Definition get_int (name : string) : M nat :=
  do v <- getattr name;
  match v with VInt n => ret n | _ => raise (TypeError name) end.

Definition get_series (name : string) : M (list Q) :=
  do v <- getattr name;
  match v with VSeries l => ret l | _ => raise (TypeError name) end.

Definition get_grid (name : string) : M (list fnum) :=
  do v <- getattr name;
  match v with VGrid l => ret l | _ => raise (TypeError name) end.

Definition get_frame (name : string) : M (nat * list (list Q)) :=
  do v <- getattr name;
  match v with VFrame c l => ret (c, l) | _ => raise (TypeError name) end.

Definition get_leaves (name : string) : M (list (list Z)) :=
  do v <- getattr name;
  match v with VLeaves l => ret l | _ => raise (TypeError name) end.

Definition get_mask (name : string) : M (list (list bool)) :=
  do v <- getattr name;
  match v with VMask l => ret l | _ => raise (TypeError name) end.

Definition get_array (name : string) : M (list (list fnum)) :=
  do v <- getattr name;
  match v with VArray l => ret l | _ => raise (TypeError name) end.

Definition get_index (name : string) : M (list (list nat)) :=
  do v <- getattr name;
  match v with VIndex l => ret l | _ => raise (TypeError name) end.

(** A comprehension [[f(x) for x in xs]]. *)
Fixpoint map_M {A B : Type} (f : A -> M B) (xs : list A) : M (list B) :=
  match xs with
  | [] => ret []
  | x :: xs' => do y <- f x; do ys <- map_M f xs'; ret (y :: ys)
  end.

Fixpoint map_result {A B : Type} (f : A -> result B) (xs : list A) : result (list B) :=
  match xs with
  | [] => Ok []
  | x :: xs' =>
      match f x with
      | Raise e => Raise e
      | Ok y => match map_result f xs' with
                | Raise e => Raise e
                | Ok ys => Ok (y :: ys)
                end
      end
  end.

(** ** The weight of the training samples for one query point
    (body of the loop of [computeQuantile], up to [weight]) *)

(** [tmp = (sample_node == X_nodes[:, k])], full forest: every row of the
    [n x T] matrix of the samples' leaves against the [T] leaves of the
    query. *)
Definition same_leaf (sample_node : list (list Z)) (xk : list Z) : list (list bool) :=
  map (fun row => zip_with Z.eqb row xk) sample_node.

(** [tmp.sum(axis=0)] of a matrix with [T] columns. *)
Definition sum_axis0 (T : nat) (tmp : list (list bool)) : list nat :=
  fold_right (fun row acc => zip_with Nat.add (map Nat.b2n row) acc) (repeat O T) tmp.

Definition of_nat (n : nat) : fnum := Fin (inject_Z (Z.of_nat n)).

(** [tmp.astype(float) / n_samples_nodes], the counts broadcast over rows. *)
Definition divide_rows (tmp : list (list bool)) (counts : list nat) : list (list fnum) :=
  map (fun row => zip_with (fun b c => fdiv (Fin (b2q b)) (of_nat c)) row counts) tmp.

(** [weight.mean(axis=1)]. *)
Definition mean (row : list fnum) : fnum := fdiv (fsum row) (of_nat (length row)).

Definition mean_axis1 (m : list (list fnum)) : list fnum := map mean m.

(** Lines 158-170 with [iTree < 0]. *)
Definition forest_weight (sample_node : list (list Z)) (xk : list Z) : list fnum :=
  let tmp := same_leaf sample_node xk in
  let n_samples_nodes := sum_axis0 (length xk) tmp in
  let weight := divide_rows tmp n_samples_nodes in
  mean_axis1 weight.

(** Lines 158-172 with [iTree >= 0]: [sample_node] is one column of leaf
    identifiers and [X_nodes[:, k]] holds the single leaf [x]. *)
Definition count_true (tmp : list bool) : nat :=
  fold_right (fun b acc => (Nat.b2n b + acc)%nat) O tmp.

Definition tree_weight (sample_node : list Z) (x : Z) : list fnum :=
  let tmp := map (fun s => Z.eqb s x) sample_node in
  let n_samples_nodes := count_true tmp in
  map (fun b => fdiv (Fin (b2q b)) (of_nat n_samples_nodes)) tmp.

(** ** The grid of the distribution function ([setPrecisionOfCDF]) *)

(** [Series.sort(inplace=False)]: the values in ascending order. *)
Fixpoint insert_sorted (x : Q) (l : list Q) : list Q :=
  match l with
  | [] => [x]
  | y :: l' => if Qleb x y then x :: l else y :: insert_sorted x l'
  end.

Definition sort_values (l : list Q) : list Q := fold_right insert_sorted [] l.

(** [Series.min()] and [Series.max()]; [nan] on an empty series. *)
Definition series_min (l : list Q) : fnum :=
  match l with
  | [] => NaN
  | x :: l' => Fin (fold_right Qmin x l')
  end.

Definition series_max (l : list Q) : fnum :=
  match l with
  | [] => NaN
  | x :: l' => Fin (fold_right Qmax x l')
  end.

(** [np.linspace(start, stop, num)]: [start + i * step] with
    [step = (stop - start) / (num - 1)], and the last point set to [stop]
    when [num > 1]. *)
Definition linspace (start stop : fnum) (num : nat) : list fnum :=
  match num with
  | O => []
  | S O => [fadd (fmul (of_nat 0) (fsub stop start)) start]
  | S div =>
      let step := fdiv (fsub stop start) (of_nat div) in
      map (fun i => fadd (fmul (of_nat i) step) start) (seq 0 div) ++ [stop]
  end.

Definition build_grid (ys : list Q) (n_points : nat) : list fnum :=
  if Nat.eqb n_points 0 then map Fin (sort_values ys)
  else linspace (series_min ys) (series_max ys) n_points.

(** The transpose of a matrix with [c] columns. *)
Fixpoint transpose {A : Type} (c : nat) (rows : list (list A)) : list (list A) :=
  match rows with
  | [] => repeat [] c
  | r :: rows' => zip_with cons r (transpose c rows')
  end.

(** [outMatrix <= cdfMatrix]: a column of outputs against a row of grid
    values. *)
Definition outer_le (ys : list Q) (grid : list fnum) : list (list bool) :=
  map (fun y => map (fun g => fle (Fin y) g) grid) ys.

(** [DataFrame(outMatrix <= cdfMatrix).T]. *)
Definition build_infYY (ys : list Q) (grid : list fnum) : list (list bool) :=
  transpose (length grid) (outer_le ys grid).

(** ** Quantile by inversion (lines 202-204) *)

(** [self._infYY.dot(weight).ravel()]. *)
Definition dot_row (row : list bool) (weight : list fnum) : fnum :=
  fsum (zip_with (fun b w => fmul (Fin (b2q b)) w) row weight).

Definition cdf_of (infYY : list (list bool)) (weight : list fnum) : list fnum :=
  map (fun row => dot_row row weight) infYY.

(** [self._yCDF.values[CDF >= alphai][0]]. *)
Definition first_reaching (yCDF CDF : list fnum) (alphai : Q) : result fnum :=
  match mask_select (map (fun c => fge c (Fin alphai)) CDF) yCDF with
  | y :: _ => Ok y
  | [] => Raise (IndexError "index 0 is out of bounds for axis 0 with size 0")
  end.

(** ** The shape of the result (lines 208-213) *)

(** What a call returns: a float, a one-dimensional array or a
    two-dimensional array with its shape. *)
Inductive pyfloats : Type :=
| RScalar (q : fnum)
| RVector (v : list fnum)
| RMatrix (r c : nat) (rows : list (list fnum)).

Definition pack_result (n_quantiles n_alphas : nat) (quantiles : list (list fnum))
    : result pyfloats :=
  if Nat.eqb n_quantiles 1 && Nat.eqb n_alphas 1 then
    match quantiles with
    | (q :: _) :: _ => Ok (RScalar q)
    | _ => Raise (IndexError "index 0 is out of bounds")
    end
  else if Nat.eqb n_quantiles 1 || Nat.eqb n_alphas 1 then
    Ok (RVector (concat quantiles))
  else Ok (RMatrix n_quantiles n_alphas quantiles).

(** ** Elementwise operations with broadcasting

    Used by [_computeImportanceOfTree], where [check_function] receives
    arrays.  Operands are aligned on their last axis; an axis of length one
    is repeated. *)

Record matrix : Type := Mat { m_rows : nat; m_cols : nat; m_data : list (list fnum) }.

Definition as_matrix (a : pyfloats) : matrix :=
  match a with
  | RScalar q => Mat 1 1 [[q]]
  | RVector v => Mat 1 (length v) [v]
  | RMatrix r c rows => Mat r c rows
  end.

Definition bdim (a b : nat) : result nat :=
  if Nat.eqb a b then Ok a
  else if Nat.eqb a 1 then Ok b
  else if Nat.eqb b 1 then Ok a
  else Raise (ValueError "operands could not be broadcast together").

Definition bget (A : matrix) (i j : nat) : fnum :=
  nth (if Nat.eqb (m_cols A) 1 then O else j)
      (nth (if Nat.eqb (m_rows A) 1 then O else i) (m_data A) []) NaN.

Definition broadcast (f : fnum -> fnum -> fnum) (A B : matrix) : result matrix :=
  match bdim (m_rows A) (m_rows B), bdim (m_cols A) (m_cols B) with
  | Ok r, Ok c =>
      Ok (Mat r c (map (fun i => map (fun j => f (bget A i j) (bget B i j)) (seq 0 c))
                       (seq 0 r)))
  | Raise e, _ => Raise e
  | _, Raise e => Raise e
  end.

(** [(u < 0.) * 1.] on one float. *)
Definition negative_indicator (u : fnum) : fnum :=
  match u with
  | Fin x => Fin (b2q (Qltb x 0) * 1)
  | NaN => Fin (b2q false * 1)
  end.

(** [check_function] on arrays. *)
Definition check_function_arrays (y yi alpha : matrix) : result matrix :=
  match broadcast fsub y yi with
  | Raise e => Raise e
  | Ok u =>
      let neg := Mat (m_rows u) (m_cols u) (map (map negative_indicator) (m_data u)) in
      match broadcast fsub alpha neg with
      | Raise e => Raise e
      | Ok t => broadcast fmul u t
      end
  end.

(** [a.mean()] over all the entries. *)
Definition mean_all (A : matrix) : fnum :=
  fdiv (fsum (concat (m_data A))) (of_nat (m_rows A * m_cols A)).

(** [np.array(errors).mean(axis=0)] for a list of equally long vectors. *)
Definition mean_axis0 (errors : list (list fnum)) : pyfloats :=
  match errors with
  | [] => RScalar NaN
  | e :: _ =>
      RVector (map (fun j => mean (map (fun row => nth j row NaN) errors))
                   (seq 0 (length e)))
  end.

(** ** Arguments of [computeQuantile] *)

(** [alpha]: a float or a sequence of floats.  After [np.asarray] the first
    is a zero-dimensional array, which has size one and cannot be iterated. *)
Inductive alphas : Type :=
| AFloat (a : Q)
| AList (v : list Q).

Definition alpha_size (alpha : alphas) : nat :=
  match alpha with AFloat _ => 1%nat | AList v => length v end.

Definition alpha_iter (alpha : alphas) : result (list Q) :=
  match alpha with
  | AFloat _ => Raise (TypeError "iteration over a 0-d array")
  | AList v => Ok v
  end.

Definition alpha_values (alpha : alphas) : list Q :=
  match alpha with AFloat a => [a] | AList v => v end.

Definition alpha_matrix (alpha : alphas) : matrix :=
  match alpha with
  | AFloat a => Mat 1 1 [[Fin a]]
  | AList v => Mat 1 (length v) [map Fin v]
  end.

(** [X] is an [int] or a [float], and then so is [alpha] (the call of the
    example script), or [X] is array-like. *)
Inductive query : Type :=
| QScalar (x : Q) (alpha : Q)
| QArray (X : ndarray) (alpha : alphas).

(** Lines 119-126. *)
Definition as_arrays (q : query) : ndarray * alphas :=
  match q with
  | QScalar x a => (Arr1 [x], AList [a])
  | QArray X alpha => (X, alpha)
  end.

(** The keyword arguments; [verbose] only controls printing. *)
Record options : Type := Options {
  do_optim : bool;
  doSaveCDF : bool;
  iTree : Z;
  opt_method : string
}.

Definition default_options : options := Options true false (-1) "Cobyla".

(** ** The methods of [QuantileForest] *)

Section Methods.

(** [RandomForestRegressor.fit]: the trees grown on the validated rows. *)
Variable grow : list (list Q) -> list Q -> result (list tree).
(** [np.percentile(a, q)] for a list of percentages [q]. *)
Variable np_percentile : list Q -> list Q -> result (list Q).
(** [fmin_cobyla(func, x0, [cons])] and [fmin_slsqp(func, x0,
    f_ieqcons=cons, epsilon=eps)], on the objective and the constraint with
    their extra arguments already supplied. *)
Variable fmin_cobyla : (Q -> result Q) -> Q -> (Q -> result fnum) -> result Q.
Variable fmin_slsqp : (Q -> result Q) -> Q -> (Q -> result fnum) -> Q -> result Q.
(** [np.random.shuffle] as drawn for tree [i] and column [j]. *)
Variable shuffle : nat -> nat -> list Q -> list Q.

(** *** Inherited from [RandomForestRegressor] *)

Definition rf_fit (X : ndarray) (y : list Q) : M unit :=
  fun self =>
    let '(c, rows) := atleast_2d X in
    match grow rows y with
    | Ok trees => (Ok tt, Obj (Some trees) c (bootstrap self) (attrs self))
    | Raise e => (Raise e, self)
    end.

(** [self.apply(X)]: one row per sample, one leaf identifier per tree,
    after scikit-learn's validation of the number of samples and of
    features. *)
Definition rf_apply (X : ndarray) : M (list (list Z)) :=
  fun self =>
    match estimators_ self with
    | None => (Raise (Exn "NotFittedError" "estimators_"), self)
    | Some trees =>
        let '(c, rows) := atleast_2d X in
        if Nat.eqb (length rows) 0
        then (Raise (ValueError "Found array with 0 sample(s)"), self)
        else if Nat.eqb c (n_features_ self)
        then (Ok (map (fun r => map (fun t : tree => t r) trees) rows), self)
        else (Raise (ValueError "Number of features of the model must match the input"), self)
    end.

(** [self.estimators_[iTree].tree_] for [iTree >= 0]. *)
Definition get_tree (i : nat) : M tree :=
  fun self =>
    match estimators_ self with
    | None => (Raise (AttributeError "estimators_"), self)
    | Some trees =>
        match trees !! i with
        | Some t => (Ok t, self)
        | None => (Raise (IndexError "list index out of range"), self)
        end
    end.

(** [tree.apply(X.astype(np.float32))]: a two-dimensional array is
    required. *)
Definition tree_apply (t : tree) (X : ndarray) : result (list Z) :=
  match X with
  | Arr2 _ rows => Ok (map t rows)
  | _ => Raise (ValueError "X.ndim should be 2")
  end.

Definition set_bootstrap (b : bool) : M unit :=
  fun self => (Ok tt, Obj (estimators_ self) (n_features_ self) b (attrs self)).

(** *** [fit] *)

(** [DataFrame(X)]. *)
Definition to_frame (X : ndarray) : pyval :=
  match X with
  | Arr0 x => VFrame 1 [[x]]
  | Arr1 v => VFrame 1 (map (fun x => [x]) v)
  | Arr2 c rows => VFrame c rows
  end.

Definition fit (X : ndarray) (y : list Q) : M unit :=
  do n <- lift (shape0 X);
  (if Nat.eqb n (size X) then
     setattr "_n_sample" (VInt n) ;;
     setattr "_input_dim" (VInt 1)
   else
     do d <- lift (shape1 X);
     setattr "_n_sample" (VInt n) ;;
     setattr "_input_dim" (VInt d)) ;;
  set_bootstrap true ;;
  rf_fit X y ;;
  setattr "_input_sample" (to_frame X) ;;
  setattr "_output_sample" (VSeries y) ;;
  do nodes <- rf_apply X;
  setattr "_sample_nodes" (VLeaves nodes).

(** *** [_check_input] *)

(** The [except] branch, also entered when the [ValueError] of the [try]
    branch is raised, since the [except] clause is bare. *)
Definition check_input_vector (n input_dim : nat) : result (nat * nat) :=
  let d := 1%nat in
  if negb (Nat.eqb d input_dim) then
    if Nat.eqb n input_dim then Ok (1%nat, n)
    else Raise (ValueError "X dimension is different from forest dimension")
  else Ok (n, d).

(** [self._input_dim] is read in the [try] branch and again in the [except]
    branch: where it is not bound the [AttributeError] of the first reading
    is caught and the second reading raises it again.  [X.resize(n, 1)] is
    called on the array that the caller still holds, so numpy refuses it
    with a [ValueError] when the number of entries would change. *)
Definition _check_input (X : ndarray) : M (ndarray * nat) :=
  do n <- lift (shape0 X);
  do input_dim <- get_int "_input_dim";
  do nd <- lift
    match shape1 X with
    | Ok d =>
        if negb (Nat.eqb d input_dim) then
          if Nat.eqb n input_dim then Ok (1%nat, n)
          else check_input_vector n input_dim
        else Ok (n, d)
    | Raise _ => check_input_vector n input_dim
    end;
  let '(n, d) := nd in
  if Nat.ltb 1 n && Nat.eqb d 1 then
    if Nat.eqb (size X) n then ret (resize_column X n, n)
    else raise (ValueError "cannot resize an array that is referenced by another array")
  else ret (X, n).

(** *** [_optFunc] and [_ieqFunc]

    The first statement of [_optFunc] computes [alphai], which the function
    does not use. *)

Definition _optFunc (yi : Q) (w : list fnum) (alpha : Q) : M Q :=
  do ys <- get_series "_output_sample";
  ret (optFunc_value ys yi w alpha).

Definition _ieqFunc (yi : Q) (w : list fnum) (alpha : Q) : M fnum :=
  do ys <- get_series "_output_sample";
  ret (ieqFunc_value ys yi w alpha).

(** *** [setPrecisionOfCDF]

    [reshape(self._numSample, 1)] needs [_numSample] to be the number of
    outputs. *)

Definition setPrecisionOfCDF (n_points : nat) : M unit :=
  do ys <- get_series "_outputSample";
  let yCDF := build_grid ys n_points in
  setattr "_yCDF" (VGrid yCDF) ;;
  do out <- get_series "_outputSample";
  do numSample <- get_int "_numSample";
  if Nat.eqb numSample (length out) then
    do grid <- get_grid "_yCDF";
    setattr "_infYY" (VMask (build_infYY out grid))
  else raise (ValueError "total size of new array must be unchanged").

(** *** [computeQuantile] *)

(** The leaves that the loop compares: all trees, or one.  [X_nodes] is kept
    as [apply] returns it, one row per query point: its row [k] is the
    column [X_nodes[:, k]] of the transposed array of the source. *)
Inductive nodes : Type :=
| AllTrees (sample_node : list (list Z)) (X_nodes : list (list Z))
| OneTree (sample_node : list Z) (X_nodes : list Z).

(** [a.resize((1, n))] of a one-dimensional array of leaves. *)
Definition resize_row (a : list Z) (n : nat) : list Z :=
  firstn n (a ++ repeat 0%Z n).

(** [values[:, i]]. *)
Definition column (i : nat) (rows : list (list Z)) : result (list Z) :=
  map_result
    (fun row : list Z =>
       match row !! i with
       | Some x => Ok x
       | None => Raise (IndexError "index is out of bounds for axis 1")
       end) rows.

(** Lines 142-152. *)
Definition find_nodes (X : ndarray) (n_quantiles : nat) (iTree : Z) : M nodes :=
  if Z.ltb iTree 0 then
    do one <- (if Nat.eqb n_quantiles 1
               then do input_dim <- get_int "_input_dim"; ret (Nat.eqb input_dim 1)
               else ret false);
    do X_nodes <- (if one : bool
                   then do x0 <- lift (item0 X); rf_apply x0
                   else rf_apply X);
    do sample_node <- get_leaves "_sample_nodes";
    ret (AllTrees sample_node X_nodes)
  else
    do t <- get_tree (Z.to_nat iTree);
    do X_nodes <- lift (tree_apply t X);
    let X_nodes := resize_row X_nodes n_quantiles in
    do all <- get_leaves "_nodesOfSamples";
    do sample_node <- lift (column (Z.to_nat iTree) all);
    ret (OneTree sample_node X_nodes).

(** Lines 158-172: the weight of the training samples for query [k]. *)
Definition weight_of (nd : nodes) (k : nat) : result (list fnum) :=
  match nd with
  | AllTrees sample_node X_nodes =>
      match X_nodes !! k with
      | Some xk => Ok (forest_weight sample_node xk)
      | None => Raise (IndexError "index is out of bounds for axis 1")
      end
  | OneTree sample_node X_nodes =>
      match X_nodes !! k with
      | Some x => Ok (tree_weight sample_node x)
      | None => Raise (IndexError "index is out of bounds for axis 1")
      end
  end.

(** Lines 182-200: one call of the optimizer, with [args=(weight, alphai)]
    supplied to [self._optFunc] and [self._ieqFunc]. *)
Definition optimize (o : options) (weight : list fnum) (y0 : list Q)
    (i : nat) (alphai : Q) : M fnum :=
  fun self =>
    let func := fun yi => fst (_optFunc yi weight alphai self) in
    let cons := fun yi => fst (_ieqFunc yi weight alphai self) in
    if String.eqb (opt_method o) "Cobyla" then
      match y0 !! i with
      | None => (Raise (IndexError "index out of bounds"), self)
      | Some x0 =>
          match fmin_cobyla func x0 cons with
          | Ok q => (Ok (Fin q), self)
          | Raise e => (Raise e, self)
          end
      end
    else if String.eqb (opt_method o) "SQP" then
      match y0 !! i with
      | None => (Raise (IndexError "index out of bounds"), self)
      | Some x0 =>
          let epsilon := (1 # 10) * Qabs x0 in
          match fmin_slsqp func x0 cons epsilon with
          | Ok q => (Ok (Fin q), self)
          | Raise e => (Raise e, self)
          end
      end
    else (Raise (ValueError "Unknow optimisation method"), self).

(** [for i, alphai in enumerate(alpha): quantiles[k, i] = ...]. *)
Fixpoint optimize_loop (o : options) (weight : list fnum) (y0 : list Q)
    (i : nat) (al : list Q) (row : list fnum) : M (list fnum) :=
  match al with
  | [] => ret row
  | alphai :: al' =>
      do q <- optimize o weight y0 i alphai;
      optimize_loop o weight y0 (S i) al' (<[i := q]> row)
  end.

(** [self._CDF[:, k] = CDF]. *)
Definition set_column (k : nat) (col : list fnum) (rows : list (list fnum))
    : list (list fnum) :=
  zip_with (fun row c => <[k := c]> row) rows col.

(** Lines 175-206: the row [quantiles[k, :]]. *)
Definition quantile_row (o : options) (alpha : alphas) (weight : list fnum)
    (k : nat) (row : list fnum) : M (list fnum) :=
  if do_optim o then
    do ys <- get_series "_output_sample";
    do y0 <- lift (np_percentile (mask_select (map fne0 weight) ys)
                                 (map (Qmult 100) (alpha_values alpha)));
    do al <- lift (alpha_iter alpha);
    optimize_loop o weight y0 0 al row
  else
    do infYY <- get_mask "_infYY";
    let CDF := cdf_of infYY weight in
    do al <- lift (alpha_iter alpha);
    do yCDF <- get_grid "_yCDF";
    do qs <- lift (map_result (first_reaching yCDF CDF) al);
    (if doSaveCDF o then
       do cdf <- get_array "_CDF";
       setattr "_CDF" (VArray (set_column k CDF cdf))
     else ret tt) ;;
    ret qs.

(** Lines 155-206: [for k in range(n_quantiles)]. *)
Fixpoint quantile_loop (o : options) (alpha : alphas) (nd : nodes)
    (ks : list nat) (quantiles : list (list fnum)) : M (list (list fnum)) :=
  match ks with
  | [] => ret quantiles
  | k :: ks' =>
      do weight <- lift (weight_of nd k);
      do row <- quantile_row o alpha weight k (nth k quantiles []);
      quantile_loop o alpha nd ks' (<[k := row]> quantiles)
  end.

(** Lines 114-213.  [np.zeros] and [np.empty] both give zeros here; the
    entries of [_CDF] are not read before they are assigned. *)
Definition computeQuantile (q : query) (o : options) : M pyfloats :=
  let '(X, alpha) := as_arrays q in
  do Xn <- _check_input X;
  let '(X, n_quantiles) := Xn in
  let n_alphas := alpha_size alpha in
  let quantiles := repeat (repeat (Fin 0) n_alphas) n_quantiles in
  (if doSaveCDF o || negb (do_optim o) then
     do n_points <- get_int "_n_points";
     setPrecisionOfCDF n_points
   else ret tt) ;;
  (if doSaveCDF o then
     do yCDF <- get_grid "_yCDF";
     setattr "_CDF" (VArray (repeat (repeat (Fin 0) n_quantiles) (length yCDF)))
   else ret tt) ;;
  do nd <- find_nodes X n_quantiles (iTree o);
  do quantiles <- quantile_loop o alpha nd (seq 0 n_quantiles) quantiles;
  lift (pack_result n_quantiles n_alphas quantiles).

(** *** [_computeImportanceOfTree] and [compute_importance] *)

(** [a[oob]] and [a[oob, :]]: indexing by a list of positions. *)
Definition take_indices {A : Type} (ids : list nat) (a : list A) : result (list A) :=
  map_result
    (fun i => match a !! i with
              | Some x => Ok x
              | None => Raise (IndexError "index is out of bounds for axis 0")
              end) ids.

(** [np.random.shuffle(X[:, j])] on a copy of [X]. *)
Definition shuffle_column (i j : nat) (rows : list (list Q)) : list (list Q) :=
  let col := shuffle i j (map (fun row => nth j row 0) rows) in
  zip_with (fun row x => <[j := x]> row) rows col.

(** [check_function(Yobs, Yest, alpha).mean()]. *)
Definition mean_check (Yobs : list Q) (Yest : pyfloats) (alpha : alphas) : result fnum :=
  match check_function_arrays (Mat 1 (length Yobs) [map Fin Yobs])
                              (as_matrix Yest) (alpha_matrix alpha) with
  | Ok e => Ok (mean_all e)
  | Raise e => Raise e
  end.

(** The keyword arguments of [self.computeQuantile(X_oob, alpha, iTree=i)]. *)
Definition tree_options (i : nat) : options :=
  Options true false (Z.of_nat i) "Cobyla".

Definition _computeImportanceOfTree (alpha : alphas) (i : nat) : M (list fnum) :=
  do oobID <- get_index "_oobID";
  do oob <- lift (match oobID !! i with
                  | Some l => Ok l
                  | None => Raise (IndexError "list index out of range")
                  end);
  do inputs <- get_frame "_inputSample";
  let '(c, rows) := inputs in
  do X_oob <- lift (take_indices oob rows);
  do outputs <- get_series "_outputSample";
  do Yobs_oob <- lift (take_indices oob outputs);
  do Yest_oob <- computeQuantile (QArray (Arr2 c X_oob) alpha) (tree_options i);
  do baseError <- lift (mean_check Yobs_oob Yest_oob alpha);
  do input_dim <- get_int "_input_dim";
  do permError <-
    map_M (fun j =>
             let X_oob_perm := shuffle_column i j X_oob in
             do Yest_oob_perm <-
               computeQuantile (QArray (Arr2 c X_oob_perm) alpha) (tree_options i);
             lift (mean_check Yobs_oob Yest_oob_perm alpha))
          (seq 0 input_dim);
  ret (map (fun e => fsub e baseError) permError).

(** [pool.map]: every task runs on a copy of the object in a worker
    process; the results come back in order and the first exception is
    raised again in the caller. *)
Definition pool_map {A B : Type} (f : A -> M B) (tasks : list A) : M (list B) :=
  fun self => (map_result (fun a => fst (f a self)) tasks, self).

Definition compute_importance (alpha : alphas) : M pyfloats :=
  do numJobs <- get_int "_numJobs";
  do numTree <- get_int "_numTree";
  do errors <- pool_map (_computeImportanceOfTree alpha) (seq 0 numTree);
  ret (mean_axis0 errors).

(** *** Objects that a program can hold *)

Inductive call : Type :=
| Call_fit (X : ndarray) (y : list Q)
| Call_computeQuantile (q : query) (o : options)
| Call_setPrecisionOfCDF (n_points : nat)
| Call_computeImportanceOfTree (alpha : alphas) (i : nat)
| Call_compute_importance (alpha : alphas).

(** The object after a call, whether the call returned or raised. *)
Definition after (c : call) (self : obj) : obj :=
  match c with
  | Call_fit X y => snd (fit X y self)
  | Call_computeQuantile q o => snd (computeQuantile q o self)
  | Call_setPrecisionOfCDF n => snd (setPrecisionOfCDF n self)
  | Call_computeImportanceOfTree alpha i => snd (_computeImportanceOfTree alpha i self)
  | Call_compute_importance alpha => snd (compute_importance alpha self)
  end.

(** The objects obtained from [QuantileForest()] by method calls. *)
Inductive reachable : obj -> Prop :=
| reachable_new : reachable QuantileForest_new
| reachable_call c self : reachable self -> reachable (after c self).

(** A model produced by [fit]: the object left by a call of [fit] that
    returned. *)
Definition produced_by_fit (self : obj) : Prop :=
  exists self0 X y, reachable self0 /\ fit X y self0 = (Ok tt, self).

End Methods.

(** * Notions used in the statements *)

(** ** The objective of the optimization strategy *)

(** The weighted pinball loss as the specification writes it:
    [sum_i w_i * (y_i - q) * (alpha - 1{y_i - q < 0})]. *)
Definition weighted_pinball (ys w : list Q) (q alpha : Q) : Q :=
  Qsum (zip_with (fun y wi => wi * (y - q) * (alpha - b2q (Qltb (y - q) 0))) ys w).

(** The pinball loss summed, without weights, over the samples whose weight
    is not zero. *)
Definition support_pinball (ys : list Q) (w : list fnum) (q alpha : Q) : Q :=
  Qsum (zip_with
          (fun y wi => b2q (fne0 wi) * ((y - q) * (alpha - b2q (Qltb (y - q) 0))))
          ys w).

(** ** The constrained problem handed to the optimizer *)

(** [q] satisfies the constraint [_ieqFunc(q, w, alpha) >= 0]. *)
Definition feasible (ys : list Q) (w : list fnum) (alpha q : Q) : Prop :=
  fge (ieqFunc_value ys q w alpha) (Fin 0) = true.

(** [q] solves the problem: it is feasible and no feasible point has a
    smaller objective [_optFunc]. *)
Definition constrained_minimizer (ys : list Q) (w : list fnum) (alpha q : Q) : Prop :=
  feasible ys w alpha q /\
  forall q', feasible ys w alpha q' ->
             optFunc_value ys q w alpha <= optFunc_value ys q' w alpha.

(** ** The weight of a training sample, tree by tree *)

(** The number of training rows that tree [t] sends to the leaf of [x]. *)
Definition occupancy (t : tree) (rows : list (list Q)) (x : list Q) : nat :=
  count_true (map (fun r => Z.eqb (t r) (t x)) rows).

(** The mean over the trees of [1{leaf_t(r) = leaf_t(x)} / occupancy_t(x)]. *)
Definition tree_share (trees : list tree) (rows : list (list Q)) (x r : list Q) : Q :=
  Qsum (map (fun t : tree =>
               b2q (Z.eqb (t r) (t x)) / inject_Z (Z.of_nat (occupancy t rows x)))
            trees)
  / inject_Z (Z.of_nat (length trees)).

(** Every leaf of every tree holds at least one training row (what growing
    the trees on these rows guarantees). *)
Definition leaves_populated (trees : list tree) (rows : list (list Q)) : Prop :=
  forall (t : tree) (x : list Q), In t trees -> exists r, In r rows /\ t r = t x.

(** ** The weighted empirical distribution function *)

(** [sum_i w_i * 1{y_i <= g}]. *)
Definition weighted_cdf (ys wq : list Q) (g : Q) : Q :=
  Qsum (zip_with (fun y wi => b2q (Qleb y g) * wi) ys wq).

(** [v] is the smallest value of the grid whose cumulated weight reaches
    [alpha]. *)
Definition smallest_reaching (ys wq gq : list Q) (alpha v : Q) : Prop :=
  In v gq /\
  alpha <= weighted_cdf ys wq v /\
  forall g, In g gq -> alpha <= weighted_cdf ys wq g -> v <= g.

(** ** The shape of what [computeQuantile] returns *)

Definition is_scalar (r : pyfloats) : Prop := exists q, r = RScalar q.

Definition is_vector (len : nat) (r : pyfloats) : Prop :=
  exists v, r = RVector v /\ length v = len.

Definition is_matrix (n m : nat) (r : pyfloats) : Prop :=
  exists rows, r = RMatrix n m rows /\ length rows = n /\
               Forall (fun row => length row = m) rows.

(** ** What a computation does to the object and which exceptions it raises *)

(** The attributes that the methods of the class assign. *)
Definition assigned : list string :=
  ["_n_sample"; "_input_dim"; "_input_sample"; "_output_sample"; "_sample_nodes";
   "_yCDF"; "_infYY"; "_CDF"].

(** A computation leaves the binding of [name] as it found it. *)
Definition keeps {A : Type} (name : string) (m : M A) : Prop :=
  forall self, attrs (snd (m self)) !! name = attrs self !! name.

(** A computation does not change the object. *)
Definition pure {A : Type} (m : M A) : Prop := forall self, snd (m self) = self.

(** A result is not the exception [EmptyLeafError]. *)
Definition quiet {A : Type} (r : result A) : Prop := ~ raises_class r "EmptyLeafError".

(** A computation never raises [EmptyLeafError]. *)
Definition never_EmptyLeafError {A : Type} (m : M A) : Prop :=
  forall self, quiet (fst (m self)).

(** * Example data

    Instances of the collaborators on which the statements are tried: small
    stand-ins with the interface of the real ones, not models of
    scikit-learn's, numpy's or scipy's algorithms (the percentile excepted). *)

(** A tree with one split on the first feature. *)
Definition stump (threshold : Q) : tree :=
  fun x => if Qleb (hd 0 x) threshold then 1%Z else 2%Z.

(** A forest of two stumps, whatever the data. *)
Definition example_grow (rows : list (list Q)) (y : list Q) : result (list tree) :=
  Ok [stump 2; stump 4].

(** numpy's percentile with linear interpolation between the two nearest
    ranks. *)
Definition example_percentile (a q : list Q) : result (list Q) :=
  match sort_values a with
  | [] => Raise (IndexError "index -1 is out of bounds for axis 0 with size 0")
  | (s0 :: _) as s =>
      Ok (map (fun p =>
                 let pos := (p / 100) * inject_Z (Z.of_nat (length s - 1)) in
                 let lo := Z.to_nat (Qfloor pos) in
                 let frac := pos - inject_Z (Qfloor pos) in
                 let a_lo := nth lo s s0 in
                 let a_hi := nth (S lo) s a_lo in
                 a_lo + frac * (a_hi - a_lo)) q)
  end.

(** An optimizer that evaluates the objective and the constraint at the
    starting point and stops there. *)
Definition example_cobyla (func : Q -> result Q) (x0 : Q) (cons : Q -> result fnum)
    : result Q :=
  match func x0, cons x0 with
  | Ok _, Ok _ => Ok x0
  | Raise e, _ => Raise e
  | _, Raise e => Raise e
  end.

Definition example_slsqp (func : Q -> result Q) (x0 : Q) (cons : Q -> result fnum)
    (epsilon : Q) : result Q :=
  example_cobyla func x0 cons.

(** A shuffle that reverses the column. *)
Definition example_shuffle (i j : nat) (col : list Q) : list Q := rev col.

Definition example_X : ndarray := Arr2 1 [[1]; [3]; [5]].
Definition example_y : list Q := [10; 30; 50].

(** [QuantileForest().fit(example_X, example_y)]. *)
Definition example_model : obj :=
  snd (fit example_grow example_X example_y QuantileForest_new).

(** An object whose only attribute is [_output_sample]. *)
Definition with_outputs (ys : list Q) : obj :=
  Obj None O true (<["_output_sample" := VSeries ys]> ∅).

(** An object set up by hand for a view of tree 0 restricted to two
    out-of-bag samples, both in leaf 1 of that tree: the attributes that the
    single-tree branch and the inversion strategy read are bound. *)
Definition oob_view : obj :=
  Obj (Some [stump 2]) 1 true
      (<["_input_dim" := VInt 1]>
       (<["_output_sample" := VSeries [10; 30]]>
        (<["_nodesOfSamples" := VLeaves [[1%Z]; [1%Z]]]>
         (<["_n_points" := VInt 0]>
          (<["_outputSample" := VSeries [10; 30]]>
           (<["_numSample" := VInt 2]> ∅)))))).

(** An object that only records the dimension of its forest. *)
Definition with_input_dim (d : nat) : obj :=
  Obj None O true {[ "_input_dim" := VInt d ]}.

(** The number of quantiles in a result. *)
Definition result_size (r : pyfloats) : nat :=
  match r with
  | RScalar _ => 1%nat
  | RVector v => length v
  | RMatrix _ _ rows => length (concat rows)
  end.

(** The quantile of query point [k] at level number [i] in a result for
    [m] levels: [r] itself, [r[k * m + i]] or [r[k][i]]. *)
Definition quantile_at (m : nat) (r : pyfloats) (k i : nat) : option fnum :=
  match r with
  | RScalar q => match k, i with O, O => Some q | _, _ => None end
  | RVector v => v !! (k * m + i)%nat
  | RMatrix _ _ rows => match rows !! k with Some row => row !! i | None => None end
  end.

(** [[f(i, x) for i, x in enumerate(xs, start)]]: the values in order, or the
    first exception. *)
Fixpoint map_result_from {A B : Type} (f : nat -> A -> result B) (start : nat)
    (xs : list A) : result (list B) :=
  match xs with
  | [] => Ok []
  | x :: xs' =>
      match f start x with
      | Raise e => Raise e
      | Ok y => match map_result_from f (S start) xs' with
                | Raise e => Raise e
                | Ok ys => Ok (y :: ys)
                end
      end
  end.

(** [oob_view] with the attributes that [_computeImportanceOfTree] reads:
    the two samples are the out-of-bag samples of tree 0. *)
Definition importance_view : obj :=
  set_attrs (fun m => <["_oobID" := VIndex [[0%nat; 1%nat]]]>
                        (<["_inputSample" := VFrame 1 [[1]; [3]]]> m)) oob_view.

(** [oob_view] with a grid of a single point requested. *)
Definition coarse_view : obj := set_attrs (insert "_n_points" (VInt 1)) oob_view.



(** * Properties *)

(** ** Sums and floats *)

Lemma Qsum_app (l1 l2 : list Q) : Qsum (l1 ++ l2) == Qsum l1 + Qsum l2.
Proof.
  induction l1 as [|x l1 IH]; simpl.
  - lra.
  - rewrite IH. lra.
Qed.

Lemma fsum_Fin (l : list Q) : fsum (map Fin l) = Fin (Qsum l).
Proof.
  induction l as [|x l IH]; simpl; [reflexivity|].
  rewrite IH. reflexivity.
Qed.

Lemma Qleb_true (x y : Q) : Qleb x y = true <-> x <= y.
Proof.
  unfold Qleb. destruct (Qlt_le_dec y x); split; intros; try easy; lra.
Qed.

Lemma Qleb_false (x y : Q) : Qleb x y = false <-> y < x.
Proof.
  unfold Qleb. destruct (Qlt_le_dec y x); split; intros; try easy; lra.
Qed.

Lemma Qltb_true (x y : Q) : Qltb x y = true <-> x < y.
Proof.
  unfold Qltb. destruct (Qlt_le_dec x y); split; intros; try easy; lra.
Qed.

Lemma Qltb_false (x y : Q) : Qltb x y = false <-> y <= x.
Proof.
  unfold Qltb. destruct (Qlt_le_dec x y); split; intros; try easy; lra.
Qed.

(** ** The objective of the optimization strategy *)

Lemma optFunc_value_support (ys : list Q) (w : list fnum) (q alpha : Q) :
  optFunc_value ys q w alpha == support_pinball ys w q alpha.
Proof.
  unfold optFunc_value, support_pinball, check_function.
  revert w. induction ys as [|y ys IH]; intros [|wi w]; simpl; try reflexivity.
  destruct (fne0 wi); simpl.
  - rewrite IH. lra.
  - rewrite IH. lra.
Qed.

(** C1: the objective that the code computes is not the weighted pinball
    loss of the claim.  With outputs [0; 2], weights [1/4; 3/4],
    [alpha = 1/2] and [q = 1] the objective [_optFunc] is [1] while the
    weighted pinball loss is [1/2]. *)
Lemma C1_objective_is_not_weighted :
  ~ (forall (ys w : list Q) (alpha q : Q) (self : obj),
        0 < alpha < 1 ->
        length w = length ys ->
        attrs self !! "_output_sample" = Some (VSeries ys) ->
        exists v, fst (_optFunc q (map Fin w) alpha self) = Ok v /\
                  v == weighted_pinball ys w q alpha).
Proof.
  intros H.
  destruct (H [0; 2] [1 # 4; 3 # 4] (1 # 2) 1 (with_outputs [0; 2]))
    as (v & Hv & Heq).
  - lra.
  - reflexivity.
  - reflexivity.
  - vm_compute in Hv. inversion Hv; subst v. vm_compute in Heq. discriminate.
Qed.

(** C1: what [_optFunc] computes in place of the weighted pinball loss.
    For every weight vector (one weight per training sample), every [alpha]
    in (0,1) and every candidate [q], it returns the sum, over the
    training samples whose weight is not zero, of
    [(y_i - q) * (alpha - 1{y_i - q < 0})]: the weights select the samples
    and do not multiply the terms.  The object is unchanged. *)
Theorem C1_objective_unweighted_on_support
    (ys : list Q) (w : list fnum) (alpha q : Q) (self : obj) :
  0 < alpha < 1 ->
  length w = length ys ->
  attrs self !! "_output_sample" = Some (VSeries ys) ->
  exists v, _optFunc q w alpha self = (Ok v, self) /\
            v == support_pinball ys w q alpha.
Proof.
  intros _ _ Hys. exists (optFunc_value ys q w alpha). split.
  - unfold _optFunc, get_series, getattr, bind, ret. rewrite Hys. reflexivity.
  - apply optFunc_value_support.
Qed.

Lemma C1_objective_unweighted_on_support_witness :
  exists v, _optFunc 1 [Fin (1 # 4); Fin 0; Fin (3 # 4)] (1 # 2)
                     (with_outputs [0; 5; 2])
            = (Ok v, with_outputs [0; 5; 2]) /\
            v == support_pinball [0; 5; 2] [Fin (1 # 4); Fin 0; Fin (3 # 4)] 1 (1 # 2).
Proof.
  apply (C1_objective_unweighted_on_support
           [0; 5; 2] [Fin (1 # 4); Fin 0; Fin (3 # 4)] (1 # 2) 1
           (with_outputs [0; 5; 2])).
  - lra.
  - reflexivity.
  - reflexivity.
Defined.

(** ** Which attributes a method can bind *)

Create HintDb keeps.

Section Frame.

Variable name : string.
Hypothesis name_fresh : name ∉ assigned.

Lemma keeps_ret {A : Type} (a : A) : keeps name (ret a).
Proof. intros self. reflexivity. Qed.

Lemma keeps_raise {A : Type} (e : exn) : keeps name (@raise A e).
Proof. intros self. reflexivity. Qed.

Lemma keeps_lift {A : Type} (r : result A) : keeps name (lift r).
Proof. intros self. reflexivity. Qed.

Lemma keeps_bind {A B : Type} (m : M A) (k : A -> M B) :
  keeps name m -> (forall a, keeps name (k a)) -> keeps name (bind m k).
Proof.
  intros Hm Hk self. unfold bind. specialize (Hm self).
  destruct (m self) as [[a|e] self1]; simpl in *.
  - rewrite Hk. exact Hm.
  - exact Hm.
Qed.

Lemma keeps_getattr (a : string) : keeps name (getattr a).
Proof. intros self. unfold getattr. destruct (attrs self !! a); reflexivity. Qed.

Lemma keeps_setattr (a : string) (v : pyval) :
  a ∈ assigned -> keeps name (setattr a v).
Proof.
  intros Ha self. unfold setattr, set_attrs. simpl.
  apply lookup_insert_ne. intros ->. exact (name_fresh Ha).
Qed.

Ltac keeps_step :=
  match goal with
  | |- keeps _ (bind _ _) => apply keeps_bind; [|intros ?]
  | |- keeps _ (ret _) => apply keeps_ret
  | |- keeps _ (raise _) => apply keeps_raise
  | |- keeps _ (lift _) => apply keeps_lift
  | |- keeps _ (getattr _) => apply keeps_getattr
  | |- keeps _ (setattr _ _) =>
      apply keeps_setattr; rewrite list_elem_of_In; simpl; tauto
  | |- keeps _ (if ?b then _ else _) => destruct b
  | |- keeps _ (match ?x with _ => _ end) => destruct x
  | H : keeps _ ?m |- keeps _ ?m => exact H
  end.

Ltac keeps_auto := repeat keeps_step.

Lemma keeps_get_int a : keeps name (get_int a).
Proof. unfold get_int. keeps_auto. Qed.
Lemma keeps_get_series a : keeps name (get_series a).
Proof. unfold get_series. keeps_auto. Qed.
Lemma keeps_get_grid a : keeps name (get_grid a).
Proof. unfold get_grid. keeps_auto. Qed.
Lemma keeps_get_frame a : keeps name (get_frame a).
Proof. unfold get_frame. keeps_auto. Qed.
Lemma keeps_get_leaves a : keeps name (get_leaves a).
Proof. unfold get_leaves. keeps_auto. Qed.
Lemma keeps_get_mask a : keeps name (get_mask a).
Proof. unfold get_mask. keeps_auto. Qed.
Lemma keeps_get_array a : keeps name (get_array a).
Proof. unfold get_array. keeps_auto. Qed.
Lemma keeps_get_index a : keeps name (get_index a).
Proof. unfold get_index. keeps_auto. Qed.

#[local] Hint Resolve keeps_get_int keeps_get_series keeps_get_grid keeps_get_frame
  keeps_get_leaves keeps_get_mask keeps_get_array keeps_get_index : keeps.

Lemma keeps_map_M {A B : Type} (f : A -> M B) (xs : list A) :
  (forall x, keeps name (f x)) -> keeps name (map_M f xs).
Proof.
  intros Hf. induction xs as [|x xs IH]; simpl; keeps_auto. apply Hf.
Qed.

Variable grow : list (list Q) -> list Q -> result (list tree).
Variable np_percentile : list Q -> list Q -> result (list Q).
Variable fmin_cobyla : (Q -> result Q) -> Q -> (Q -> result fnum) -> result Q.
Variable fmin_slsqp : (Q -> result Q) -> Q -> (Q -> result fnum) -> Q -> result Q.
Variable shuffle : nat -> nat -> list Q -> list Q.

Lemma keeps_rf_fit X y : keeps name (rf_fit grow X y).
Proof.
  intros self. unfold rf_fit. destruct (atleast_2d X) as [c rows].
  destruct (grow rows y); reflexivity.
Qed.

Lemma keeps_rf_apply X : keeps name (rf_apply X).
Proof.
  intros self. unfold rf_apply. destruct (estimators_ self); [|reflexivity].
  destruct (atleast_2d X) as [c rows].
  destruct (Nat.eqb (length rows) 0); [reflexivity|].
  destruct (Nat.eqb c (n_features_ self)); reflexivity.
Qed.

Lemma keeps_get_tree i : keeps name (get_tree i).
Proof.
  intros self. unfold get_tree. destruct (estimators_ self) as [trees|]; [|reflexivity].
  destruct (trees !! i); reflexivity.
Qed.

Lemma keeps_set_bootstrap b : keeps name (set_bootstrap b).
Proof. intros self. reflexivity. Qed.

#[local] Hint Resolve keeps_rf_fit keeps_rf_apply keeps_get_tree keeps_set_bootstrap : keeps.

Lemma keeps_fit X y : keeps name (fit grow X y).
Proof. unfold fit. keeps_auto; auto with keeps. Qed.

Lemma keeps_check_input X : keeps name (_check_input X).
Proof. unfold _check_input. keeps_auto; auto with keeps. Qed.

Lemma keeps_setPrecisionOfCDF n : keeps name (setPrecisionOfCDF n).
Proof. unfold setPrecisionOfCDF. keeps_auto; auto with keeps. Qed.

Lemma keeps_find_nodes X n i : keeps name (find_nodes X n i).
Proof. unfold find_nodes. keeps_auto; auto with keeps. Qed.

Lemma keeps_optimize o w y0 i a :
  keeps name (optimize fmin_cobyla fmin_slsqp o w y0 i a).
Proof.
  intros self. unfold optimize.
  destruct (String.eqb (opt_method o) "Cobyla").
  - destruct (y0 !! i); [|reflexivity].
    destruct (fmin_cobyla _ _ _); reflexivity.
  - destruct (String.eqb (opt_method o) "SQP"); [|reflexivity].
    destruct (y0 !! i); [|reflexivity].
    destruct (fmin_slsqp _ _ _ _); reflexivity.
Qed.

Lemma keeps_optimize_loop o w y0 al : forall i row,
  keeps name (optimize_loop fmin_cobyla fmin_slsqp o w y0 i al row).
Proof.
  induction al as [|a al IH]; intros i row; simpl; keeps_auto.
  - apply keeps_optimize.
  - apply IH.
Qed.

Lemma keeps_quantile_row o alpha w k row :
  keeps name (quantile_row np_percentile fmin_cobyla fmin_slsqp o alpha w k row).
Proof.
  unfold quantile_row. keeps_auto; auto with keeps.
  apply keeps_optimize_loop.
Qed.

Lemma keeps_quantile_loop o alpha nd ks : forall quantiles,
  keeps name (quantile_loop np_percentile fmin_cobyla fmin_slsqp o alpha nd ks quantiles).
Proof.
  induction ks as [|k ks IH]; intros quantiles; simpl; keeps_auto.
  - apply keeps_quantile_row.
  - apply IH.
Qed.

Lemma keeps_computeQuantile q o :
  keeps name (computeQuantile np_percentile fmin_cobyla fmin_slsqp q o).
Proof.
  unfold computeQuantile. destruct (as_arrays q) as [X alpha].
  keeps_auto; auto with keeps.
  - apply keeps_check_input.
  - apply keeps_setPrecisionOfCDF.
  - apply keeps_find_nodes.
  - apply keeps_quantile_loop.
Qed.

Lemma keeps_computeImportanceOfTree alpha i :
  keeps name
    (_computeImportanceOfTree np_percentile fmin_cobyla fmin_slsqp shuffle alpha i).
Proof.
  unfold _computeImportanceOfTree. keeps_auto; auto with keeps.
  - apply keeps_computeQuantile.
  - apply keeps_map_M. intros j. keeps_auto. apply keeps_computeQuantile.
Qed.

Lemma keeps_compute_importance alpha :
  keeps name
    (compute_importance np_percentile fmin_cobyla fmin_slsqp shuffle alpha).
Proof.
  unfold compute_importance. keeps_auto; auto with keeps.
  intros self. reflexivity.
Qed.

(** No call binds a name outside [assigned]. *)
Lemma after_keeps c self :
  attrs (after grow np_percentile fmin_cobyla fmin_slsqp shuffle c self) !! name
  = attrs self !! name.
Proof.
  destruct c; simpl.
  - apply keeps_fit.
  - apply keeps_computeQuantile.
  - apply keeps_setPrecisionOfCDF.
  - apply keeps_computeImportanceOfTree.
  - apply keeps_compute_importance.
Qed.

(** On every object a program can hold, a name outside [assigned] is
    unbound. *)
Lemma reachable_unbound self :
  reachable grow np_percentile fmin_cobyla fmin_slsqp shuffle self ->
  attrs self !! name = None.
Proof.
  induction 1 as [|c self Hr IH].
  - reflexivity.
  - rewrite after_keeps. exact IH.
Qed.

End Frame.

(** ** Computations that do not change the object *)

Lemma pure_ret {A : Type} (a : A) : pure (ret a).
Proof. intros self. reflexivity. Qed.
Lemma pure_raise {A : Type} (e : exn) : pure (@raise A e).
Proof. intros self. reflexivity. Qed.
Lemma pure_lift {A : Type} (r : result A) : pure (lift r).
Proof. intros self. reflexivity. Qed.
Lemma pure_getattr a : pure (getattr a).
Proof. intros self. unfold getattr. destruct (attrs self !! a); reflexivity. Qed.
Lemma pure_bind {A B : Type} (m : M A) (k : A -> M B) :
  pure m -> (forall a, pure (k a)) -> pure (bind m k).
Proof.
  intros Hm Hk self. unfold bind. specialize (Hm self).
  destruct (m self) as [[a|e] self1]; simpl in *; subst self1.
  - apply Hk.
  - reflexivity.
Qed.

Ltac pure_step :=
  match goal with
  | |- pure (bind _ _) => apply pure_bind; [|intros ?]
  | |- pure (ret _) => apply pure_ret
  | |- pure (raise _) => apply pure_raise
  | |- pure (lift _) => apply pure_lift
  | |- pure (getattr _) => apply pure_getattr
  | |- pure (if ?b then _ else _) => destruct b
  | |- pure (match ?x with _ => _ end) => destruct x
  end.

Lemma pure_get_int a : pure (get_int a).
Proof. unfold get_int. repeat pure_step. Qed.
Lemma pure_get_series a : pure (get_series a).
Proof. unfold get_series. repeat pure_step. Qed.
Lemma pure_get_leaves a : pure (get_leaves a).
Proof. unfold get_leaves. repeat pure_step. Qed.
Lemma pure_get_grid a : pure (get_grid a).
Proof. unfold get_grid. repeat pure_step. Qed.

Lemma pure_rf_apply X : pure (rf_apply X).
Proof.
  intros self. unfold rf_apply. destruct (estimators_ self); [|reflexivity].
  destruct (atleast_2d X) as [c rows].
  destruct (Nat.eqb (length rows) 0); [reflexivity|].
  destruct (Nat.eqb c (n_features_ self)); reflexivity.
Qed.

Lemma pure_get_tree i : pure (get_tree i).
Proof.
  intros self. unfold get_tree. destruct (estimators_ self) as [trees|]; [|reflexivity].
  destruct (trees !! i); reflexivity.
Qed.

Lemma pure_check_input X : pure (_check_input X).
Proof. unfold _check_input. repeat pure_step; apply pure_get_int. Qed.

Lemma pure_find_nodes X n i : pure (find_nodes X n i).
Proof.
  unfold find_nodes. repeat pure_step;
    first [apply pure_get_int | apply pure_get_leaves | apply pure_rf_apply
          | apply pure_get_tree].
Qed.

(** The result and final object of a pure computation. *)
Lemma pure_run {A : Type} (m : M A) self : pure m -> m self = (fst (m self), self).
Proof. intros H. rewrite <- (H self) at 3. apply surjective_pairing. Qed.

Lemma bind_run {A B : Type} (m : M A) (k : A -> M B) (self : obj) :
  bind m k self
  = match m self with
    | (Ok a, self') => k a self'
    | (Raise e, self') => (Raise e, self')
    end.
Proof. reflexivity. Qed.

(** ** Attributes read but never assigned *)

Lemma fresh_nodesOfSamples : "_nodesOfSamples" ∉ assigned.
Proof. rewrite list_elem_of_In. simpl. intuition discriminate. Qed.
Lemma fresh_n_points : "_n_points" ∉ assigned.
Proof. rewrite list_elem_of_In. simpl. intuition discriminate. Qed.
Lemma fresh_outputSample : "_outputSample" ∉ assigned.
Proof. rewrite list_elem_of_In. simpl. intuition discriminate. Qed.
Lemma fresh_numSample : "_numSample" ∉ assigned.
Proof. rewrite list_elem_of_In. simpl. intuition discriminate. Qed.
Lemma fresh_inputSample : "_inputSample" ∉ assigned.
Proof. rewrite list_elem_of_In. simpl. intuition discriminate. Qed.
Lemma fresh_oobID : "_oobID" ∉ assigned.
Proof. rewrite list_elem_of_In. simpl. intuition discriminate. Qed.
Lemma fresh_numJobs : "_numJobs" ∉ assigned.
Proof. rewrite list_elem_of_In. simpl. intuition discriminate. Qed.
Lemma fresh_numTree : "_numTree" ∉ assigned.
Proof. rewrite list_elem_of_In. simpl. intuition discriminate. Qed.

Lemma getattr_unbound name self :
  attrs self !! name = None -> getattr name self = (Raise (AttributeError name), self).
Proof. intros H. unfold getattr. rewrite H. reflexivity. Qed.

Lemma getattr_bound name v self :
  attrs self !! name = Some v -> getattr name self = (Ok v, self).
Proof. intros H. unfold getattr. rewrite H. reflexivity. Qed.


Section Unassigned.

Variable grow : list (list Q) -> list Q -> result (list tree).
Variable np_percentile : list Q -> list Q -> result (list Q).
Variable fmin_cobyla : (Q -> result Q) -> Q -> (Q -> result fnum) -> result Q.
Variable fmin_slsqp : (Q -> result Q) -> Q -> (Q -> result fnum) -> Q -> result Q.
Variable shuffle : nat -> nat -> list Q -> list Q.

Local Abbreviation reachable' := (reachable grow np_percentile fmin_cobyla fmin_slsqp shuffle).
Local Abbreviation produced_by_fit' :=
  (produced_by_fit grow np_percentile fmin_cobyla fmin_slsqp shuffle).
Local Abbreviation computeQuantile' := (computeQuantile np_percentile fmin_cobyla fmin_slsqp).

Lemma produced_by_fit_reachable self : produced_by_fit' self -> reachable' self.
Proof.
  intros (self0 & X & y & Hr & Hfit).
  replace self with
    (after grow np_percentile fmin_cobyla fmin_slsqp shuffle (Call_fit X y) self0).
  - apply reachable_call. exact Hr.
  - simpl. rewrite Hfit. reflexivity.
Qed.

(** What [fit] leaves in the object when it returns. *)
Lemma fit_binds X y self0 self :
  fit grow X y self0 = (Ok tt, self) ->
  exists n d trees nodes,
    attrs self !! "_n_sample" = Some (VInt n) /\
    attrs self !! "_input_dim" = Some (VInt d) /\
    attrs self !! "_output_sample" = Some (VSeries y) /\
    attrs self !! "_sample_nodes" = Some (VLeaves nodes) /\
    estimators_ self = Some trees /\
    grow (snd (atleast_2d X)) y = Ok trees /\
    nodes = map (fun r => map (fun t : tree => t r) trees) (snd (atleast_2d X)).
Proof.
  unfold fit, bind, lift, setattr, set_bootstrap, rf_fit, rf_apply, ret; simpl.
  destruct (shape0 X) as [n|e]; [|discriminate].
  destruct (atleast_2d X) as [c rows] eqn:E2. simpl.
  destruct (Nat.eqb n (size X)).
  - simpl. destruct (grow rows y) as [trees|e]; [|discriminate]. simpl.
    destruct (Nat.eqb (length rows) 0); [discriminate|].
    rewrite Nat.eqb_refl. intros [= <-].
    exists n, 1%nat, trees, (map (fun r => map (fun t : tree => t r) trees) rows).
    simpl. repeat split; try reflexivity; by simplify_map_eq.
  - destruct (shape1 X) as [d|e]; [|discriminate]. simpl.
    destruct (grow rows y) as [trees|e]; [|discriminate]. simpl.
    destruct (Nat.eqb (length rows) 0); [discriminate|].
    rewrite Nat.eqb_refl. intros [= <-].
    exists n, d, trees, (map (fun r => map (fun t : tree => t r) trees) rows).
    simpl. repeat split; try reflexivity; by simplify_map_eq.
Qed.


Lemma get_int_unbound name self :
  attrs self !! name = None -> get_int name self = (Raise (AttributeError name), self).
Proof. intros H. unfold get_int, bind. rewrite getattr_unbound by exact H. reflexivity. Qed.

Lemma get_series_unbound name self :
  attrs self !! name = None -> get_series name self = (Raise (AttributeError name), self).
Proof. intros H. unfold get_series, bind. rewrite getattr_unbound by exact H. reflexivity. Qed.

Lemma get_leaves_unbound name self :
  attrs self !! name = None -> get_leaves name self = (Raise (AttributeError name), self).
Proof. intros H. unfold get_leaves, bind. rewrite getattr_unbound by exact H. reflexivity. Qed.

Lemma get_index_unbound name self :
  attrs self !! name = None -> get_index name self = (Raise (AttributeError name), self).
Proof. intros H. unfold get_index, bind. rewrite getattr_unbound by exact H. reflexivity. Qed.

(** The single-tree branch of [find_nodes] on an object without
    [_nodesOfSamples]. *)
Lemma find_nodes_single_tree X n i self :
  (0 <= i)%Z ->
  attrs self !! "_nodesOfSamples" = None ->
  ~ is_Ok (fst (find_nodes X n i self)) /\
  (forall trees t,
      estimators_ self = Some trees ->
      trees !! Z.to_nat i = Some t ->
      is_Ok (tree_apply t X) ->
      find_nodes X n i self = (Raise (AttributeError "_nodesOfSamples"), self)).
Proof.
  intros Hi Hun. unfold find_nodes.
  destruct (Z.ltb_spec i 0) as [Hlt|_]; [lia|].
  unfold bind, get_tree, lift. split.
  - destruct (estimators_ self) as [trees|]; [|simpl; tauto].
    destruct (trees !! Z.to_nat i) as [t|]; [|simpl; tauto].
    destruct (tree_apply t X) as [l|e]; [|simpl; tauto].
    rewrite get_leaves_unbound by exact Hun. simpl. tauto.
  - intros trees t -> -> Hok.
    destruct (tree_apply t X) as [l|e]; [|destruct Hok].
    rewrite get_leaves_unbound by exact Hun. reflexivity.
Qed.

(** C9: on every model produced by [fit], [computeQuantile] with
    [iTree = i >= 0] never returns.  Which exception it raises is fixed by
    the call: a query that [_check_input] refuses raises there; with the
    distribution function requested the [AttributeError] of [_n_points]
    comes first; otherwise [self.estimators_[i]] raises [IndexError] when
    the forest has no tree [i], [tree.apply] raises [ValueError] when the
    checked query is not two-dimensional (the scalar call), and only a
    two-dimensional query on an existing tree gets as far as the
    [AttributeError] of [_nodesOfSamples], which the single-tree branch
    reads and no method assigns ([fit] binds [_sample_nodes]). *)
Theorem C9_single_tree_never_returns (self : obj) (q : query) (o : options) :
  produced_by_fit' self ->
  (0 <= iTree o)%Z ->
  ~ is_Ok (fst (computeQuantile' q o self)) /\
  attrs self !! "_nodesOfSamples" = None /\
  (exists nodes, attrs self !! "_sample_nodes" = Some (VLeaves nodes)) /\
  (forall e, fst (_check_input (fst (as_arrays q)) self) = Raise e ->
             fst (computeQuantile' q o self) = Raise e) /\
  (forall X' n,
      fst (_check_input (fst (as_arrays q)) self) = Ok (X', n) ->
      (doSaveCDF o || negb (do_optim o) = true ->
       fst (computeQuantile' q o self) = Raise (AttributeError "_n_points")) /\
      (doSaveCDF o || negb (do_optim o) = false ->
       exists trees,
         estimators_ self = Some trees /\
         (trees !! Z.to_nat (iTree o) = None ->
          fst (computeQuantile' q o self) = Raise (IndexError "list index out of range")) /\
         (forall t, trees !! Z.to_nat (iTree o) = Some t ->
                    (forall c rows, X' = Arr2 c rows ->
                                    fst (computeQuantile' q o self)
                                    = Raise (AttributeError "_nodesOfSamples")) /\
                    ((forall c rows, X' <> Arr2 c rows) ->
                     exists msg, fst (computeQuantile' q o self)
                                 = Raise (ValueError msg))))).
Proof.
  intros Hfit Hi.
  pose proof (produced_by_fit_reachable _ Hfit) as Hr.
  pose proof (reachable_unbound _ fresh_nodesOfSamples _ _ _ _ _ _ Hr) as Hnodes.
  pose proof (reachable_unbound _ fresh_n_points _ _ _ _ _ _ Hr) as Hpoints.
  destruct Hfit as (self0 & X0 & y0 & _ & Hfit).
  destruct (fit_binds _ _ _ _ Hfit)
    as (n0 & d0 & trees & nodes & _ & _ & _ & Hleaves & Htrees & _).
  unfold computeQuantile. destruct (as_arrays q) as [X alpha]. simpl.
  rewrite bind_run, (pure_run _ self (pure_check_input X)).
  split; [|split; [exact Hnodes|split; [exists nodes; exact Hleaves|split]]].
  - destruct (fst (_check_input X self)) as [[X' n]|e]; [|simpl; tauto].
    destruct (doSaveCDF o || negb (do_optim o)) eqn:Hflag.
    + rewrite !bind_run, get_int_unbound by exact Hpoints. simpl. tauto.
    + apply orb_false_elim in Hflag as [-> _].
      unfold bind, ret.
      destruct (find_nodes_single_tree X' n (iTree o) self Hi Hnodes) as [Hno _].
      destruct (find_nodes X' n (iTree o) self) as [[nd|e] self1]; simpl in *; tauto.
  - intros e He. simpl in He. rewrite He. reflexivity.
  - intros X' n He. simpl in He. rewrite He. split.
    + intros ->. rewrite !bind_run, get_int_unbound by exact Hpoints. reflexivity.
    + intros Hflag. rewrite Hflag.
      apply orb_false_elim in Hflag as [-> _].
      exists trees. split; [exact Htrees|].
      unfold bind, ret, find_nodes.
      destruct (Z.ltb_spec (iTree o) 0) as [Hlt|_]; [lia|].
      unfold bind, get_tree, lift. rewrite Htrees. split.
      * intros ->. reflexivity.
      * intros t ->. split.
        -- intros c rows ->. simpl.
           rewrite get_leaves_unbound by exact Hnodes. reflexivity.
        -- intros Hnot. destruct X' as [x|v|c rows]; simpl.
           ++ eexists. reflexivity.
           ++ eexists. reflexivity.
           ++ destruct (Hnot c rows eq_refl).
Qed.


(** C10: on every model produced by [fit], [computeQuantile] with
    [do_optim=False] or [doSaveCDF=True] never returns; once the query has
    passed [_check_input] the exception is the [AttributeError] of
    [self._n_points].  The [setPrecisionOfCDF] that this path calls raises
    the [AttributeError] of [self._outputSample]; it also reads
    [self._numSample]; [fit] has bound [_output_sample] and [_n_sample]
    instead. *)
Theorem C10_cdf_path_raises_AttributeError (self : obj) (q : query) (o : options) :
  produced_by_fit' self ->
  do_optim o = false \/ doSaveCDF o = true ->
  ~ is_Ok (fst (computeQuantile' q o self)) /\
  (forall X' n,
      fst (_check_input (fst (as_arrays q)) self) = Ok (X', n) ->
      fst (computeQuantile' q o self) = Raise (AttributeError "_n_points")) /\
  (forall n_points,
      setPrecisionOfCDF n_points self = (Raise (AttributeError "_outputSample"), self)) /\
  attrs self !! "_n_points" = None /\
  attrs self !! "_outputSample" = None /\
  attrs self !! "_numSample" = None /\
  (exists y n, attrs self !! "_output_sample" = Some (VSeries y) /\
               attrs self !! "_n_sample" = Some (VInt n)).
Proof.
  intros Hfit Hflag.
  pose proof (produced_by_fit_reachable _ Hfit) as Hr.
  pose proof (reachable_unbound _ fresh_n_points _ _ _ _ _ _ Hr) as Hpoints.
  pose proof (reachable_unbound _ fresh_outputSample _ _ _ _ _ _ Hr) as Hout.
  pose proof (reachable_unbound _ fresh_numSample _ _ _ _ _ _ Hr) as Hnum.
  assert (Hor : doSaveCDF o || negb (do_optim o) = true).
  { destruct Hflag as [-> | ->]; [apply orb_true_r | reflexivity]. }
  repeat split; try assumption.
  - unfold computeQuantile. destruct (as_arrays q) as [X alpha].
    rewrite bind_run, (pure_run _ self (pure_check_input X)).
    destruct (fst (_check_input X self)) as [[X' n]|e]; [|simpl; tauto].
    rewrite Hor, !bind_run, get_int_unbound by exact Hpoints. simpl. tauto.
  - intros X' n. unfold computeQuantile. destruct (as_arrays q) as [X alpha]. simpl.
    intros Hci.
    rewrite bind_run, (pure_run _ self (pure_check_input X)), Hci.
    rewrite Hor, !bind_run, get_int_unbound by exact Hpoints.
    reflexivity.
  - intros n_points. unfold setPrecisionOfCDF.
    rewrite bind_run, get_series_unbound by exact Hout. reflexivity.
  - destruct Hfit as (self0 & X & y & _ & Hfit).
    destruct (fit_binds _ _ _ _ Hfit) as (n & d & trees & nodes & Hn & _ & Hy & _).
    exists y, n. split; assumption.
Qed.

(** C6 (what the code does): on every model produced by [fit],
    [setPrecisionOfCDF] builds no grid and no indicator matrix: whatever
    [n_points] is, it raises the [AttributeError] of [self._outputSample]
    at its first statement and leaves the object as it was. *)
Theorem C6_setPrecisionOfCDF_raises (self : obj) (n_points : nat) :
  produced_by_fit' self ->
  setPrecisionOfCDF n_points self = (Raise (AttributeError "_outputSample"), self).
Proof.
  intros Hfit.
  pose proof (produced_by_fit_reachable _ Hfit) as Hr.
  pose proof (reachable_unbound _ fresh_outputSample _ _ _ _ _ _ Hr) as Hout.
  unfold setPrecisionOfCDF.
  rewrite bind_run, get_series_unbound by exact Hout. reflexivity.
Qed.

(** C7 (what the code does): on every model produced by [fit],
    [compute_importance] returns no importance: it raises the
    [AttributeError] of [self._numJobs], and the per-tree computation raises
    the [AttributeError] of [self._oobID]. *)
Theorem C7_compute_importance_raises (self : obj) (alpha : alphas) :
  produced_by_fit' self ->
  compute_importance np_percentile fmin_cobyla fmin_slsqp shuffle alpha self
  = (Raise (AttributeError "_numJobs"), self) /\
  (forall i,
      _computeImportanceOfTree np_percentile fmin_cobyla fmin_slsqp shuffle alpha i self
      = (Raise (AttributeError "_oobID"), self)).
Proof.
  intros Hfit.
  pose proof (produced_by_fit_reachable _ Hfit) as Hr.
  pose proof (reachable_unbound _ fresh_numJobs _ _ _ _ _ _ Hr) as Hjobs.
  pose proof (reachable_unbound _ fresh_oobID _ _ _ _ _ _ Hr) as Hoob.
  split.
  - unfold compute_importance.
    rewrite bind_run, get_int_unbound by exact Hjobs. reflexivity.
  - intros i. unfold _computeImportanceOfTree.
    rewrite bind_run, get_index_unbound by exact Hoob. reflexivity.
Qed.

End Unassigned.

(** The example model is produced by [fit]. *)
Lemma example_model_fit :
  fit example_grow example_X example_y QuantileForest_new = (Ok tt, example_model).
Proof.
  unfold example_model.
  pose proof (eq_refl : fst (fit example_grow example_X example_y QuantileForest_new)
                        = Ok tt) as H.
  destruct (fit example_grow example_X example_y QuantileForest_new) as [r s].
  simpl in *. subst r. reflexivity.
Qed.

Lemma example_model_produced :
  produced_by_fit example_grow example_percentile example_cobyla example_slsqp
    example_shuffle example_model.
Proof.
  exists QuantileForest_new, example_X, example_y. split.
  - apply reachable_new.
  - apply example_model_fit.
Qed.

Lemma C9_single_tree_never_returns_witness :
  fst (computeQuantile example_percentile example_cobyla example_slsqp
         (QArray (Arr2 1 [[3]]) (AList [1 # 2])) (Options true false 1 "Cobyla")
         example_model)
  = Raise (AttributeError "_nodesOfSamples").
Proof.
  destruct (C9_single_tree_never_returns
              example_grow example_percentile example_cobyla example_slsqp
              example_shuffle example_model
              (QArray (Arr2 1 [[3]]) (AList [1 # 2])) (Options true false 1 "Cobyla")
              example_model_produced ltac:(simpl; lia)) as (_ & _ & _ & _ & H).
  destruct (H (Arr2 1 [[3]]) 1%nat eq_refl) as [_ H1].
  destruct (H1 eq_refl) as (trees & Htrees & _ & Hsome).
  injection Htrees as <-.
  destruct (Hsome (stump 4) eq_refl) as [Harr _].
  exact (Harr 1%nat [[3]] eq_refl).
Defined.

(** C9, the calls that raise another exception: on the example model
    (two trees) [iTree = 5] raises the [IndexError] of
    [self.estimators_[5]], and the scalar call with [iTree = 1] raises the
    [ValueError] of [tree.apply] on a one-dimensional array; neither reads
    [_nodesOfSamples]. *)
Lemma C9_other_exceptions_before_nodesOfSamples :
  produced_by_fit example_grow example_percentile example_cobyla example_slsqp
    example_shuffle example_model /\
  estimators_ example_model = Some [stump 2; stump 4] /\
  fst (computeQuantile example_percentile example_cobyla example_slsqp
         (QArray (Arr2 1 [[3]]) (AList [1 # 2])) (Options true false 5 "Cobyla")
         example_model)
  = Raise (IndexError "list index out of range") /\
  fst (computeQuantile example_percentile example_cobyla example_slsqp
         (QScalar 3 (1 # 2)) (Options true false 1 "Cobyla") example_model)
  = Raise (ValueError "X.ndim should be 2").
Proof.
  split; [exact example_model_produced|].
  split; [reflexivity|]. split; reflexivity.
Qed.

Lemma C10_cdf_path_raises_AttributeError_witness :
  fst (computeQuantile example_percentile example_cobyla example_slsqp
         (QScalar 3 (1 # 2)) (Options false false (-1) "Cobyla") example_model)
  = Raise (AttributeError "_n_points").
Proof.
  destruct (C10_cdf_path_raises_AttributeError
              example_grow example_percentile example_cobyla example_slsqp
              example_shuffle example_model
              (QScalar 3 (1 # 2)) (Options false false (-1) "Cobyla")
              example_model_produced (or_introl eq_refl)) as (_ & H & _).
  apply (H (Arr1 [3]) 1%nat). reflexivity.
Defined.

Lemma C6_setPrecisionOfCDF_raises_witness :
  setPrecisionOfCDF 0 example_model
  = (Raise (AttributeError "_outputSample"), example_model).
Proof.
  apply (C6_setPrecisionOfCDF_raises
           example_grow example_percentile example_cobyla example_slsqp
           example_shuffle example_model 0%nat example_model_produced).
Defined.

Lemma C7_compute_importance_raises_witness :
  compute_importance example_percentile example_cobyla example_slsqp example_shuffle
    (AList [1 # 2]) example_model
  = (Raise (AttributeError "_numJobs"), example_model).
Proof.
  apply (C7_compute_importance_raises
           example_grow example_percentile example_cobyla example_slsqp
           example_shuffle example_model (AList [1 # 2]) example_model_produced).
Defined.

(** ** The weights of the full forest *)

Lemma Qsum_ext {A : Type} (f g : A -> Q) (l : list A) :
  (forall a, In a l -> f a == g a) -> Qsum (map f l) == Qsum (map g l).
Proof.
  induction l as [|a l IH]; intros H; simpl; [reflexivity|].
  rewrite (H a) by (left; reflexivity).
  rewrite IH by (intros b Hb; apply H; right; exact Hb). reflexivity.
Qed.

Lemma Qsum_plus {A : Type} (f g : A -> Q) (l : list A) :
  Qsum (map (fun a => f a + g a) l) == Qsum (map f l) + Qsum (map g l).
Proof. induction l as [|a l IH]; simpl; [lra|]. rewrite IH. lra. Qed.

Lemma Qsum_scale {A : Type} (f : A -> Q) (c : Q) (l : list A) :
  Qsum (map (fun a => f a * c) l) == Qsum (map f l) * c.
Proof. induction l as [|a l IH]; simpl; [lra|]. rewrite IH. lra. Qed.

Lemma Qsum_zero {A : Type} (l : list A) : Qsum (map (fun _ => 0) l) == 0.
Proof. induction l as [|a l IH]; simpl; [lra|]. rewrite IH. lra. Qed.

Lemma Qsum_nonneg (l : list Q) : Forall (Qle 0) l -> 0 <= Qsum l.
Proof. induction 1 as [|x l Hx _ IH]; simpl; lra. Qed.

(** Exchange of two finite sums. *)
Lemma Qsum_swap {A B : Type} (f : A -> B -> Q) (la : list A) (lb : list B) :
  Qsum (map (fun a => Qsum (map (fun b => f a b) lb)) la)
  == Qsum (map (fun b => Qsum (map (fun a => f a b) la)) lb).
Proof.
  induction la as [|a la IH]; simpl.
  - rewrite Qsum_zero. reflexivity.
  - rewrite IH, <- Qsum_plus. reflexivity.
Qed.

Lemma inject_nat_pos (n : nat) : n <> O -> 0 < inject_Z (Z.of_nat n).
Proof.
  intros Hn. change 0 with (inject_Z 0). rewrite <- Zlt_Qlt. lia.
Qed.

Lemma inject_nat_nonneg (n : nat) : 0 <= inject_Z (Z.of_nat n).
Proof. change 0 with (inject_Z 0). rewrite <- Zle_Qle. lia. Qed.

Lemma inject_nat_S (n : nat) :
  inject_Z (Z.of_nat (S n)) == 1 + inject_Z (Z.of_nat n).
Proof.
  rewrite Nat2Z.inj_succ. unfold Z.succ. rewrite inject_Z_plus.
  change (inject_Z 1) with 1. lra.
Qed.

Lemma inject_nat_plus (n m : nat) :
  inject_Z (Z.of_nat (n + m)) == inject_Z (Z.of_nat n) + inject_Z (Z.of_nat m).
Proof. rewrite Nat2Z.inj_add, inject_Z_plus. reflexivity. Qed.

Lemma Qeq_bool_nat_false (n : nat) :
  n <> O -> Qeq_bool (inject_Z (Z.of_nat n)) 0 = false.
Proof.
  intros Hn. destruct (Qeq_bool (inject_Z (Z.of_nat n)) 0) eqn:E; [|reflexivity].
  apply Qeq_bool_eq in E. pose proof (inject_nat_pos n Hn). lra.
Qed.

Lemma zip_with_map_map {A B C D : Type} (f : B -> C -> D) (g : A -> B) (h : A -> C)
    (l : list A) :
  zip_with f (map g l) (map h l) = map (fun a => f (g a) (h a)) l.
Proof. induction l as [|a l IH]; simpl; [reflexivity|]. rewrite IH. reflexivity. Qed.

Lemma repeat_map_const {A B : Type} (b : B) (l : list A) :
  repeat b (length l) = map (fun _ => b) l.
Proof. induction l as [|a l IH]; simpl; [reflexivity|]. rewrite IH. reflexivity. Qed.

Lemma Qsum_b2q_count {A : Type} (p : A -> bool) (l : list A) :
  Qsum (map (fun a => b2q (p a)) l) == inject_Z (Z.of_nat (count_true (map p l))).
Proof.
  induction l as [|a l IH]; simpl; [reflexivity|].
  rewrite IH, inject_nat_plus.
  destruct (p a); simpl.
  - change (inject_Z (Z.of_nat 1)) with 1. reflexivity.
  - change (inject_Z (Z.of_nat 0)) with 0. reflexivity.
Qed.

Section ForestWeight.

Variable trees : list tree.
Variable rows : list (list Q).
Variable x : list Q.

(** The matrix of the samples' leaves and the leaves of the query, as [fit]
    and [computeQuantile] get them from [apply]. *)
Let sample_node : list (list Z) := map (fun r => map (fun t : tree => t r) trees) rows.
Let xk : list Z := map (fun t : tree => t x) trees.

Lemma same_leaf_trees :
  same_leaf sample_node xk
  = map (fun r => map (fun t : tree => Z.eqb (t r) (t x)) trees) rows.
Proof.
  unfold same_leaf, sample_node, xk. rewrite map_map.
  apply map_ext. intros r. apply zip_with_map_map.
Qed.

Lemma sum_axis0_occupancy :
  sum_axis0 (length xk) (same_leaf sample_node xk)
  = map (fun t => occupancy t rows x) trees.
Proof.
  rewrite same_leaf_trees. unfold xk, occupancy, sum_axis0. rewrite length_map. clear.
  induction rows as [|r rs IH]; simpl.
  - apply repeat_map_const.
  - rewrite IH, map_map. apply zip_with_map_map.
Qed.

Lemma occupancy_pos (t : tree) :
  (exists r, In r rows /\ t r = t x) -> occupancy t rows x <> O.
Proof.
  intros (r & Hr & Heq). unfold occupancy. clear sample_node xk.
  induction rows as [|r' rs IH]; simpl in *; [destruct Hr|].
  destruct Hr as [-> | Hr].
  - rewrite Heq, Z.eqb_refl. simpl. lia.
  - specialize (IH Hr). lia.
Qed.

(** With at least one tree and no empty leaf, the weight of every sample is
    the finite number [tree_share]. *)
Lemma forest_weight_tree_share :
  trees <> [] ->
  leaves_populated trees rows ->
  forest_weight sample_node xk = map Fin (map (tree_share trees rows x) rows).
Proof.
  intros Hne Hpop. unfold forest_weight. rewrite sum_axis0_occupancy, same_leaf_trees.
  unfold mean_axis1, divide_rows. rewrite !map_map. apply map_ext. intros r.
  rewrite zip_with_map_map. unfold mean. rewrite length_map.
  assert (Hrow :
    map (fun t : tree =>
           fdiv (Fin (b2q (Z.eqb (t r) (t x)))) (of_nat (occupancy t rows x))) trees
    = map Fin (map (fun t : tree =>
           b2q (Z.eqb (t r) (t x)) / inject_Z (Z.of_nat (occupancy t rows x))) trees)).
  { rewrite map_map. apply map_ext_in. intros t Ht. unfold fdiv, of_nat.
    rewrite Qeq_bool_nat_false; [reflexivity|].
    apply occupancy_pos. apply Hpop. exact Ht. }
  rewrite Hrow, fsum_Fin. unfold fdiv, of_nat, tree_share.
  rewrite Qeq_bool_nat_false; [reflexivity|].
  destruct trees; [congruence | simpl; lia].
Qed.

Lemma tree_share_nonneg (r : list Q) : 0 <= tree_share trees rows x r.
Proof.
  unfold tree_share, Qdiv. apply Qmult_le_0_compat.
  - apply Qsum_nonneg. apply List.Forall_forall. intros q Hq.
    apply in_map_iff in Hq as (t & <- & _).
    apply Qmult_le_0_compat.
    + destruct (Z.eqb (t r) (t x)); simpl; lra.
    + apply Qinv_le_0_compat, inject_nat_nonneg.
  - apply Qinv_le_0_compat, inject_nat_nonneg.
Qed.

(** The weights sum to one: every tree spreads a unit mass over the samples
    of the query's leaf. *)
Lemma tree_share_sum :
  trees <> [] ->
  leaves_populated trees rows ->
  Qsum (map (tree_share trees rows x) rows) == 1.
Proof.
  intros Hne Hpop. unfold tree_share, Qdiv.
  rewrite (Qsum_scale
             (fun r => Qsum (map (fun t : tree =>
                b2q (Z.eqb (t r) (t x)) * / inject_Z (Z.of_nat (occupancy t rows x)))
                trees))).
  rewrite (Qsum_swap
             (fun r (t : tree) =>
                b2q (Z.eqb (t r) (t x)) * / inject_Z (Z.of_nat (occupancy t rows x)))).
  rewrite (Qsum_ext _ (fun _ => 1)).
  - assert (Hone : forall l : list tree,
               Qsum (map (fun _ => 1) l) == inject_Z (Z.of_nat (length l))).
    { induction l as [|t l IH]; [reflexivity|].
      simpl Qsum. simpl length. rewrite IH, inject_nat_S. reflexivity. }
    rewrite Hone. apply Qmult_inv_r.
    assert (length trees <> O) by (destruct trees; [congruence | simpl; lia]).
    pose proof (inject_nat_pos _ H). lra.
  - intros t Ht.
    rewrite (Qsum_scale (fun r => b2q (Z.eqb (t r) (t x)))).
    rewrite (Qsum_b2q_count (fun r => Z.eqb (t r) (t x))).
    fold (occupancy t rows x). apply Qmult_inv_r.
    pose proof (inject_nat_pos _ (occupancy_pos t (Hpop t x Ht))). lra.
Qed.

End ForestWeight.

Lemma lookup_map {A B : Type} (f : A -> B) (l : list A) (k : nat) :
  map f l !! k = option_map f (l !! k).
Proof.
  revert k. induction l as [|a l IH]; intros [|k]; simpl; try reflexivity. apply IH.
Qed.

(** The leaves that the full-forest branch of [computeQuantile] compares on
    an object that [fit] has just left. *)
Lemma find_nodes_forest grow Xtrain y self0 self trees Xq n self' nd :
  fit grow Xtrain y self0 = (Ok tt, self) ->
  estimators_ self = Some trees ->
  find_nodes Xq n (-1) self = (Ok nd, self') ->
  exists qrows,
    nd = AllTrees (map (fun r => map (fun t : tree => t r) trees) (snd (atleast_2d Xtrain)))
                  (map (fun r => map (fun t : tree => t r) trees) qrows).
Proof.
  intros Hfit Htrees.
  destruct (fit_binds _ _ _ _ _ Hfit)
    as (n0 & d & trees' & leaves & _ & Hd & _ & Hnodes & Htrees' & _ & ->).
  rewrite Htrees in Htrees'. injection Htrees' as <-.
  unfold find_nodes. change (Z.ltb (-1) 0) with true. cbv iota.
  assert (Happly : forall X r s,
             rf_apply X self = (Ok r, s) ->
             s = self /\ r = map (fun r => map (fun t : tree => t r) trees)
                                 (snd (atleast_2d X))).
  { intros X r s. unfold rf_apply. rewrite Htrees.
    destruct (atleast_2d X) as [c qrows]. simpl.
    destruct (Nat.eqb (length qrows) 0); [discriminate|].
    destruct (Nat.eqb c (n_features_ self)); [|discriminate].
    intros [= <- <-]. split; reflexivity. }
  assert (Hleaves : get_leaves "_sample_nodes" self
                    = (Ok (map (fun r => map (fun t : tree => t r) trees)
                               (snd (atleast_2d Xtrain))), self)).
  { unfold get_leaves. rewrite bind_run, (getattr_bound _ _ _ Hnodes). reflexivity. }
  assert (Hdim : get_int "_input_dim" self = (Ok d, self)).
  { unfold get_int. rewrite bind_run, (getattr_bound _ _ _ Hd). reflexivity. }
  rewrite bind_run.
  assert (Hone : exists b : bool,
             (if Nat.eqb n 1
              then bind (get_int "_input_dim") (fun input_dim => ret (Nat.eqb input_dim 1))
              else ret false) self = (Ok b, self)).
  { destruct (Nat.eqb n 1).
    - rewrite bind_run, Hdim. eexists. reflexivity.
    - eexists. reflexivity. }
  destruct Hone as [b ->].
  rewrite bind_run.
  destruct b.
  - rewrite bind_run. unfold lift at 1.
    destruct (item0 Xq) as [x0|e]; [|discriminate].
    destruct (rf_apply x0 self) as [[r|e] s] eqn:Hr0; [|discriminate].
    apply Happly in Hr0 as [-> ->].
    rewrite bind_run, Hleaves. unfold ret. intros [= <- _].
    eexists. reflexivity.
  - destruct (rf_apply Xq self) as [[r|e] s] eqn:Hr0; [|discriminate].
    apply Happly in Hr0 as [-> ->].
    rewrite bind_run, Hleaves. unfold ret. intros [= <- _].
    eexists. reflexivity.
Qed.

(** C2: on a model that [fit] has produced from trees whose leaves all hold
    a training row, the weight vector that [computeQuantile] computes for a
    query point in full-forest mode ([iTree = -1]) is finite; the weight of a
    training row is the arithmetic mean over the trees of the indicator that
    the row shares the query's leaf divided by the occupancy of that leaf;
    all weights are non-negative and they sum to 1 (so also within 1e-9). *)
Theorem C2_forest_weights_normalized
    grow Xtrain y self0 self trees Xq n self' nd k w :
  fit grow Xtrain y self0 = (Ok tt, self) ->
  estimators_ self = Some trees ->
  trees <> [] ->
  leaves_populated trees (snd (atleast_2d Xtrain)) ->
  find_nodes Xq n (-1) self = (Ok nd, self') ->
  weight_of nd k = Ok w ->
  exists (x : list Q) (wq : list Q),
    w = map Fin wq /\
    wq = map (tree_share trees (snd (atleast_2d Xtrain)) x) (snd (atleast_2d Xtrain)) /\
    Forall (Qle 0) wq /\
    Qsum wq == 1 /\
    Qabs (Qsum wq - 1) <= 1 / 1000000000.
Proof.
  intros Hfit Htrees Hne Hpop Hfind Hw.
  destruct (find_nodes_forest _ _ _ _ _ _ _ _ _ _ Hfit Htrees Hfind) as [qrows ->].
  unfold weight_of in Hw. rewrite lookup_map in Hw.
  destruct (qrows !! k) as [x|]; [|discriminate]. simpl in Hw.
  injection Hw as <-.
  exists x, (map (tree_share trees (snd (atleast_2d Xtrain)) x) (snd (atleast_2d Xtrain))).
  split; [|split; [reflexivity|split; [|split]]].
  - apply forest_weight_tree_share; assumption.
  - apply List.Forall_forall. intros q Hq. apply in_map_iff in Hq as (r & <- & _).
    apply tree_share_nonneg.
  - apply tree_share_sum; assumption.
  - rewrite tree_share_sum by assumption.
    apply Qle_bool_iff. reflexivity.
Qed.

Lemma example_leaves_populated : leaves_populated [stump 2; stump 4] [[1]; [3]; [5]].
Proof.
  intros t x [<- | [<- | []]]; unfold stump.
  - destruct (Qleb (hd 0 x) 2).
    + exists [1]. split; [simpl; tauto | reflexivity].
    + exists [3]. split; [simpl; tauto | reflexivity].
  - destruct (Qleb (hd 0 x) 4).
    + exists [1]. split; [simpl; tauto | reflexivity].
    + exists [5]. split; [simpl; tauto | reflexivity].
Qed.

Lemma C2_forest_weights_normalized_witness :
  exists (x : list Q) (wq : list Q),
    forest_weight [[1; 1]; [2; 1]; [2; 2]]%Z [2; 1]%Z = map Fin wq /\
    wq = map (tree_share [stump 2; stump 4] [[1]; [3]; [5]] x) [[1]; [3]; [5]] /\
    Forall (Qle 0) wq /\
    Qsum wq == 1 /\
    Qabs (Qsum wq - 1) <= 1 / 1000000000.
Proof.
  apply (C2_forest_weights_normalized
           example_grow example_X example_y QuantileForest_new example_model
           [stump 2; stump 4] (Arr1 [3]) 1%nat example_model
           (AllTrees [[1; 1]; [2; 1]; [2; 2]]%Z [[2; 1]]%Z) 0%nat
           (forest_weight [[1; 1]; [2; 1]; [2; 2]]%Z [2; 1]%Z)).
  - exact example_model_fit.
  - reflexivity.
  - discriminate.
  - exact example_leaves_populated.
  - reflexivity.
  - reflexivity.
Defined.

(** ** The grid and the indicator matrix *)

Lemma insert_sorted_In (x y : Q) (l : list Q) :
  In y (insert_sorted x l) <-> y = x \/ In y l.
Proof.
  induction l as [|z l IH]; simpl.
  - intuition.
  - destruct (Qleb x z); simpl; [intuition|]. rewrite IH. intuition.
Qed.

Lemma insert_sorted_sorted (x : Q) (l : list Q) :
  StronglySorted Qle l -> StronglySorted Qle (insert_sorted x l).
Proof.
  induction 1 as [|z l Hs IH Hall]; simpl.
  - constructor; constructor.
  - destruct (Qleb x z) eqn:E.
    + apply Qleb_true in E. constructor; [constructor; assumption|].
      constructor; [exact E|].
      eapply List.Forall_impl; [|exact Hall]. intros a Ha. simpl in Ha. lra.
    + apply Qleb_false in E. constructor; [exact IH|].
      apply List.Forall_forall. intros a Ha. apply insert_sorted_In in Ha as [-> | Ha].
      * lra.
      * rewrite List.Forall_forall in Hall. apply Hall. exact Ha.
Qed.

Lemma insert_sorted_perm (x : Q) (l : list Q) : Permutation (x :: l) (insert_sorted x l).
Proof.
  induction l as [|z l IH]; simpl; [reflexivity|].
  destruct (Qleb x z); [reflexivity|].
  rewrite perm_swap. apply perm_skip. exact IH.
Qed.

(** With [n_points = 0] the grid is the training outputs in ascending
    order. *)
Lemma sort_values_sorted (l : list Q) : StronglySorted Qle (sort_values l).
Proof.
  induction l as [|x l IH]; simpl; [constructor|].
  apply insert_sorted_sorted. exact IH.
Qed.

Lemma sort_values_perm (l : list Q) : Permutation l (sort_values l).
Proof.
  induction l as [|x l IH]; simpl; [reflexivity|].
  rewrite <- insert_sorted_perm. apply perm_skip. exact IH.
Qed.

Lemma fold_min_le (x : Q) (l : list Q) : fold_right Qmin x l <= x.
Proof.
  induction l as [|y l IH]; simpl; [lra|].
  pose proof (Q.le_min_r y (fold_right Qmin x l)). lra.
Qed.

Lemma fold_max_ge (x : Q) (l : list Q) : x <= fold_right Qmax x l.
Proof.
  induction l as [|y l IH]; simpl; [lra|].
  pose proof (Q.le_max_r y (fold_right Qmax x l)). lra.
Qed.

Lemma sorted_snoc (l : list Q) (hi : Q) :
  StronglySorted Qle l -> Forall (fun a => a <= hi) l -> StronglySorted Qle (l ++ [hi]).
Proof.
  induction 1 as [|z l Hs IH Hall]; intros Hhi; simpl.
  - constructor; constructor.
  - inversion Hhi as [|? ? Hz Hl]; subst. constructor; [apply IH; exact Hl|].
    apply Forall_app. split; [exact Hall|]. constructor; [exact Hz | constructor].
Qed.

Lemma sorted_affine (lo step : Q) (len start : nat) :
  0 <= step ->
  StronglySorted Qle
    (map (fun i => inject_Z (Z.of_nat i) * step + lo) (seq start len)).
Proof.
  intros Hstep. revert start. induction len as [|len IH]; intros start; simpl.
  - constructor.
  - constructor; [apply IH|].
    apply List.Forall_forall. intros a Ha. apply in_map_iff in Ha as (i & <- & Hi).
    apply in_seq in Hi.
    assert (inject_Z (Z.of_nat start) <= inject_Z (Z.of_nat i))
      by (rewrite <- Zle_Qle; lia).
    nra.
Qed.

(** With [n_points > 0] the grid is [n_points] evenly spaced values from the
    smallest to the largest training output. *)
Lemma linspace_values (lo hi : Q) (num : nat) :
  exists gq,
    linspace (Fin lo) (Fin hi) num = map Fin gq /\
    length gq = num /\
    (lo <= hi -> StronglySorted Qle gq) /\
    (forall i g, (2 <= num)%nat -> gq !! i = Some g ->
                 g == lo + inject_Z (Z.of_nat i)
                           * ((hi - lo) / inject_Z (Z.of_nat (num - 1)))).
Proof.
  destruct num as [|[|d]].
  - exists []. repeat split; [constructor | intros; lia].
  - exists [inject_Z (Z.of_nat 0) * (hi - lo) + lo].
    repeat split; [repeat constructor | intros; lia].
  - set (div := S d).
    set (step := (hi - lo) / inject_Z (Z.of_nat div)).
    assert (Hdiv : 0 < inject_Z (Z.of_nat div)) by (apply inject_nat_pos; discriminate).
    exists (map (fun i => inject_Z (Z.of_nat i) * step + lo) (seq 0 div) ++ [hi]).
    split; [|split; [|split]].
    + unfold linspace. fold div. rewrite map_app, map_map. simpl fsub.
      unfold fdiv, of_nat. rewrite Qeq_bool_nat_false by discriminate.
      reflexivity.
    + rewrite length_app, length_map, length_seq. simpl. lia.
    + intros Hle.
      assert (Hstep : 0 <= step).
      { unfold step. apply Qle_shift_div_l; [exact Hdiv | lra]. }
      apply sorted_snoc; [apply sorted_affine; exact Hstep|].
      apply List.Forall_forall. intros a Ha. apply in_map_iff in Ha as (i & <- & Hi).
      apply in_seq in Hi.
      assert (inject_Z (Z.of_nat i) <= inject_Z (Z.of_nat div))
        by (rewrite <- Zle_Qle; lia).
      assert (Hds : inject_Z (Z.of_nat div) * step == hi - lo).
      { unfold step. field. lra. }
      nra.
    + intros i g _ Hg. replace (S div - 1)%nat with div by lia.
      fold step.
      destruct (Nat.lt_ge_cases i div) as [Hlt|Hge].
      * rewrite lookup_app_l in Hg by (rewrite length_map, length_seq; exact Hlt).
        rewrite lookup_map, lookup_seq_lt in Hg by exact Hlt.
        injection Hg as <-. change (0 + i)%nat with i. ring.
      * rewrite lookup_app_r in Hg by (rewrite length_map, length_seq; exact Hge).
        rewrite length_map, length_seq in Hg.
        destruct (i - div)%nat as [|j] eqn:Hj; [|destruct j; discriminate].
        injection Hg as <-. assert (i = div) as -> by lia.
        unfold step. field. lra.
Qed.

(** The grid of a non-empty training set holds finite values in ascending
    order. *)
Lemma build_grid_sorted (ys : list Q) (n_points : nat) :
  ys <> [] ->
  exists gq, build_grid ys n_points = map Fin gq /\ StronglySorted Qle gq.
Proof.
  intros Hne. unfold build_grid. destruct (Nat.eqb n_points 0).
  - exists (sort_values ys). split; [reflexivity | apply sort_values_sorted].
  - destruct ys as [|y ys]; [congruence|]. simpl series_min. simpl series_max.
    destruct (linspace_values (fold_right Qmin y ys) (fold_right Qmax y ys) n_points)
      as (gq & Heq & _ & Hs & _).
    exists gq. split; [exact Heq|]. apply Hs.
    pose proof (fold_min_le y ys). pose proof (fold_max_ge y ys). lra.
Qed.

Lemma zip_with_map_both {A B C D E : Type} (f : C -> D -> E) (g : A -> C) (h : B -> D)
    (l : list A) (k : list B) :
  zip_with f (map g l) (map h k) = zip_with (fun a b => f (g a) (h b)) l k.
Proof.
  revert k. induction l as [|a l IH]; intros [|b k]; simpl; try reflexivity.
  rewrite IH. reflexivity.
Qed.

Lemma zip_with_Fin {A B : Type} (f : A -> B -> Q) (l : list A) (k : list B) :
  zip_with (fun a b => Fin (f a b)) l k = map Fin (zip_with f l k).
Proof.
  revert k. induction l as [|a l IH]; intros [|b k]; simpl; try reflexivity.
  rewrite IH. reflexivity.
Qed.

(** The indicator matrix, row by row: the entry of grid value [g] and sample
    [i] tells whether [y_i <= g]. *)
Lemma build_infYY_rows (ys : list Q) (grid : list fnum) :
  build_infYY ys grid = map (fun g => map (fun y => fle (Fin y) g) ys) grid.
Proof.
  unfold build_infYY, outer_le. induction ys as [|y ys IH].
  - apply repeat_map_const.
  - cbn [map transpose]. rewrite IH. apply zip_with_map_map.
Qed.

(** The product of the indicator matrix with a finite weight vector is the
    weighted empirical distribution function on the grid. *)
Lemma cdf_of_weighted (ys wq gq : list Q) :
  cdf_of (build_infYY ys (map Fin gq)) (map Fin wq)
  = map (fun g => Fin (weighted_cdf ys wq g)) gq.
Proof.
  rewrite build_infYY_rows. unfold cdf_of. rewrite !map_map.
  apply map_ext. intros g. unfold dot_row, weighted_cdf.
  rewrite zip_with_map_both. simpl. rewrite zip_with_Fin, fsum_Fin. reflexivity.
Qed.

(** What [setPrecisionOfCDF] builds on an object on which the two attributes
    it reads are bound: the grid of [build_grid] (ascending training outputs
    for [n_points = 0], evenly spaced values otherwise) and its indicator
    matrix.  No method binds these two attributes (see [reachable_unbound]). *)
Lemma setPrecisionOfCDF_builds (ys : list Q) (n_points : nat) (self : obj) :
  attrs self !! "_outputSample" = Some (VSeries ys) ->
  attrs self !! "_numSample" = Some (VInt (length ys)) ->
  exists self',
    setPrecisionOfCDF n_points self = (Ok tt, self') /\
    attrs self' !! "_yCDF" = Some (VGrid (build_grid ys n_points)) /\
    attrs self' !! "_infYY"
    = Some (VMask (map (fun g => map (fun y => fle (Fin y) g) ys)
                       (build_grid ys n_points))).
Proof.
  intros Hout Hnum.
  unfold setPrecisionOfCDF, get_series, get_int, get_grid, bind, getattr, setattr,
    ret, raise, set_attrs.
  rewrite Hout. simpl.
  rewrite (lookup_insert_ne _ "_yCDF" "_outputSample") by discriminate.
  rewrite Hout. simpl.
  rewrite (lookup_insert_ne _ "_yCDF" "_numSample") by discriminate.
  rewrite Hnum, Nat.eqb_refl. simpl.
  rewrite lookup_insert_eq.
  eexists. split; [reflexivity|]. simpl. split.
  - rewrite lookup_insert_ne by discriminate. apply lookup_insert_eq.
  - rewrite lookup_insert_eq, build_infYY_rows. reflexivity.
Qed.

Lemma fold_max_ge_all (y : Q) (ys : list Q) (z : Q) :
  In z (y :: ys) -> z <= fold_right Qmax y ys.
Proof.
  induction ys as [|x ys IH]; simpl.
  - intros [-> | []]. lra.
  - pose proof (Q.le_max_l x (fold_right Qmax y ys)).
    pose proof (Q.le_max_r x (fold_right Qmax y ys)).
    intros [-> | [-> | Hz]].
    + specialize (IH (or_introl eq_refl)). lra.
    + lra.
    + specialize (IH (or_intror Hz)). lra.
Qed.

Lemma weighted_cdf_total (ys wq : list Q) (g : Q) :
  length wq = length ys ->
  (forall y, In y ys -> y <= g) ->
  weighted_cdf ys wq g == Qsum wq.
Proof.
  unfold weighted_cdf. revert wq.
  induction ys as [|y ys IH]; intros [|w wq] Hlen Hle; simpl in *;
    try discriminate; [reflexivity|].
  rewrite IH by (try lia; intros z Hz; apply Hle; right; exact Hz).
  assert (Hy : Qleb y g = true) by (apply Qleb_true, Hle; left; reflexivity).
  rewrite Hy. simpl. lra.
Qed.

(** With weights that sum to one, some grid value reaches every level up to
    one, unless the grid is the single point [n_points = 1]. *)
Lemma grid_reaches_level (ys wq : list Q) (n_points : nat) (a : Q) :
  ys <> [] ->
  length wq = length ys ->
  Qsum wq == 1 ->
  a <= 1 ->
  n_points <> 1%nat ->
  exists g, In (Fin g) (build_grid ys n_points) /\ a <= weighted_cdf ys wq g.
Proof.
  intros Hne Hlen Hsum Ha Hn. destruct ys as [|y ys]; [congruence|].
  assert (Hreach : a <= weighted_cdf (y :: ys) wq (fold_right Qmax y ys)).
  { rewrite weighted_cdf_total; [lra | exact Hlen |].
    intros z Hz. apply fold_max_ge_all. exact Hz. }
  unfold build_grid. destruct n_points as [|[|d]]; [| congruence |]; simpl Nat.eqb;
    cbv iota.
  - (* the largest output is among the sorted outputs *)
    assert (Hin : exists g, In g (y :: ys) /\ a <= weighted_cdf (y :: ys) wq g).
    { clear Hreach. 
      assert (Hall : forall z, In z (y :: ys) -> z <= fold_right Qmax y ys)
        by (intros z; apply fold_max_ge_all).
      assert (Hmax : exists g, In g (y :: ys) /\ forall z, In z (y :: ys) -> z <= g).
      { clear Hlen Hall Hne. induction ys as [|x ys IH].
        - exists y. split; [left; reflexivity|]. intros z [-> | []]. lra.
        - destruct IH as (g & Hg & Hle).
          destruct (Qlt_le_dec g x).
          + exists x. split; [right; left; reflexivity|].
            intros z [-> | [-> | Hz]].
            * specialize (Hle z (or_introl eq_refl)). lra.
            * lra.
            * specialize (Hle z (or_intror Hz)). lra.
          + exists g. split.
            * destruct Hg as [-> | Hg]; [left; reflexivity | right; right; exact Hg].
            * intros z [-> | [-> | Hz]].
              -- apply Hle. left. reflexivity.
              -- exact q.
              -- apply Hle. right. exact Hz. }
      destruct Hmax as (g & Hg & Hle). exists g. split; [exact Hg|].
      rewrite weighted_cdf_total; [lra | exact Hlen | exact Hle]. }
    destruct Hin as (g & Hg & Hr). exists g. split; [|exact Hr].
    apply in_map. apply (Permutation_in _ (sort_values_perm (y :: ys))). exact Hg.
  - exists (fold_right Qmax y ys). split; [|exact Hreach].
    unfold linspace. simpl series_max. apply in_or_app. right. left. reflexivity.
Qed.

(** ** Quantile by inversion *)

Lemma fge_Fin (c a : Q) : fge (Fin c) (Fin a) = Qleb a c.
Proof. reflexivity. Qed.

(** On an ascending grid the first value whose cumulated weight reaches
    [alpha] is the smallest such value. *)
Lemma first_reaching_smallest (c : Q -> Q) (gq : list Q) (alpha : Q) :
  StronglySorted Qle gq ->
  (exists g, In g gq /\ alpha <= c g) ->
  exists v,
    first_reaching (map Fin gq) (map (fun g => Fin (c g)) gq) alpha = Ok (Fin v) /\
    In v gq /\ alpha <= c v /\
    forall g, In g gq -> alpha <= c g -> v <= g.
Proof.
  unfold first_reaching.
  induction 1 as [|a gq Hs IH Hall]; intros (g & Hg & Hreach).
  - destruct Hg.
  - cbn [map mask_select]. rewrite fge_Fin.
    destruct (Qleb alpha (c a)) eqn:E.
    + apply Qleb_true in E. exists a. split; [reflexivity|].
      split; [left; reflexivity|]. split; [exact E|].
      intros g' [<- | Hg'] _; [lra|].
      rewrite List.Forall_forall in Hall. apply Hall. exact Hg'.
    + apply Qleb_false in E.
      destruct Hg as [-> | Hg]; [lra|].
      destruct (IH (ex_intro _ g (conj Hg Hreach))) as (v & Hv & Hin & Hcv & Hmin).
      exists v. split; [exact Hv|]. split; [right; exact Hin|]. split; [exact Hcv|].
      intros g' [<- | Hg'] Hr; [lra|]. apply Hmin; assumption.
Qed.

(** *** The inversion branch of [computeQuantile] *)

Lemma first_reaching_exn (yCDF CDF : list fnum) (a : Q) (e : exn) :
  first_reaching yCDF CDF a = Raise e ->
  e = IndexError "index 0 is out of bounds for axis 0 with size 0".
Proof.
  unfold first_reaching.
  destruct (mask_select (map (fun c => fge c (Fin a)) CDF) yCDF); [|discriminate].
  intros [= <-]. reflexivity.
Qed.

Lemma first_reaching_none (c : Q -> Q) (gq : list Q) (a : Q) :
  (forall g, In g gq -> c g < a) ->
  first_reaching (map Fin gq) (map (fun g => Fin (c g)) gq) a
  = Raise (IndexError "index 0 is out of bounds for axis 0 with size 0").
Proof.
  unfold first_reaching. induction gq as [|g gq IH]; intros H; [reflexivity|].
  cbn [map mask_select]. rewrite fge_Fin.
  assert (E : Qleb a (c g) = false) by (apply Qleb_false, H; left; reflexivity).
  rewrite E. apply IH. intros g' Hg'. apply H. right. exact Hg'.
Qed.

(** A level that no grid value reaches makes the whole comprehension
    raise. *)
Lemma inversion_not_reached (c : Q -> Q) (gq : list Q) (al : list Q) :
  (exists a, In a al /\ forall g, In g gq -> c g < a) ->
  map_result (first_reaching (map Fin gq) (map (fun g => Fin (c g)) gq)) al
  = Raise (IndexError "index 0 is out of bounds for axis 0 with size 0").
Proof.
  induction al as [|a0 al IH]; intros (a & Ha & Hno); [destruct Ha|].
  cbn [map_result].
  destruct (first_reaching (map Fin gq) (map (fun g => Fin (c g)) gq) a0) as [y|e] eqn:E.
  - destruct Ha as [-> | Ha].
    + rewrite (first_reaching_none c gq a Hno) in E. discriminate.
    + rewrite IH by (exists a; split; assumption). reflexivity.
  - apply first_reaching_exn in E. subst e. reflexivity.
Qed.

(** Every level is reached: the smallest reaching grid value for each. *)
Lemma inversion_reached (ys wq gq : list Q) (al : list Q) :
  StronglySorted Qle gq ->
  (forall a, In a al -> exists g, In g gq /\ a <= weighted_cdf ys wq g) ->
  exists vs,
    map_result (first_reaching (map Fin gq)
                  (map (fun g => Fin (weighted_cdf ys wq g)) gq)) al
    = Ok (map Fin vs) /\
    Forall2 (smallest_reaching ys wq gq) al vs.
Proof.
  intros Hsorted. induction al as [|a al IH]; intros Halpha.
  - exists []. split; [reflexivity | constructor].
  - destruct (first_reaching_smallest (weighted_cdf ys wq) gq a Hsorted
                (Halpha a (or_introl eq_refl)))
      as (v & Hv & Hvin & Hcv & Hmin).
    destruct IH as (vs & Hvs & Hf2).
    { intros a' Ha'. apply Halpha. right. exact Ha'. }
    exists (v :: vs). split.
    + cbn [map_result]. rewrite Hv, Hvs. reflexivity.
    + constructor; [|exact Hf2]. repeat split; assumption.
Qed.

(** What [setPrecisionOfCDF] leaves in the object. *)
Lemma setPrecisionOfCDF_run (ys : list Q) (n_points : nat) (self : obj) :
  attrs self !! "_outputSample" = Some (VSeries ys) ->
  attrs self !! "_numSample" = Some (VInt (length ys)) ->
  setPrecisionOfCDF n_points self
  = (Ok tt,
     set_attrs (fun m => <["_infYY" := VMask (build_infYY ys (build_grid ys n_points))]>
                           (<["_yCDF" := VGrid (build_grid ys n_points)]> m)) self).
Proof.
  intros Hout Hnum.
  unfold setPrecisionOfCDF, get_series, get_int, get_grid, bind, getattr, setattr,
    ret, raise, set_attrs.
  rewrite Hout. simpl.
  rewrite (lookup_insert_ne _ "_yCDF" "_outputSample") by discriminate.
  rewrite Hout. simpl.
  rewrite (lookup_insert_ne _ "_yCDF" "_numSample") by discriminate.
  rewrite Hnum, Nat.eqb_refl. simpl.
  rewrite lookup_insert_eq. reflexivity.
Qed.

Section InversionBranch.

Variable np_percentile : list Q -> list Q -> result (list Q).
Variable fmin_cobyla : (Q -> result Q) -> Q -> (Q -> result fnum) -> result Q.
Variable fmin_slsqp : (Q -> result Q) -> Q -> (Q -> result fnum) -> Q -> result Q.

Local Abbreviation quantile_row' := (quantile_row np_percentile fmin_cobyla fmin_slsqp).

(** Lines 202-206 on an object that has the grid and the indicator matrix:
    the row of the quantiles is the comprehension over the levels. *)
Lemma quantile_row_inversion (o : options) (al : list Q) (w : list fnum)
    (k : nat) (row : list fnum) (self : obj)
    (yCDF : list fnum) (infYY : list (list bool)) :
  do_optim o = false ->
  attrs self !! "_infYY" = Some (VMask infYY) ->
  attrs self !! "_yCDF" = Some (VGrid yCDF) ->
  (doSaveCDF o = true -> exists cdf, attrs self !! "_CDF" = Some (VArray cdf)) ->
  fst (quantile_row' o (AList al) w k row self)
  = map_result (first_reaching yCDF (cdf_of infYY w)) al.
Proof.
  intros Ho Hinf Hgrid Hcdf. unfold quantile_row, get_mask, get_grid, get_array.
  rewrite Ho.
  rewrite !bind_run, (getattr_bound _ _ _ Hinf). unfold ret at 1. cbv beta iota.
  rewrite bind_run. unfold lift at 1. cbn [alpha_iter]. cbv beta iota.
  rewrite !bind_run, (getattr_bound _ _ _ Hgrid). unfold ret at 1. cbv beta iota.
  rewrite bind_run. unfold lift at 1.
  destruct (map_result (first_reaching yCDF (cdf_of infYY w)) al) as [qs|e];
    [|reflexivity].
  cbv beta iota. rewrite bind_run.
  destruct (doSaveCDF o) eqn:Hs.
  - destruct (Hcdf eq_refl) as [cdf Hc].
    rewrite !bind_run, (getattr_bound _ _ _ Hc). reflexivity.
  - reflexivity.
Qed.

(** [setPrecisionOfCDF] followed by the inversion branch, as lines 136 and
    202-206 run them: the grid is ascending, and the row of quantiles is the
    comprehension over the levels on the weighted distribution function. *)
Lemma inversion_branch_run (ys : list Q) (n_points : nat) (o : options) (self : obj) :
  ys <> [] ->
  do_optim o = false ->
  attrs self !! "_outputSample" = Some (VSeries ys) ->
  attrs self !! "_numSample" = Some (VInt (length ys)) ->
  (doSaveCDF o = true -> exists cdf, attrs self !! "_CDF" = Some (VArray cdf)) ->
  exists self1 gq,
    setPrecisionOfCDF n_points self = (Ok tt, self1) /\
    build_grid ys n_points = map Fin gq /\
    StronglySorted Qle gq /\
    attrs self1 !! "_yCDF" = Some (VGrid (map Fin gq)) /\
    attrs self1 !! "_infYY"
    = Some (VMask (map (fun g => map (fun y => Qleb y g) ys) gq)) /\
    forall al wq k row,
      fst (quantile_row' o (AList al) (map Fin wq) k row self1)
      = map_result (first_reaching (map Fin gq)
                      (map (fun g => Fin (weighted_cdf ys wq g)) gq)) al.
Proof.
  intros Hne Ho Hout Hnum Hcdf.
  destruct (build_grid_sorted ys n_points Hne) as (gq & Hgrid & Hsorted).
  set (self1 := set_attrs
                  (fun m => <["_infYY" := VMask (build_infYY ys (build_grid ys n_points))]>
                              (<["_yCDF" := VGrid (build_grid ys n_points)]> m)) self).
  assert (Hy : attrs self1 !! "_yCDF" = Some (VGrid (map Fin gq))).
  { unfold self1. simpl. rewrite lookup_insert_ne by discriminate.
    rewrite lookup_insert_eq, Hgrid. reflexivity. }
  assert (Hi : attrs self1 !! "_infYY"
               = Some (VMask (build_infYY ys (map Fin gq)))).
  { unfold self1. simpl. rewrite lookup_insert_eq, Hgrid. reflexivity. }
  assert (Hc : doSaveCDF o = true ->
               exists cdf, attrs self1 !! "_CDF" = Some (VArray cdf)).
  { intros Hs. destruct (Hcdf Hs) as [cdf Hc]. exists cdf.
    unfold self1. simpl. rewrite !lookup_insert_ne by discriminate. exact Hc. }
  exists self1, gq.
  split; [apply setPrecisionOfCDF_run; assumption|].
  split; [exact Hgrid|]. split; [exact Hsorted|]. split; [exact Hy|].
  split; [rewrite Hi, build_infYY_rows, map_map; reflexivity|].
  intros al wq k row.
  rewrite (quantile_row_inversion o al (map Fin wq) k row self1 _ _ Ho Hi Hy Hc).
  rewrite cdf_of_weighted. reflexivity.
Qed.

(** C4: the inversion strategy on the grid and the indicator matrix that
    [setPrecisionOfCDF] builds from non-empty training outputs.  For every
    finite weight vector (one weight per training sample) the weighted
    distribution function that line 202 computes is the product of the
    indicator matrix with the weight vector, [sum_i 1{y_i <= g} * w_i] at
    every grid value [g].  When some grid value reaches each level, the
    branch returns for each level the smallest grid value whose cumulated
    weight is at least that level; when some level is reached by no grid
    value, it raises [IndexError]. *)
Theorem C4_inversion_smallest_grid_value
    (ys wq : list Q) (n_points : nat) (alphas : list Q)
    (o : options) (k : nat) (row : list fnum) (self : obj) :
  ys <> [] ->
  length wq = length ys ->
  do_optim o = false ->
  attrs self !! "_outputSample" = Some (VSeries ys) ->
  attrs self !! "_numSample" = Some (VInt (length ys)) ->
  (doSaveCDF o = true -> exists cdf, attrs self !! "_CDF" = Some (VArray cdf)) ->
  exists self1 gq infYY,
    setPrecisionOfCDF n_points self = (Ok tt, self1) /\
    build_grid ys n_points = map Fin gq /\
    attrs self1 !! "_yCDF" = Some (VGrid (map Fin gq)) /\
    attrs self1 !! "_infYY" = Some (VMask infYY) /\
    infYY = map (fun g => map (fun y => Qleb y g) ys) gq /\
    cdf_of infYY (map Fin wq) = map (fun g => Fin (weighted_cdf ys wq g)) gq /\
    ((forall a, In a alphas -> exists g, In g gq /\ a <= weighted_cdf ys wq g) ->
     exists vs,
       fst (quantile_row' o (AList alphas) (map Fin wq) k row self1) = Ok (map Fin vs) /\
       Forall2 (smallest_reaching ys wq gq) alphas vs) /\
    ((exists a, In a alphas /\ forall g, In g gq -> weighted_cdf ys wq g < a) ->
     fst (quantile_row' o (AList alphas) (map Fin wq) k row self1)
     = Raise (IndexError "index 0 is out of bounds for axis 0 with size 0")).
Proof.
  intros Hne _ Ho Hout Hnum Hcdf.
  destruct (inversion_branch_run ys n_points o self Hne Ho Hout Hnum Hcdf)
    as (self1 & gq & Hrun & Hgrid & Hsorted & Hy & Hi & Hrow).
  exists self1, gq, (map (fun g => map (fun y => Qleb y g) ys) gq).
  split; [exact Hrun|]. split; [exact Hgrid|]. split; [exact Hy|].
  split; [exact Hi|]. split; [reflexivity|].
  split.
  { rewrite <- (cdf_of_weighted ys wq gq), build_infYY_rows, map_map. reflexivity. }
  rewrite Hrow. split.
  - intros Hreach. apply inversion_reached; assumption.
  - intros Hno. apply (inversion_not_reached (weighted_cdf ys wq)). exact Hno.
Qed.

End InversionBranch.

Lemma C4_inversion_smallest_grid_value_witness :
  exists self1 vs,
    setPrecisionOfCDF 0 oob_view = (Ok tt, self1) /\
    attrs self1 !! "_yCDF" = Some (VGrid (map Fin [10; 30])) /\
    fst (quantile_row example_percentile example_cobyla example_slsqp
           (Options false false 0 "Cobyla") (AList [1 # 5; 9 # 10])
           (map Fin [1 # 4; 3 # 4]) 0 [Fin 0; Fin 0] self1)
    = Ok (map Fin vs) /\
    Forall2 (smallest_reaching [10; 30] [1 # 4; 3 # 4] [10; 30]) [1 # 5; 9 # 10] vs.
Proof.
  destruct (C4_inversion_smallest_grid_value
              example_percentile example_cobyla example_slsqp
              [10; 30] [1 # 4; 3 # 4] 0 [1 # 5; 9 # 10]
              (Options false false 0 "Cobyla") 0 [Fin 0; Fin 0] oob_view)
    as (self1 & gq & infYY & Hrun & Hgrid & Hy & _ & _ & _ & Hreach & _).
  - discriminate.
  - reflexivity.
  - reflexivity.
  - reflexivity.
  - reflexivity.
  - discriminate.
  - assert (gq = [10; 30]) as ->.
    { destruct gq as [|g1 [|g2 [|g3 gq]]]; try discriminate.
      injection Hgrid as <- <-. reflexivity. }
    destruct Hreach as (vs & Hvs & Hsm).
    + intros a [<- | [<- | []]].
      * exists 10. split; [left; reflexivity|]. vm_compute. discriminate.
      * exists 30. split; [right; left; reflexivity|]. vm_compute. discriminate.
    + exists self1, vs. repeat split; assumption.
Defined.

(** C4, as stated, fails where no grid value reaches the level: with the
    outputs [10; 30], a grid of one point (the grid is [10]), the two
    samples in the leaf of the query (weights [1/2; 1/2]) and the level
    [3/4], the distribution function is [1/2] on the whole grid, and
    [computeQuantile] with [do_optim=False] returns no grid value: it
    raises [IndexError]. *)
Lemma C4_level_not_reached_raises :
  build_grid [10; 30] 1 = [Fin 10] /\
  tree_weight [1%Z; 1%Z] 1 = [Fin (1 # 2); Fin (1 # 2)] /\
  weighted_cdf [10; 30] [1 # 2; 1 # 2] 10 < 3 # 4 /\
  fst (computeQuantile example_percentile example_cobyla example_slsqp
         (QArray (Arr2 1 [[1]]) (AList [3 # 4])) (Options false false 0 "Cobyla")
         coarse_view)
  = Raise (IndexError "index 0 is out of bounds for axis 0 with size 0").
Proof.
  split; [vm_compute; reflexivity|]. split; [vm_compute; reflexivity|].
  split; [reflexivity|]. vm_compute. reflexivity.
Qed.

(** ** Monotonicity in the probability level *)



Lemma mask_select_map {A B : Type} (f : A -> B) (mask : list bool) (v : list A) :
  mask_select mask (map f v) = map f (mask_select mask v).
Proof.
  revert v. induction mask as [|b mask IH]; intros [|x v]; simpl; try reflexivity.
  destruct b; simpl; rewrite IH; reflexivity.
Qed.




(** The constraint on a finite weight vector. *)
Lemma ieqFunc_value_Fin (ys wq : list Q) (q alpha : Q) :
  ieqFunc_value ys q (map Fin wq) alpha
  = Fin (Qsum (mask_select (map (fun y => Qleb y q) ys) wq) - alpha).
Proof.
  unfold ieqFunc_value. rewrite mask_select_map, fsum_Fin. reflexivity.
Qed.

Lemma feasible_Fin (ys wq : list Q) (q alpha : Q) :
  feasible ys (map Fin wq) alpha q
  <-> alpha <= Qsum (mask_select (map (fun y => Qleb y q) ys) wq).
Proof.
  unfold feasible. rewrite ieqFunc_value_Fin, fge_Fin, Qleb_true. split; lra.
Qed.

Lemma cumulated_weight_mono (ys wq : list Q) (q q' : Q) :
  Forall (Qle 0) wq ->
  q <= q' ->
  Qsum (mask_select (map (fun y => Qleb y q) ys) wq)
  <= Qsum (mask_select (map (fun y => Qleb y q') ys) wq).
Proof.
  intros Hw Hq. revert ys. induction Hw as [|w wq Hw0 Hw IH]; intros [|y ys]; simpl;
    try lra.
  specialize (IH ys).
  destruct (Qleb y q) eqn:E; destruct (Qleb y q') eqn:E'; simpl; try lra.
  apply Qleb_true in E. apply Qleb_false in E'. lra.
Qed.






(** ** The objective and the quantile *)

(** C1 at a query of the example model: the forest gives the training
    outputs [10; 30; 50] the weights [2/8; 4/8; 2/8] at [x = 3].  At level
    [7/10] the weighted pinball loss of the claim is smallest at 30, which
    is the weighted 7/10-quantile and what the inversion strategy selects
    on the grid of the outputs, while the problem that the code hands to the
    optimizer, the unweighted objective [_optFunc] under the constraint
    [_ieqFunc >= 0], has 50 as its only solution. *)
Lemma C1_unweighted_objective_misses_quantile :
  forest_weight (map (fun r => map (fun t : tree => t r) [stump 2; stump 4])
                     [[1]; [3]; [5]])
                (map (fun t : tree => t [3]) [stump 2; stump 4])
  = map Fin [2 # 8; 4 # 8; 2 # 8] /\
  (forall q, constrained_minimizer [10; 30; 50] (map Fin [2 # 8; 4 # 8; 2 # 8])
                                   (7 # 10) q <-> q == 50) /\
  (forall q, weighted_pinball [10; 30; 50] [2 # 8; 4 # 8; 2 # 8] 30 (7 # 10)
             <= weighted_pinball [10; 30; 50] [2 # 8; 4 # 8; 2 # 8] q (7 # 10)) /\
  smallest_reaching [10; 30; 50] [2 # 8; 4 # 8; 2 # 8] [10; 30; 50] (7 # 10) 30 /\
  ~ optFunc_value [10; 30; 50] 30 (map Fin [2 # 8; 4 # 8; 2 # 8]) (7 # 10)
    == weighted_pinball [10; 30; 50] [2 # 8; 4 # 8; 2 # 8] 30 (7 # 10).
Proof.
  split; [reflexivity|].
  assert (Hf : forall q, feasible [10; 30; 50] (map Fin [2 # 8; 4 # 8; 2 # 8]) (7 # 10) q
                         <-> 30 <= q).
  { intros q. rewrite feasible_Fin. cbn [map mask_select].
    destruct (Qleb 10 q) eqn:E1, (Qleb 30 q) eqn:E2, (Qleb 50 q) eqn:E3;
      rewrite ?Qleb_true, ?Qleb_false in *; cbn [Qsum fold_right]; split; intros; lra. }
  assert (Hv : forall q,
             optFunc_value [10; 30; 50] q (map Fin [2 # 8; 4 # 8; 2 # 8]) (7 # 10)
             == check_function 10 q (7 # 10) + check_function 30 q (7 # 10)
                + check_function 50 q (7 # 10)).
  { intros q. unfold optFunc_value.
    change (mask_select (map fne0 (map Fin [2 # 8; 4 # 8; 2 # 8])) [10; 30; 50])
      with [10; 30; 50].
    cbn [map Qsum fold_right]. ring. }
  split; [|split; [|split]].
  - intros q. unfold constrained_minimizer. split.
    + intros [Hq Hmin]. apply Hf in Hq.
      pose proof (Hmin 50 (proj2 (Hf 50) ltac:(lra))) as H50.
      rewrite !Hv in H50. unfold check_function in H50.
      destruct (Qltb (10 - q) 0) eqn:E1, (Qltb (30 - q) 0) eqn:E2,
               (Qltb (50 - q) 0) eqn:E3;
        rewrite ?Qltb_true, ?Qltb_false in *;
        change (Qltb (10 - 50) 0) with true in H50;
        change (Qltb (30 - 50) 0) with true in H50;
        change (Qltb (50 - 50) 0) with false in H50;
        unfold b2q in H50; lra.
    + intros Hq. split; [apply Hf; lra|].
      intros q' Hq'. apply Hf in Hq'. rewrite !Hv. unfold check_function.
      destruct (Qltb (10 - q) 0) eqn:E1, (Qltb (30 - q) 0) eqn:E2,
               (Qltb (50 - q) 0) eqn:E3,
               (Qltb (10 - q') 0) eqn:F1, (Qltb (30 - q') 0) eqn:F2,
               (Qltb (50 - q') 0) eqn:F3;
        rewrite ?Qltb_true, ?Qltb_false in *; unfold b2q; lra.
  - intros q. unfold weighted_pinball. cbn [zip_with Qsum fold_right].
    change (Qltb (10 - 30) 0) with true.
    change (Qltb (30 - 30) 0) with false.
    change (Qltb (50 - 30) 0) with false.
    destruct (Qltb (10 - q) 0) eqn:E1, (Qltb (30 - q) 0) eqn:E2,
             (Qltb (50 - q) 0) eqn:E3;
      rewrite ?Qltb_true, ?Qltb_false in *; unfold b2q; lra.
  - unfold smallest_reaching. split; [simpl; tauto|]. split.
    + apply Qle_bool_iff. reflexivity.
    + intros g [<- | [<- | [<- | []]]] Hg.
      * exfalso. apply Qle_bool_iff in Hg. discriminate.
      * lra.
      * lra.
  - intros H. apply Qeq_bool_iff in H. discriminate.
Qed.

(** ** The shape of the result *)

Lemma bind_Ok_inv {A B : Type} (m : M A) (k : A -> M B) self b self' :
  bind m k self = (Ok b, self') ->
  exists a self1, m self = (Ok a, self1) /\ k a self1 = (Ok b, self').
Proof.
  unfold bind. destruct (m self) as [[a|e] self1]; [|discriminate].
  intros H. exists a, self1. split; [reflexivity | exact H].
Qed.

Lemma lift_Ok_inv {A : Type} (r : result A) self a self' :
  lift r self = (Ok a, self') -> r = Ok a /\ self' = self.
Proof. unfold lift. intros [= -> ->]. split; reflexivity. Qed.

Lemma map_result_length {A B : Type} (f : A -> result B) (l : list A) (l' : list B) :
  map_result f l = Ok l' -> length l' = length l.
Proof.
  revert l'. induction l as [|a l IH]; intros l'; simpl.
  - intros [= <-]. reflexivity.
  - destruct (f a); [|discriminate].
    destruct (map_result f l) as [ys|]; [|discriminate].
    intros [= <-]. simpl. rewrite (IH ys eq_refl). reflexivity.
Qed.

Section Shape.

Variable np_percentile : list Q -> list Q -> result (list Q).
Variable fmin_cobyla : (Q -> result Q) -> Q -> (Q -> result fnum) -> result Q.
Variable fmin_slsqp : (Q -> result Q) -> Q -> (Q -> result fnum) -> Q -> result Q.

Lemma optimize_loop_length o w y0 al : forall i row self row' self',
  optimize_loop fmin_cobyla fmin_slsqp o w y0 i al row self = (Ok row', self') ->
  length row' = length row.
Proof.
  induction al as [|a al IH]; intros i row self row' self'; simpl.
  - intros [= <- _]. reflexivity.
  - intros H. apply bind_Ok_inv in H as (q & self1 & _ & H).
    apply IH in H. rewrite H. apply length_insert.
Qed.

Lemma quantile_row_length o alpha w k row self row' self' :
  quantile_row np_percentile fmin_cobyla fmin_slsqp o alpha w k row self
  = (Ok row', self') ->
  length row = alpha_size alpha ->
  length row' = alpha_size alpha.
Proof.
  unfold quantile_row. intros H Hlen. destruct (do_optim o).
  - apply bind_Ok_inv in H as (ys & s1 & _ & H).
    apply bind_Ok_inv in H as (y0 & s2 & _ & H).
    apply bind_Ok_inv in H as (al & s3 & _ & H).
    apply optimize_loop_length in H. congruence.
  - apply bind_Ok_inv in H as (infYY & s1 & _ & H).
    apply bind_Ok_inv in H as (al & s2 & Hal & H).
    apply lift_Ok_inv in Hal as [Hal _].
    apply bind_Ok_inv in H as (yCDF & s3 & _ & H).
    apply bind_Ok_inv in H as (qs & s4 & Hqs & H).
    apply lift_Ok_inv in Hqs as [Hqs _].
    apply bind_Ok_inv in H as (u & s5 & _ & H).
    injection H as <- _.
    apply map_result_length in Hqs. rewrite Hqs.
    destruct alpha as [a|v]; simpl in Hal; [discriminate|].
    injection Hal as <-. reflexivity.
Qed.

(** The loop keeps the [n x m] shape of the matrix of quantiles. *)
Lemma quantile_loop_shape o alpha nd ks : forall quantiles self quantiles' self',
  quantile_loop np_percentile fmin_cobyla fmin_slsqp o alpha nd ks quantiles self
  = (Ok quantiles', self') ->
  Forall (fun row => length row = alpha_size alpha) quantiles ->
  length quantiles' = length quantiles /\
  Forall (fun row => length row = alpha_size alpha) quantiles'.
Proof.
  induction ks as [|k ks IH]; intros quantiles self quantiles' self'; simpl.
  - intros [= <- _] Hall. split; [reflexivity | exact Hall].
  - intros H Hall.
    apply bind_Ok_inv in H as (weight & s1 & _ & H).
    apply bind_Ok_inv in H as (row & s2 & Hrow & H).
    apply IH in H as [Hlen Hall'].
    + rewrite length_insert in Hlen. split; assumption.
    + destruct (Nat.lt_ge_cases k (length quantiles)) as [Hk|Hk].
      * apply Forall_insert; [exact Hall|].
        apply (quantile_row_length _ _ _ _ _ _ _ _ Hrow).
        rewrite Forall_forall in Hall. apply Hall.
        apply list_elem_of_In. apply nth_In. exact Hk.
      * rewrite list_insert_ge by exact Hk. exact Hall.
Qed.

Lemma concat_length_uniform {A : Type} (rows : list (list A)) (m : nat) :
  Forall (fun row => length row = m) rows ->
  length (concat rows) = (length rows * m)%nat.
Proof.
  induction 1 as [|row rows Hrow _ IH]; simpl; [reflexivity|].
  rewrite length_app, IH, Hrow. reflexivity.
Qed.

(** C5: a call of [computeQuantile] that returns, for [n >= 1] query points
    (as counted by [_check_input]) and [m >= 1] probability levels, returns a
    scalar iff [n = 1] and [m = 1], a sequence of length [max(n, m)] iff
    exactly one of [n], [m] is 1, and an [n x m] matrix otherwise. *)
Theorem C5_result_shape (q : query) (o : options) (self : obj)
    (X' : ndarray) (n : nat) (r : pyfloats) (self' : obj) :
  fst (_check_input (fst (as_arrays q)) self) = Ok (X', n) ->
  computeQuantile np_percentile fmin_cobyla fmin_slsqp q o self = (Ok r, self') ->
  (1 <= n)%nat ->
  (1 <= alpha_size (snd (as_arrays q)))%nat ->
  (is_scalar r <-> n = 1%nat /\ alpha_size (snd (as_arrays q)) = 1%nat) /\
  (is_vector (Nat.max n (alpha_size (snd (as_arrays q)))) r <->
     (n = 1%nat /\ alpha_size (snd (as_arrays q)) <> 1%nat) \/
     (n <> 1%nat /\ alpha_size (snd (as_arrays q)) = 1%nat)) /\
  (is_matrix n (alpha_size (snd (as_arrays q))) r <->
     n <> 1%nat /\ alpha_size (snd (as_arrays q)) <> 1%nat).
Proof.
  intros Hci H Hn Hm. unfold computeQuantile in H.
  destruct (as_arrays q) as [X alpha]. simpl in *.
  set (m := alpha_size alpha) in *.
  apply bind_Ok_inv in H as ([X1 n1] & s1 & Hci' & H).
  rewrite Hci' in Hci. simpl in Hci. injection Hci as -> ->.
  apply bind_Ok_inv in H as (u1 & s2 & _ & H).
  apply bind_Ok_inv in H as (u2 & s3 & _ & H).
  apply bind_Ok_inv in H as (nd & s4 & _ & H).
  apply bind_Ok_inv in H as (quantiles & s5 & Hloop & H).
  apply lift_Ok_inv in H as [Hpack _].
  apply quantile_loop_shape in Hloop as [Hlen Hall].
  2:{ apply Forall_forall. intros row Hrow. apply list_elem_of_In in Hrow.
      apply repeat_spec in Hrow. subst row. apply repeat_length. }
  rewrite repeat_length in Hlen. fold m in Hall.
  unfold pack_result in Hpack.
  destruct (Nat.eqb_spec n 1) as [Hn1|Hn1]; destruct (Nat.eqb_spec m 1) as [Hm1|Hm1];
    simpl in Hpack.
  - destruct quantiles as [|[|x row] rest]; try discriminate.
    injection Hpack as <-.
    split; [|split].
    + split; [tauto | intros _; eexists; reflexivity].
    + split; [intros (v & Hv & _); discriminate | intros [[_ ?]|[? _]]; contradiction].
    + split; [intros (rows & Hr & _); discriminate | intros [? _]; contradiction].
  - injection Hpack as <-.
    split; [|split].
    + split; [intros (x & Hx); discriminate | intros [_ ?]; contradiction].
    + split; [intros _; left; tauto|]. intros _. eexists. split; [reflexivity|].
      rewrite (concat_length_uniform _ m Hall), Hlen. lia.
    + split; [intros (rows & Hr & _); discriminate | intros [? _]; contradiction].
  - injection Hpack as <-.
    split; [|split].
    + split; [intros (x & Hx); discriminate | intros [? _]; contradiction].
    + split; [intros _; right; tauto|]. intros _. eexists. split; [reflexivity|].
      rewrite (concat_length_uniform _ m Hall), Hlen. lia.
    + split; [intros (rows & Hr & _); discriminate | intros [_ ?]; contradiction].
  - injection Hpack as <-.
    split; [|split].
    + split; [intros (x & Hx); discriminate | intros [? _]; contradiction].
    + split; [intros (v & Hv & _); discriminate | intros [[? _]|[_ ?]]; contradiction].
    + split; [tauto|]. intros _. exists quantiles. repeat split; assumption.
Qed.

End Shape.

Lemma C5_result_shape_witness :
  is_vector (Nat.max 2 1) (RVector [Fin (4000 # 200); Fin (8000 # 200)]).
Proof.
  destruct (C5_result_shape example_percentile example_cobyla example_slsqp
              (QArray (Arr1 [1; 5]) (AList [1 # 2])) default_options example_model
              (Arr2 1 [[1]; [5]]) 2%nat
              (RVector [Fin (4000 # 200); Fin (8000 # 200)])
              (snd (computeQuantile example_percentile example_cobyla example_slsqp
                      (QArray (Arr1 [1; 5]) (AList [1 # 2])) default_options
                      example_model)))
    as (_ & Hvec & _).
  - reflexivity.
  - apply injective_projections; reflexivity.
  - simpl. lia.
  - simpl. lia.
  - apply Hvec. right. split; [discriminate | reflexivity].
Defined.

(** ** No check of the occupancy of a leaf *)

Lemma quiet_Ok {A : Type} (a : A) : quiet (Ok a).
Proof. intros H. exact H. Qed.

Lemma quiet_Raise {A : Type} (e : exn) :
  exn_class e <> "EmptyLeafError" -> quiet (@Raise A e).
Proof. intros H H'. exact (H H'). Qed.

Lemma quiet_map_result {A B : Type} (f : A -> result B) (l : list A) :
  (forall a, quiet (f a)) -> quiet (map_result f l).
Proof.
  intros Hf. induction l as [|a l IH]; simpl; [apply quiet_Ok|].
  specialize (Hf a). destruct (f a) as [y|e]; [|exact Hf].
  destruct (map_result f l) as [ys|e]; [apply quiet_Ok | exact IH].
Qed.

Ltac quiet_result :=
  unfold quiet, raises_class;
  repeat match goal with
         | |- context [match ?x with _ => _ end] =>
             lazymatch x with
             | context [match _ with _ => _ end] => fail
             | _ => destruct x
             end
         end;
  simpl; try tauto; try discriminate.

Lemma quiet_shape0 X : quiet (shape0 X).
Proof. unfold shape0. quiet_result. Qed.
Lemma quiet_shape1 X : quiet (shape1 X).
Proof. unfold shape1. quiet_result. Qed.
Lemma quiet_item0 X : quiet (item0 X).
Proof. unfold item0. quiet_result. Qed.
Lemma quiet_check_input_vector n d : quiet (check_input_vector n d).
Proof. unfold check_input_vector. quiet_result. Qed.
Lemma quiet_tree_apply t X : quiet (tree_apply t X).
Proof. unfold tree_apply. quiet_result. Qed.
Lemma quiet_alpha_iter alpha : quiet (alpha_iter alpha).
Proof. unfold alpha_iter. quiet_result. Qed.
Lemma quiet_weight_of nd k : quiet (weight_of nd k).
Proof. unfold weight_of. quiet_result. Qed.
Lemma quiet_first_reaching yCDF CDF a : quiet (first_reaching yCDF CDF a).
Proof. unfold first_reaching. quiet_result. Qed.
Lemma quiet_pack_result n m quantiles : quiet (pack_result n m quantiles).
Proof. unfold pack_result. quiet_result. Qed.

Lemma quiet_column i rows : quiet (column i rows).
Proof. unfold column. apply quiet_map_result. intros row. quiet_result. Qed.

Lemma never_ret {A : Type} (a : A) : never_EmptyLeafError (ret a).
Proof. intros self. apply quiet_Ok. Qed.

Lemma never_raise {A : Type} (e : exn) :
  exn_class e <> "EmptyLeafError" -> never_EmptyLeafError (@raise A e).
Proof. intros H self. apply quiet_Raise. exact H. Qed.

Lemma never_lift {A : Type} (r : result A) : quiet r -> never_EmptyLeafError (lift r).
Proof. intros H self. exact H. Qed.

Lemma never_bind {A B : Type} (m : M A) (k : A -> M B) :
  never_EmptyLeafError m -> (forall a, never_EmptyLeafError (k a)) ->
  never_EmptyLeafError (bind m k).
Proof.
  intros Hm Hk self. unfold bind. specialize (Hm self).
  destruct (m self) as [[a|e] self1]; simpl in *.
  - apply Hk.
  - exact Hm.
Qed.

Lemma never_getattr a : never_EmptyLeafError (getattr a).
Proof.
  intros self. unfold getattr. destruct (attrs self !! a); simpl.
  - apply quiet_Ok.
  - apply quiet_Raise. discriminate.
Qed.

Lemma never_setattr a v : never_EmptyLeafError (setattr a v).
Proof. intros self. apply quiet_Ok. Qed.

Ltac never_step :=
  match goal with
  | |- never_EmptyLeafError (bind _ _) => apply never_bind; [|intros ?]
  | |- never_EmptyLeafError (ret _) => apply never_ret
  | |- never_EmptyLeafError (raise _) => apply never_raise; discriminate
  | |- never_EmptyLeafError (getattr _) => apply never_getattr
  | |- never_EmptyLeafError (setattr _ _) => apply never_setattr
  | |- never_EmptyLeafError (if ?b then _ else _) => destruct b
  | |- never_EmptyLeafError (match ?x with _ => _ end) => destruct x
  end.

Lemma never_get_int a : never_EmptyLeafError (get_int a).
Proof. unfold get_int. repeat never_step. Qed.
Lemma never_get_series a : never_EmptyLeafError (get_series a).
Proof. unfold get_series. repeat never_step. Qed.
Lemma never_get_grid a : never_EmptyLeafError (get_grid a).
Proof. unfold get_grid. repeat never_step. Qed.
Lemma never_get_leaves a : never_EmptyLeafError (get_leaves a).
Proof. unfold get_leaves. repeat never_step. Qed.
Lemma never_get_mask a : never_EmptyLeafError (get_mask a).
Proof. unfold get_mask. repeat never_step. Qed.
Lemma never_get_array a : never_EmptyLeafError (get_array a).
Proof. unfold get_array. repeat never_step. Qed.

Lemma never_rf_apply X : never_EmptyLeafError (rf_apply X).
Proof.
  intros self. unfold rf_apply. destruct (estimators_ self); simpl.
  - destruct (atleast_2d X) as [c rows].
    destruct (Nat.eqb (length rows) 0); [apply quiet_Raise; discriminate|].
    destruct (Nat.eqb c (n_features_ self));
      [apply quiet_Ok | apply quiet_Raise; discriminate].
  - apply quiet_Raise. discriminate.
Qed.

Lemma never_get_tree i : never_EmptyLeafError (get_tree i).
Proof.
  intros self. unfold get_tree. destruct (estimators_ self) as [trees|]; simpl.
  - destruct (trees !! i); [apply quiet_Ok | apply quiet_Raise; discriminate].
  - apply quiet_Raise. discriminate.
Qed.

Lemma never_check_input X : never_EmptyLeafError (_check_input X).
Proof.
  unfold _check_input. repeat never_step;
    first [ apply never_get_int
          | apply never_lift;
            repeat match goal with
                   | |- quiet (match ?x with _ => _ end) => destruct x
                   end;
            first [apply quiet_shape0 | apply quiet_check_input_vector
                  | apply quiet_Ok] ].
Qed.

Lemma never_setPrecisionOfCDF n : never_EmptyLeafError (setPrecisionOfCDF n).
Proof.
  unfold setPrecisionOfCDF. repeat never_step;
    first [apply never_get_int | apply never_get_series | apply never_get_grid].
Qed.

Lemma never_find_nodes X n i : never_EmptyLeafError (find_nodes X n i).
Proof.
  unfold find_nodes. repeat never_step;
    first [ apply never_get_int | apply never_get_leaves | apply never_rf_apply
          | apply never_get_tree
          | apply never_lift;
            first [apply quiet_item0 | apply quiet_tree_apply | apply quiet_column] ].
Qed.

Lemma never_optFunc yi w a : never_EmptyLeafError (_optFunc yi w a).
Proof. unfold _optFunc. repeat never_step. apply never_get_series. Qed.

Lemma never_ieqFunc yi w a : never_EmptyLeafError (_ieqFunc yi w a).
Proof. unfold _ieqFunc. repeat never_step. apply never_get_series. Qed.

(** If the zero count of the query's leaf divides the indicator, every
    weight is [nan]. *)
Lemma tree_weight_zero_occupancy (sample_node : list Z) (x : Z) :
  count_true (map (fun s => Z.eqb s x) sample_node) = O ->
  tree_weight sample_node x = map (fun _ => NaN) sample_node.
Proof.
  intros H. unfold tree_weight. rewrite H, map_map. reflexivity.
Qed.

Section NoCheck.

Variable np_percentile : list Q -> list Q -> result (list Q).
Variable fmin_cobyla : (Q -> result Q) -> Q -> (Q -> result fnum) -> result Q.
Variable fmin_slsqp : (Q -> result Q) -> Q -> (Q -> result fnum) -> Q -> result Q.

(** The collaborators raise no [EmptyLeafError] of their own. *)
Hypothesis percentile_quiet : forall a q, quiet (np_percentile a q).
Hypothesis cobyla_quiet : forall func x0 cons,
  (forall x, quiet (func x)) -> (forall x, quiet (cons x)) ->
  quiet (fmin_cobyla func x0 cons).
Hypothesis slsqp_quiet : forall func x0 cons epsilon,
  (forall x, quiet (func x)) -> (forall x, quiet (cons x)) ->
  quiet (fmin_slsqp func x0 cons epsilon).

Lemma never_optimize o w y0 i a :
  never_EmptyLeafError (optimize fmin_cobyla fmin_slsqp o w y0 i a).
Proof.
  intros self. unfold optimize.
  assert (Hf : forall x, quiet (fst (_optFunc x w a self)))
    by (intros x; apply never_optFunc).
  assert (Hg : forall x, quiet (fst (_ieqFunc x w a self)))
    by (intros x; apply never_ieqFunc).
  destruct (String.eqb (opt_method o) "Cobyla").
  - destruct (y0 !! i) as [x0|]; [|apply quiet_Raise; discriminate].
    pose proof (cobyla_quiet _ x0 _ Hf Hg) as Hq.
    destruct (fmin_cobyla _ x0 _); [apply quiet_Ok | exact Hq].
  - destruct (String.eqb (opt_method o) "SQP"); [|apply quiet_Raise; discriminate].
    destruct (y0 !! i) as [x0|]; [|apply quiet_Raise; discriminate].
    pose proof (slsqp_quiet _ x0 _ ((1 # 10) * Qabs x0) Hf Hg) as Hq.
    destruct (fmin_slsqp _ x0 _ _); [apply quiet_Ok | exact Hq].
Qed.

Lemma never_optimize_loop o w y0 al : forall i row,
  never_EmptyLeafError (optimize_loop fmin_cobyla fmin_slsqp o w y0 i al row).
Proof.
  induction al as [|a al IH]; intros i row; simpl; repeat never_step.
  - apply never_optimize.
  - apply IH.
Qed.

Lemma never_quantile_row o alpha w k row :
  never_EmptyLeafError
    (quantile_row np_percentile fmin_cobyla fmin_slsqp o alpha w k row).
Proof.
  unfold quantile_row. repeat never_step;
    first [ apply never_get_series | apply never_get_mask | apply never_get_grid
          | apply never_get_array | apply never_optimize_loop
          | apply never_lift;
            first [ apply percentile_quiet | apply quiet_alpha_iter
                  | apply quiet_map_result; intros ?; apply quiet_first_reaching ] ].
Qed.

Lemma never_quantile_loop o alpha nd ks : forall quantiles,
  never_EmptyLeafError
    (quantile_loop np_percentile fmin_cobyla fmin_slsqp o alpha nd ks quantiles).
Proof.
  induction ks as [|k ks IH]; intros quantiles; simpl; repeat never_step.
  - apply never_lift, quiet_weight_of.
  - apply never_quantile_row.
  - apply IH.
Qed.

Lemma never_computeQuantile q o :
  never_EmptyLeafError (computeQuantile np_percentile fmin_cobyla fmin_slsqp q o).
Proof.
  unfold computeQuantile. destruct (as_arrays q) as [X alpha].
  repeat never_step;
    first [ apply never_check_input | apply never_get_int | apply never_get_grid
          | apply never_setPrecisionOfCDF | apply never_find_nodes
          | apply never_quantile_loop
          | apply never_lift, quiet_pack_result ].
Qed.

(** C3, amended: no computation of [computeQuantile] raises an
    [EmptyLeafError] (the collaborators raising none): the code does not
    check the occupancy of the query's leaf.  In single-tree mode, when that
    leaf holds none of the samples weighted over, the indicator is divided by
    the zero count and every sample gets the weight [nan]. *)
Theorem C3_no_EmptyLeafError (q : query) (o : options) (self : obj) :
  ~ raises_class
      (fst (computeQuantile np_percentile fmin_cobyla fmin_slsqp q o self))
      "EmptyLeafError" /\
  (forall (sample_node : list Z) (x : Z),
      count_true (map (fun s => Z.eqb s x) sample_node) = O ->
      tree_weight sample_node x = map (fun _ => NaN) sample_node).
Proof.
  split.
  - apply never_computeQuantile.
  - apply tree_weight_zero_occupancy.
Qed.

End NoCheck.

Lemma example_percentile_quiet a q : quiet (example_percentile a q).
Proof.
  unfold example_percentile. destruct (sort_values a).
  - apply quiet_Raise. discriminate.
  - apply quiet_Ok.
Qed.

Lemma example_cobyla_quiet func x0 cons :
  (forall x, quiet (func x)) -> (forall x, quiet (cons x)) ->
  quiet (example_cobyla func x0 cons).
Proof.
  intros Hf Hg. unfold example_cobyla. specialize (Hf x0). specialize (Hg x0).
  destruct (func x0); [|exact Hf]. destruct (cons x0); [apply quiet_Ok | exact Hg].
Qed.

Lemma example_slsqp_quiet func x0 cons epsilon :
  (forall x, quiet (func x)) -> (forall x, quiet (cons x)) ->
  quiet (example_slsqp func x0 cons epsilon).
Proof. apply example_cobyla_quiet. Qed.

(** C3, as stated, fails.  On [oob_view] the query [[3]] falls into leaf 2 of
    tree 0, which holds none of the two samples; the weights are [nan];
    with [do_optim=False] the call raises [IndexError] (no grid value has a
    cumulated weight that compares [>=] to the level), not [EmptyLeafError];
    with the optimizer that stops at its starting point the call returns the
    median of the outputs. *)
Lemma C3_zero_occupancy_no_EmptyLeafError :
  fst (find_nodes (Arr2 1 [[3]]) 1 0 oob_view) = Ok (OneTree [1; 1]%Z [2%Z]) /\
  count_true (map (fun s => Z.eqb s 2) [1; 1]%Z) = O /\
  weight_of (OneTree [1; 1]%Z [2%Z]) 0 = Ok [NaN; NaN] /\
  fst (computeQuantile example_percentile example_cobyla example_slsqp
         (QArray (Arr2 1 [[3]]) (AList [1 # 2])) (Options false false 0 "Cobyla")
         oob_view)
  = Raise (IndexError "index 0 is out of bounds for axis 0 with size 0") /\
  ~ raises_class
      (fst (computeQuantile example_percentile example_cobyla example_slsqp
              (QArray (Arr2 1 [[3]]) (AList [1 # 2])) (Options false false 0 "Cobyla")
              oob_view))
      "EmptyLeafError" /\
  fst (computeQuantile example_percentile example_cobyla example_slsqp
         (QArray (Arr2 1 [[3]]) (AList [1 # 2])) (Options true false 0 "Cobyla")
         oob_view)
  = Ok (RScalar (Fin (4000 # 200))).
Proof.
  repeat split; try reflexivity.
  vm_compute. discriminate.
Qed.

Lemma C3_no_EmptyLeafError_witness :
  ~ raises_class
      (fst (computeQuantile example_percentile example_cobyla example_slsqp
              (QArray (Arr2 1 [[3]]) (AList [1 # 2])) (Options true false 0 "Cobyla")
              oob_view))
      "EmptyLeafError" /\
  (forall (sample_node : list Z) (x : Z),
      count_true (map (fun s => Z.eqb s x) sample_node) = O ->
      tree_weight sample_node x = map (fun _ => NaN) sample_node).
Proof.
  apply (C3_no_EmptyLeafError example_percentile example_cobyla example_slsqp
           example_percentile_quiet example_cobyla_quiet example_slsqp_quiet
           (QArray (Arr2 1 [[3]]) (AList [1 # 2])) (Options true false 0 "Cobyla")
           oob_view).
Defined.

(** ** The importance estimator *)

Section Importance.

Variable np_percentile : list Q -> list Q -> result (list Q).
Variable fmin_cobyla : (Q -> result Q) -> Q -> (Q -> result fnum) -> result Q.
Variable fmin_slsqp : (Q -> result Q) -> Q -> (Q -> result fnum) -> Q -> result Q.
Variable shuffle : nat -> nat -> list Q -> list Q.

(** What [compute_importance] returns on an object on which [_numJobs] and
    [_numTree] are bound and every per-tree computation returns: the mean,
    dimension by dimension, of the per-tree vectors.  No method binds these
    attributes (see [reachable_unbound]). *)
Lemma compute_importance_mean (alpha : alphas) (self : obj) (jobs trees : nat)
    (errors : list (list fnum)) :
  attrs self !! "_numJobs" = Some (VInt jobs) ->
  attrs self !! "_numTree" = Some (VInt trees) ->
  map_result
    (fun i => fst (_computeImportanceOfTree np_percentile fmin_cobyla fmin_slsqp
                     shuffle alpha i self))
    (seq 0 trees) = Ok errors ->
  compute_importance np_percentile fmin_cobyla fmin_slsqp shuffle alpha self
  = (Ok (mean_axis0 errors), self).
Proof.
  intros Hjobs Htrees Herrors.
  unfold compute_importance, get_int, pool_map.
  rewrite !bind_run, (getattr_bound _ _ _ Hjobs). unfold ret at 1. cbv beta iota.
  rewrite !bind_run, (getattr_bound _ _ _ Htrees). unfold ret at 1. cbv beta iota.
  rewrite bind_run, Herrors. reflexivity.
Qed.

End Importance.
(** * Further properties of the code *)

(** ** [check_function], [_optFunc] and [_ieqFunc] *)

Lemma check_function_nonneg (y yi alpha : Q) :
  0 <= alpha <= 1 -> 0 <= check_function y yi alpha.
Proof.
  intros Ha. unfold check_function.
  destruct (Qltb (y - yi) 0) eqn:E.
  - apply Qltb_true in E. unfold b2q. nra.
  - apply Qltb_false in E. unfold b2q. nra.
Qed.

Lemma check_function_zero_iff (y yi alpha : Q) :
  0 < alpha < 1 -> (check_function y yi alpha == 0 <-> y == yi).
Proof.
  intros Ha. unfold check_function.
  destruct (Qltb (y - yi) 0) eqn:E.
  - apply Qltb_true in E. unfold b2q. split; intros; nra.
  - apply Qltb_false in E. unfold b2q. split; intros; nra.
Qed.

(** X1: the pinball loss of one residual is [alpha * (y - yi)] when
    [y >= yi] and [(1 - alpha) * (yi - y)] when [y < yi]; for [alpha] in
    [0,1] it is never negative, and for [alpha] in (0,1) it is zero only
    when [y = yi]. *)
Theorem X1_check_function_sign (y yi alpha : Q) :
  0 <= alpha <= 1 ->
  (yi <= y -> check_function y yi alpha == alpha * (y - yi)) /\
  (y < yi -> check_function y yi alpha == (1 - alpha) * (yi - y)) /\
  0 <= check_function y yi alpha /\
  (0 < alpha < 1 -> (check_function y yi alpha == 0 <-> y == yi)).
Proof.
  intros Ha. unfold check_function.
  destruct (Qltb (y - yi) 0) eqn:E.
  - apply Qltb_true in E. unfold b2q. repeat split; intros; try nra.
  - apply Qltb_false in E. unfold b2q. repeat split; intros; try nra.
Qed.

Lemma X1_check_function_sign_witness :
  (2 <= 5 -> check_function 5 2 (1 # 4) == (1 # 4) * (5 - 2)) /\
  (5 < 2 -> check_function 5 2 (1 # 4) == (1 - (1 # 4)) * (2 - 5)) /\
  0 <= check_function 5 2 (1 # 4) /\
  (0 < 1 # 4 < 1 -> (check_function 5 2 (1 # 4) == 0 <-> 5 == 2)).
Proof.
  apply (X1_check_function_sign 5 2 (1 # 4)). lra.
Defined.

Lemma Qsum_zero_iff (l : list Q) :
  Forall (Qle 0) l -> (Qsum l == 0 <-> Forall (fun x => x == 0) l).
Proof.
  induction 1 as [|x l Hx Hl IH]; simpl.
  - split; [constructor | reflexivity].
  - pose proof (Qsum_nonneg l Hl) as Hs. split.
    + intros H. constructor; [lra|]. apply IH. lra.
    + intros H. inversion H as [|? ? H0 Hr]; subst. apply IH in Hr. lra.
Qed.

(** X2: on an object whose training outputs are bound, with one weight per
    training output, [_optFunc] returns, for [alpha] in [0,1], a value that
    is never negative and leaves the object unchanged; for [alpha] in (0,1)
    the value is zero exactly when every training output whose weight is not
    zero equals the candidate. *)
Theorem X2_optFunc_nonneg (ys : list Q) (w : list fnum) (q alpha : Q) (self : obj) :
  0 <= alpha <= 1 ->
  length w = length ys ->
  attrs self !! "_output_sample" = Some (VSeries ys) ->
  exists v,
    _optFunc q w alpha self = (Ok v, self) /\
    0 <= v /\
    (0 < alpha < 1 ->
     (v == 0 <-> forall y, In y (mask_select (map fne0 w) ys) -> y == q)).
Proof.
  intros Ha _ Hys. exists (optFunc_value ys q w alpha).
  split; [|split].
  - unfold _optFunc, get_series. rewrite !bind_run, (getattr_bound _ _ _ Hys).
    reflexivity.
  - unfold optFunc_value. apply Qsum_nonneg. apply List.Forall_forall.
    intros v Hv. apply in_map_iff in Hv as (y & <- & _).
    apply check_function_nonneg, Ha.
  - intros Ha'. unfold optFunc_value. rewrite Qsum_zero_iff.
    + rewrite List.Forall_forall. split.
      * intros H y Hy. apply (check_function_zero_iff y q alpha Ha').
        apply H. apply in_map_iff. exists y. split; [reflexivity | exact Hy].
      * intros H v Hv. apply in_map_iff in Hv as (y & <- & Hy).
        apply (check_function_zero_iff y q alpha Ha'). apply H. exact Hy.
    + apply List.Forall_forall. intros v Hv. apply in_map_iff in Hv as (y & <- & _).
      apply check_function_nonneg, Ha.
Qed.

Lemma X2_optFunc_nonneg_witness :
  exists v,
    _optFunc 2 [Fin (1 # 2); Fin 0; Fin (1 # 2)] (1 # 4) (with_outputs [2; 7; 2])
    = (Ok v, with_outputs [2; 7; 2]) /\
    0 <= v /\
    (0 < 1 # 4 < 1 ->
     (v == 0 <->
      forall y, In y (mask_select (map fne0 [Fin (1 # 2); Fin 0; Fin (1 # 2)]) [2; 7; 2])
                -> y == 2)).
Proof.
  apply (X2_optFunc_nonneg [2; 7; 2] [Fin (1 # 2); Fin 0; Fin (1 # 2)] 2 (1 # 4)
           (with_outputs [2; 7; 2])).
  - lra.
  - reflexivity.
  - reflexivity.
Defined.

(** The cumulated weight of the constraint is the weighted distribution
    function. *)
Lemma cumulated_weight_cdf (ys wq : list Q) (g : Q) :
  Qsum (mask_select (map (fun y => Qleb y g) ys) wq) == weighted_cdf ys wq g.
Proof.
  unfold weighted_cdf. revert wq.
  induction ys as [|y ys IH]; intros [|w wq]; simpl; try reflexivity.
  destruct (Qleb y g); simpl; rewrite IH; lra.
Qed.

Lemma weighted_cdf_bounds (ys wq : list Q) (g : Q) :
  length wq = length ys ->
  Forall (Qle 0) wq ->
  0 <= weighted_cdf ys wq g <= Qsum wq.
Proof.
  unfold weighted_cdf. intros Hlen Hw. revert ys Hlen.
  induction Hw as [|w wq Hw0 Hw IH]; intros [|y ys] Hlen; simpl in *;
    try discriminate; [lra|].
  specialize (IH ys ltac:(lia)). destruct (Qleb y g); simpl; lra.
Qed.

Lemma weighted_cdf_mono (ys wq : list Q) (g g' : Q) :
  Forall (Qle 0) wq -> g <= g' -> weighted_cdf ys wq g <= weighted_cdf ys wq g'.
Proof.
  intros Hw Hg. rewrite <- !cumulated_weight_cdf.
  apply cumulated_weight_mono; assumption.
Qed.

Lemma weighted_cdf_none (ys wq : list Q) (g : Q) :
  (forall y, In y ys -> g < y) -> weighted_cdf ys wq g == 0.
Proof.
  unfold weighted_cdf. revert wq.
  induction ys as [|y ys IH]; intros [|w wq] Hlt; simpl; try reflexivity.
  rewrite IH by (intros z Hz; apply Hlt; right; exact Hz).
  assert (Hy : Qleb y g = false) by (apply Qleb_false, Hlt; left; reflexivity).
  rewrite Hy. simpl. lra.
Qed.

(** X3: for finite non-negative weights, one per training output, the
    constraint [_ieqFunc] is the weighted distribution function at the
    candidate minus [alpha]; it does not decrease when the candidate grows,
    lies between [-alpha] and [sum w - alpha], is [-alpha] below every
    output and [sum w - alpha] from the largest output on. *)
Theorem X3_ieqFunc_is_cdf_minus_alpha
    (ys wq : list Q) (alpha yi yi' : Q) (self : obj) :
  length wq = length ys ->
  Forall (Qle 0) wq ->
  attrs self !! "_output_sample" = Some (VSeries ys) ->
  yi <= yi' ->
  exists g g',
    _ieqFunc yi (map Fin wq) alpha self = (Ok (Fin g), self) /\
    _ieqFunc yi' (map Fin wq) alpha self = (Ok (Fin g'), self) /\
    g == weighted_cdf ys wq yi - alpha /\
    g <= g' /\
    - alpha <= g /\ g' <= Qsum wq - alpha /\
    ((forall y, In y ys -> yi < y) -> g == - alpha) /\
    ((forall y, In y ys -> y <= yi') -> g' == Qsum wq - alpha).
Proof.
  intros Hlen Hw Hys Hle.
  assert (Hrun : forall z,
             _ieqFunc z (map Fin wq) alpha self
             = (Ok (Fin (Qsum (mask_select (map (fun y => Qleb y z) ys) wq) - alpha)),
                self)).
  { intros z. unfold _ieqFunc, get_series.
    rewrite !bind_run, (getattr_bound _ _ _ Hys). unfold ret.
    rewrite ieqFunc_value_Fin. reflexivity. }
  eexists. eexists. split; [apply Hrun|]. split; [apply Hrun|].
  rewrite !cumulated_weight_cdf.
  pose proof (weighted_cdf_bounds ys wq yi Hlen Hw).
  pose proof (weighted_cdf_bounds ys wq yi' Hlen Hw).
  pose proof (weighted_cdf_mono ys wq yi yi' Hw Hle).
  repeat split; try lra.
  - intros Hbelow. rewrite (weighted_cdf_none ys wq yi Hbelow). lra.
  - intros Habove. rewrite (weighted_cdf_total ys wq yi' Hlen Habove). lra.
Qed.

Lemma X3_ieqFunc_is_cdf_minus_alpha_witness :
  exists g g',
    _ieqFunc 0 (map Fin [1 # 4; 3 # 4]) (1 # 2) (with_outputs [1; 2])
    = (Ok (Fin g), with_outputs [1; 2]) /\
    _ieqFunc 2 (map Fin [1 # 4; 3 # 4]) (1 # 2) (with_outputs [1; 2])
    = (Ok (Fin g'), with_outputs [1; 2]) /\
    g == weighted_cdf [1; 2] [1 # 4; 3 # 4] 0 - (1 # 2) /\
    g <= g' /\
    - (1 # 2) <= g /\ g' <= Qsum [1 # 4; 3 # 4] - (1 # 2) /\
    ((forall y, In y [1; 2] -> 0 < y) -> g == - (1 # 2)) /\
    ((forall y, In y [1; 2] -> y <= 2) -> g' == Qsum [1 # 4; 3 # 4] - (1 # 2)).
Proof.
  apply (X3_ieqFunc_is_cdf_minus_alpha [1; 2] [1 # 4; 3 # 4] (1 # 2) 0 2
           (with_outputs [1; 2])).
  - reflexivity.
  - repeat constructor; discriminate.
  - reflexivity.
  - discriminate.
Defined.
(** ** [_check_input] *)

(** X4: for a forest whose recorded dimension [d0] is not 1, [_check_input]
    never modifies the array or the object.  An array with [d0] columns is
    taken as it is, with one query point per row; any other array whose
    first axis has length [d0] is taken as a single query point; every other
    array is refused with a [ValueError]. *)
Theorem X4_check_input_multi_feature (X : ndarray) (n d0 : nat) (self : obj) :
  attrs self !! "_input_dim" = Some (VInt d0) ->
  shape0 X = Ok n ->
  d0 <> 1%nat ->
  snd (_check_input X self) = self /\
  (shape1 X = Ok d0 -> fst (_check_input X self) = Ok (X, n)) /\
  (shape1 X <> Ok d0 -> n = d0 -> fst (_check_input X self) = Ok (X, 1%nat)) /\
  (shape1 X <> Ok d0 -> n <> d0 ->
   raises_class (fst (_check_input X self)) "ValueError").
Proof.
  intros Hd Hn Hd0. split; [apply pure_check_input|].
  unfold _check_input, get_int.
  rewrite !bind_run, Hn. simpl.
  rewrite !bind_run, (getattr_bound _ _ _ Hd). simpl.
  rewrite bind_run. unfold check_input_vector.
  assert (E1 : Nat.eqb 1 d0 = false) by (apply Nat.eqb_neq; lia).
  rewrite E1. simpl.
  destruct (shape1 X) as [c|e] eqn:Hc.
  - destruct (Nat.eqb c d0) eqn:Ec; simpl.
    + apply Nat.eqb_eq in Ec. subst c.
      assert (E2 : Nat.eqb d0 1 = false) by (apply Nat.eqb_neq; lia).
      rewrite E2, andb_false_r.
      repeat split; intros; try reflexivity; congruence.
    + apply Nat.eqb_neq in Ec.
      destruct (Nat.eqb n d0) eqn:En; simpl.
      * apply Nat.eqb_eq in En.
        repeat split; intros; try reflexivity; congruence.
      * apply Nat.eqb_neq in En.
        repeat split; intros; try reflexivity; congruence.
  - destruct (Nat.eqb n d0) eqn:En; simpl.
    + apply Nat.eqb_eq in En.
      repeat split; intros; try reflexivity; congruence.
    + apply Nat.eqb_neq in En.
      repeat split; intros; try reflexivity; congruence.
Qed.

Lemma X4_check_input_multi_feature_witness :
  snd (_check_input (Arr1 [1; 2]) (with_input_dim 2))
  = with_input_dim 2 /\
  (shape1 (Arr1 [1; 2]) = Ok 2%nat ->
   fst (_check_input (Arr1 [1; 2])
          (with_input_dim 2))
   = Ok (Arr1 [1; 2], 2%nat)) /\
  (shape1 (Arr1 [1; 2]) <> Ok 2%nat -> 2%nat = 2%nat ->
   fst (_check_input (Arr1 [1; 2])
          (with_input_dim 2))
   = Ok (Arr1 [1; 2], 1%nat)) /\
  (shape1 (Arr1 [1; 2]) <> Ok 2%nat -> 2%nat <> 2%nat ->
   raises_class
     (fst (_check_input (Arr1 [1; 2])
             (with_input_dim 2)))
     "ValueError").
Proof.
  apply (X4_check_input_multi_feature (Arr1 [1; 2]) 2 2
           (with_input_dim 2)).
  - reflexivity.
  - reflexivity.
  - discriminate.
Defined.

(** X5: for a forest of dimension 1, a one-dimensional array of [n > 1]
    values becomes a column of [n] query points with the same values in the
    same order, and an array with a single value is returned as it is, as
    one query point; the object is unchanged. *)
Theorem X5_check_input_vector_one_feature (v : list Q) (self : obj) :
  attrs self !! "_input_dim" = Some (VInt 1) ->
  _check_input (Arr1 v) self
  = (Ok (if Nat.ltb 1 (length v) then Arr2 1 (map (fun x => [x]) v) else Arr1 v,
         length v), self).
Proof.
  intros Hd. unfold _check_input, get_int.
  rewrite !bind_run. simpl.
  rewrite !bind_run, (getattr_bound _ _ _ Hd). simpl.
  rewrite bind_run. unfold lift, check_input_vector. simpl.
  rewrite andb_true_r.
  destruct (Nat.ltb 1 (length v)); [|reflexivity].
  rewrite Nat.eqb_refl.
  unfold ret, resize_column. cbn [flat].
  rewrite firstn_app, firstn_all, Nat.sub_diag, app_nil_r. reflexivity.
Qed.

Lemma X5_check_input_vector_one_feature_witness :
  _check_input (Arr1 [7; 8; 9]) (with_input_dim 1)
  = (Ok (if Nat.ltb 1 (length [7; 8; 9])
         then Arr2 1 (map (fun x => [x]) [7; 8; 9]) else Arr1 [7; 8; 9],
         length [7; 8; 9]),
     with_input_dim 1).
Proof.
  apply (X5_check_input_vector_one_feature [7; 8; 9]
           (with_input_dim 1)).
  reflexivity.
Defined.
(** ** [fit] *)

(** X6: when [fit] returns on a two-dimensional array it has at least one
    row, the forest was grown on its rows, and the object records a
    consistent state: [_n_sample] is the number of rows, [_input_dim] is the
    number of columns and the number of features of the forest, [bootstrap]
    is set, the inputs and outputs are stored, [_sample_nodes] has one row
    per training sample and one entry per tree, and every other attribute is
    as before. *)
Theorem X6_fit_matrix_state
    (grow : list (list Q) -> list Q -> result (list tree))
    (c : nat) (rows : list (list Q)) (y : list Q) (self0 self : obj) :
  fit grow (Arr2 c rows) y self0 = (Ok tt, self) ->
  exists trees leaves,
    rows <> [] /\
    grow rows y = Ok trees /\
    estimators_ self = Some trees /\
    n_features_ self = c /\
    bootstrap self = true /\
    attrs self !! "_n_sample" = Some (VInt (length rows)) /\
    attrs self !! "_input_dim" = Some (VInt c) /\
    attrs self !! "_input_sample" = Some (VFrame c rows) /\
    attrs self !! "_output_sample" = Some (VSeries y) /\
    attrs self !! "_sample_nodes" = Some (VLeaves leaves) /\
    length leaves = length rows /\
    Forall (fun r => length r = length trees) leaves /\
    (forall name,
        ~ In name ["_n_sample"; "_input_dim"; "_input_sample"; "_output_sample";
                   "_sample_nodes"] ->
        attrs self !! name = attrs self0 !! name).
Proof.
  unfold fit, bind, lift, setattr, set_bootstrap, rf_fit, rf_apply, ret; simpl.
  assert (Hrest : forall (m : gmap string pyval) v1 v2 v3 v4 v5 name,
             ~ In name ["_n_sample"; "_input_dim"; "_input_sample"; "_output_sample";
                        "_sample_nodes"] ->
             (<["_sample_nodes" := v5]> (<["_output_sample" := v4]>
               (<["_input_sample" := v3]> (<["_input_dim" := v2]>
                 (<["_n_sample" := v1]> m))))) !! name = m !! name).
  { intros m v1 v2 v3 v4 v5 name Hn. simpl in Hn.
    rewrite !lookup_insert_ne by (intros <-; tauto). reflexivity. }
  assert (Hleaves : forall trees : list tree,
             Forall (fun r : list Z => length r = length trees)
                    (map (fun r => map (fun t : tree => t r) trees) rows)).
  { intros trees. apply List.Forall_forall. intros r Hr.
    apply in_map_iff in Hr as (x & <- & _). apply length_map. }
  destruct (Nat.eqb (length rows) (length rows * c)) eqn:Esz.
  - simpl. destruct (grow rows y) as [trees|e]; [|discriminate]. simpl.
    destruct (Nat.eqb (length rows) 0) eqn:E0; [discriminate|].
    rewrite Nat.eqb_refl. intros [= <-].
    apply Nat.eqb_neq in E0. apply Nat.eqb_eq in Esz.
    assert (c = 1%nat) as -> by nia.
    exists trees, (map (fun r => map (fun t : tree => t r) trees) rows). simpl.
    repeat split; try reflexivity; try (by simplify_map_eq); try apply length_map;
      try exact (Hleaves trees).
    + intros Hr. apply E0. rewrite Hr. reflexivity.
    + intros name Hn. apply Hrest. exact Hn.
  - simpl. destruct (grow rows y) as [trees|e]; [|discriminate]. simpl.
    destruct (Nat.eqb (length rows) 0) eqn:E0; [discriminate|].
    rewrite Nat.eqb_refl. intros [= <-].
    apply Nat.eqb_neq in E0.
    exists trees, (map (fun r => map (fun t : tree => t r) trees) rows). simpl.
    repeat split; try reflexivity; try (by simplify_map_eq); try apply length_map;
      try exact (Hleaves trees).
    + intros Hr. apply E0. rewrite Hr. reflexivity.
    + intros name Hn. apply Hrest. exact Hn.
Qed.

Lemma X6_fit_matrix_state_witness :
  exists trees leaves,
    [[1]; [3]; [5]] <> [] /\
    example_grow [[1]; [3]; [5]] example_y = Ok trees /\
    estimators_ example_model = Some trees /\
    n_features_ example_model = 1%nat /\
    bootstrap example_model = true /\
    attrs example_model !! "_n_sample" = Some (VInt (length [[1]; [3]; [5]])) /\
    attrs example_model !! "_input_dim" = Some (VInt 1) /\
    attrs example_model !! "_input_sample" = Some (VFrame 1 [[1]; [3]; [5]]) /\
    attrs example_model !! "_output_sample" = Some (VSeries example_y) /\
    attrs example_model !! "_sample_nodes" = Some (VLeaves leaves) /\
    length leaves = length [[1]; [3]; [5]] /\
    Forall (fun r => length r = length trees) leaves /\
    (forall name,
        ~ In name ["_n_sample"; "_input_dim"; "_input_sample"; "_output_sample";
                   "_sample_nodes"] ->
        attrs example_model !! name = attrs QuantileForest_new !! name).
Proof.
  apply (X6_fit_matrix_state example_grow 1 [[1]; [3]; [5]] example_y
           QuantileForest_new example_model).
  exact example_model_fit.
Defined.

(** X7: [fit] is not atomic.  When growing the forest raises, [fit] raises
    the same exception after it has already overwritten [_n_sample] and
    [_input_dim] and set [bootstrap]; every other attribute, the stored
    inputs, outputs and leaves among them, is still that of the object
    before the call, so the recorded dimension and the stored leaves no
    longer belong together. *)
Theorem X7_fit_failure_partial_update
    (grow : list (list Q) -> list Q -> result (list tree))
    (c : nat) (rows : list (list Q)) (y : list Q) (e : exn) (self0 : obj) :
  grow rows y = Raise e ->
  exists self,
    fit grow (Arr2 c rows) y self0 = (Raise e, self) /\
    bootstrap self = true /\
    attrs self !! "_n_sample" = Some (VInt (length rows)) /\
    attrs self !! "_input_dim"
    = Some (VInt (if Nat.eqb (length rows) (length rows * c) then 1 else c)) /\
    (forall name, name <> "_n_sample" -> name <> "_input_dim" ->
                  attrs self !! name = attrs self0 !! name).
Proof.
  intros Hgrow.
  unfold fit, bind, lift, setattr, set_bootstrap, rf_fit, rf_apply, ret; simpl.
  destruct (Nat.eqb (length rows) (length rows * c)); simpl; rewrite Hgrow;
    eexists; (split; [reflexivity|]); simpl;
    repeat split; try reflexivity; try (by simplify_map_eq);
    intros name H1 H2; rewrite !lookup_insert_ne by congruence; reflexivity.
Qed.

Lemma X7_fit_failure_partial_update_witness :
  exists self,
    fit (fun _ _ => Raise (ValueError "bad input")) (Arr2 2 [[1; 2]; [3; 4]]) [1; 2]
        example_model
    = (Raise (ValueError "bad input"), self) /\
    bootstrap self = true /\
    attrs self !! "_n_sample" = Some (VInt (length [[1; 2]; [3; 4]])) /\
    attrs self !! "_input_dim"
    = Some (VInt (if Nat.eqb (length [[1; 2]; [3; 4]]) (length [[1; 2]; [3; 4]] * 2)
                  then 1 else 2)) /\
    (forall name, name <> "_n_sample" -> name <> "_input_dim" ->
                  attrs self !! name = attrs example_model !! name).
Proof.
  apply (X7_fit_failure_partial_update (fun _ _ => Raise (ValueError "bad input"))
           2 [[1; 2]; [3; 4]] [1; 2] (ValueError "bad input") example_model).
  reflexivity.
Defined.
(** ** What a query changes *)

Section Queries.

Variable grow : list (list Q) -> list Q -> result (list tree).
Variable np_percentile : list Q -> list Q -> result (list Q).
Variable fmin_cobyla : (Q -> result Q) -> Q -> (Q -> result fnum) -> result Q.
Variable fmin_slsqp : (Q -> result Q) -> Q -> (Q -> result fnum) -> Q -> result Q.
Variable shuffle : nat -> nat -> list Q -> list Q.

Lemma pure_optimize o w y0 i a : pure (optimize fmin_cobyla fmin_slsqp o w y0 i a).
Proof.
  intros self. unfold optimize.
  destruct (String.eqb (opt_method o) "Cobyla").
  - destruct (y0 !! i); [|reflexivity].
    destruct (fmin_cobyla _ _ _); reflexivity.
  - destruct (String.eqb (opt_method o) "SQP"); [|reflexivity].
    destruct (y0 !! i); [|reflexivity].
    destruct (fmin_slsqp _ _ _ _); reflexivity.
Qed.

Lemma pure_optimize_loop o w y0 al : forall i row,
  pure (optimize_loop fmin_cobyla fmin_slsqp o w y0 i al row).
Proof.
  induction al as [|a al IH]; intros i row; simpl.
  - apply pure_ret.
  - apply pure_bind; [apply pure_optimize | intros q; apply IH].
Qed.

Lemma pure_quantile_row o alpha w k row :
  do_optim o = true ->
  pure (quantile_row np_percentile fmin_cobyla fmin_slsqp o alpha w k row).
Proof.
  intros Ho. unfold quantile_row. rewrite Ho.
  apply pure_bind; [apply pure_get_series | intros ys].
  apply pure_bind; [apply pure_lift | intros y0].
  apply pure_bind; [apply pure_lift | intros al].
  apply pure_optimize_loop.
Qed.

Lemma pure_quantile_loop o alpha nd ks :
  do_optim o = true ->
  forall quantiles,
    pure (quantile_loop np_percentile fmin_cobyla fmin_slsqp o alpha nd ks quantiles).
Proof.
  intros Ho. induction ks as [|k ks IH]; intros quantiles; simpl.
  - apply pure_ret.
  - apply pure_bind; [apply pure_lift | intros w].
    apply pure_bind; [apply pure_quantile_row, Ho | intros row]. apply IH.
Qed.

Lemma pure_computeQuantile_optim q o :
  do_optim o = true -> doSaveCDF o = false ->
  pure (computeQuantile np_percentile fmin_cobyla fmin_slsqp q o).
Proof.
  intros Ho Hs. unfold computeQuantile. destruct (as_arrays q) as [X alpha].
  apply pure_bind; [apply pure_check_input | intros [X' n]].
  rewrite Ho, Hs. simpl.
  apply pure_bind; [apply pure_ret | intros _].
  apply pure_bind; [apply pure_ret | intros _].
  apply pure_bind; [apply pure_find_nodes | intros nd].
  apply pure_bind; [apply pure_quantile_loop, Ho | intros qs].
  apply pure_lift.
Qed.

(** X8: with [do_optim] set and [doSaveCDF] not set, the defaults, a call of
    [computeQuantile] never changes the object, for every query, tree index
    and optimisation method, whether the call returns or raises. *)
Theorem X8_optimization_query_keeps_object (q : query) (o : options) (self : obj) :
  do_optim o = true ->
  doSaveCDF o = false ->
  snd (computeQuantile np_percentile fmin_cobyla fmin_slsqp q o self) = self.
Proof.
  intros Ho Hs. unfold computeQuantile. destruct (as_arrays q) as [X alpha].
  rewrite Ho, Hs. simpl.
  apply pure_bind; [apply pure_check_input | intros [X' n]].
  repeat (apply pure_bind; [first [apply pure_ret | apply pure_find_nodes
                                  | apply pure_quantile_loop, Ho] | intros ?]).
  apply pure_lift.
Qed.

Local Abbreviation reachable' := (reachable grow np_percentile fmin_cobyla fmin_slsqp shuffle).

(** [fit] binds its five names only. *)
Lemma fit_frame X y self name :
  ~ In name ["_n_sample"; "_input_dim"; "_input_sample"; "_output_sample";
             "_sample_nodes"] ->
  attrs (snd (fit grow X y self)) !! name = attrs self !! name.
Proof.
  intros Hn. simpl in Hn.
  unfold fit, bind, lift, setattr, set_bootstrap, rf_fit, rf_apply, ret; simpl.
  destruct (shape0 X) as [n|e]; [|reflexivity].
  destruct (atleast_2d X) as [c rows]. simpl.
  destruct (Nat.eqb n (size X)).
  - simpl. destruct (grow rows y) as [trees|e]; simpl.
    + destruct (Nat.eqb (length rows) 0); simpl;
        [|rewrite Nat.eqb_refl; simpl];
        rewrite !lookup_insert_ne by (intros <-; tauto); reflexivity.
    + rewrite !lookup_insert_ne by (intros <-; tauto); reflexivity.
  - destruct (shape1 X) as [d|e]; [|reflexivity]. simpl.
    destruct (grow rows y) as [trees|e]; simpl.
    + destruct (Nat.eqb (length rows) 0); simpl;
        [|rewrite Nat.eqb_refl; simpl];
        rewrite !lookup_insert_ne by (intros <-; tauto); reflexivity.
    + rewrite !lookup_insert_ne by (intros <-; tauto); reflexivity.
Qed.

(** The calls other than [fit] on an object that a program can hold. *)
Lemma after_query_reachable c self :
  reachable' self ->
  (forall X y, c <> Call_fit X y) ->
  after grow np_percentile fmin_cobyla fmin_slsqp shuffle c self = self.
Proof.
  intros Hr Hc.
  pose proof (reachable_unbound _ fresh_n_points _ _ _ _ _ _ Hr) as Hpoints.
  pose proof (reachable_unbound _ fresh_outputSample _ _ _ _ _ _ Hr) as Hout.
  pose proof (reachable_unbound _ fresh_numJobs _ _ _ _ _ _ Hr) as Hjobs.
  pose proof (reachable_unbound _ fresh_oobID _ _ _ _ _ _ Hr) as Hoob.
  destruct c as [X y|q o|n|alpha i|alpha]; simpl.
  - exfalso. apply (Hc X y). reflexivity.
  - destruct (doSaveCDF o || negb (do_optim o)) eqn:Hflag.
    + unfold computeQuantile. destruct (as_arrays q) as [X alpha].
      rewrite bind_run, (pure_run _ self (pure_check_input X)).
      destruct (fst (_check_input X self)) as [[X' n]|e]; [|reflexivity].
      rewrite Hflag, !bind_run, get_int_unbound by exact Hpoints. reflexivity.
    + apply orb_false_iff in Hflag as [Hs Ho]. apply negb_false_iff in Ho.
      apply pure_computeQuantile_optim; assumption.
  - unfold setPrecisionOfCDF.
    rewrite bind_run, get_series_unbound by exact Hout. reflexivity.
  - unfold _computeImportanceOfTree.
    rewrite bind_run, get_index_unbound by exact Hoob. reflexivity.
  - unfold compute_importance.
    rewrite bind_run, get_int_unbound by exact Hjobs. reflexivity.
Qed.

(** X9: on the objects that a program can obtain from [QuantileForest()] by
    method calls, [fit] is the only method that changes anything: every
    other call, returning or raising, leaves the object as it found it.  So
    the only attributes such an object can have are the five that [fit]
    binds; the grid [_yCDF], the indicator matrix [_infYY] and [_CDF] are
    never bound. *)
Theorem X9_only_fit_changes_the_object (self : obj) :
  reachable' self ->
  (forall c, (forall X y, c <> Call_fit X y) ->
             after grow np_percentile fmin_cobyla fmin_slsqp shuffle c self = self) /\
  (forall name,
      ~ In name ["_n_sample"; "_input_dim"; "_input_sample"; "_output_sample";
                 "_sample_nodes"] ->
      attrs self !! name = None).
Proof.
  intros Hr. split.
  - intros c Hc. apply after_query_reachable; assumption.
  - intros name Hn. induction Hr as [|c self Hr IH].
    + reflexivity.
    + destruct c as [X y|q o|n|alpha i|alpha];
        try (rewrite after_query_reachable by (assumption || discriminate); exact IH).
      simpl. rewrite fit_frame by exact Hn. exact IH.
Qed.

End Queries.

Lemma X8_optimization_query_keeps_object_witness :
  snd (computeQuantile example_percentile example_cobyla example_slsqp
         (QScalar 2 (1 # 2)) default_options example_model) = example_model.
Proof.
  apply (X8_optimization_query_keeps_object example_percentile example_cobyla
           example_slsqp (QScalar 2 (1 # 2)) default_options example_model).
  - reflexivity.
  - reflexivity.
Defined.

Lemma X9_only_fit_changes_the_object_witness :
  (forall c, (forall X y, c <> Call_fit X y) ->
             after example_grow example_percentile example_cobyla example_slsqp
               example_shuffle c example_model = example_model) /\
  (forall name,
      ~ In name ["_n_sample"; "_input_dim"; "_input_sample"; "_output_sample";
                 "_sample_nodes"] ->
      attrs example_model !! name = None).
Proof.
  apply (X9_only_fit_changes_the_object example_grow example_percentile example_cobyla
           example_slsqp example_shuffle example_model).
  apply produced_by_fit_reachable. exact example_model_produced.
Defined.
(** ** Calls of [computeQuantile] that cannot give a quantile *)

Section Failures.

Variable np_percentile : list Q -> list Q -> result (list Q).
Variable fmin_cobyla : (Q -> result Q) -> Q -> (Q -> result fnum) -> result Q.
Variable fmin_slsqp : (Q -> result Q) -> Q -> (Q -> result fnum) -> Q -> result Q.

Local Abbreviation computeQuantile' := (computeQuantile np_percentile fmin_cobyla fmin_slsqp).
Local Abbreviation quantile_loop' := (quantile_loop np_percentile fmin_cobyla fmin_slsqp).
Local Abbreviation quantile_row' := (quantile_row np_percentile fmin_cobyla fmin_slsqp).

(** X10: on an object without [_input_dim], as [QuantileForest()] is before
    [fit], [computeQuantile] raises [AttributeError] for every query that
    has a first axis, whatever the options, and leaves the object
    unchanged. *)
Theorem X10_query_before_fit (q : query) (o : options) (self : obj) (n : nat) :
  attrs self !! "_input_dim" = None ->
  shape0 (fst (as_arrays q)) = Ok n ->
  computeQuantile' q o self = (Raise (AttributeError "_input_dim"), self).
Proof.
  intros Hd Hn. unfold computeQuantile.
  destruct (as_arrays q) as [X alpha]. simpl in Hn.
  rewrite bind_run. unfold _check_input.
  rewrite bind_run, Hn. simpl.
  rewrite bind_run, get_int_unbound by exact Hd. reflexivity.
Qed.

(** A loop that returns after at least one round has computed a row. *)
Lemma quantile_loop_Ok_row o alpha nd k ks quantiles self quantiles' self' :
  quantile_loop' o alpha nd (k :: ks) quantiles self = (Ok quantiles', self') ->
  exists w row s row' s',
    quantile_row' o alpha w k row s = (Ok row', s').
Proof.
  simpl. intros H.
  apply bind_Ok_inv in H as (w & s1 & _ & H).
  apply bind_Ok_inv in H as (row' & s2 & Hrow & _).
  eauto 10.
Qed.

(** What a returning call went through. *)
Lemma computeQuantile_Ok_inv q o self r :
  fst (computeQuantile' q o self) = Ok r ->
  exists X' n s0 nd quantiles s s',
    _check_input (fst (as_arrays q)) self = (Ok (X', n), s0) /\
    quantile_loop' o (snd (as_arrays q)) nd (seq 0 n)
      (repeat (repeat (Fin 0) (alpha_size (snd (as_arrays q)))) n) s
    = (Ok quantiles, s') /\
    pack_result n (alpha_size (snd (as_arrays q))) quantiles = Ok r.
Proof.
  intros H.
  destruct (computeQuantile' q o self) as [r0 self'] eqn:Hrun.
  simpl in H. subst r0. unfold computeQuantile in Hrun.
  destruct (as_arrays q) as [X alpha]. simpl.
  apply bind_Ok_inv in Hrun as ([X1 n] & s1 & Hci & H).
  apply bind_Ok_inv in H as (u1 & s2 & _ & H).
  apply bind_Ok_inv in H as (u2 & s3 & _ & H).
  apply bind_Ok_inv in H as (nd & s4 & _ & H).
  apply bind_Ok_inv in H as (quantiles & s5 & Hloop & H).
  apply lift_Ok_inv in H as [Hpack _].
  exists X1, n, s1, nd, quantiles, s4, s5. repeat split; assumption.
Qed.

Lemma check_input_scalar x self X' n s :
  _check_input (Arr1 [x]) self = (Ok (X', n), s) -> n = 1%nat.
Proof.
  unfold _check_input. intros H.
  apply bind_Ok_inv in H as (n0 & s1 & Hn & H).
  apply lift_Ok_inv in Hn as [[= <-] ->].
  apply bind_Ok_inv in H as (d0 & s2 & _ & H).
  apply bind_Ok_inv in H as ([n1 d] & s3 & Hnd & H).
  apply lift_Ok_inv in Hnd as [Hnd ->].
  simpl in Hnd. unfold check_input_vector in Hnd.
  assert (n1 = 1%nat) as ->.
  { destruct (Nat.eqb 1 d0); simpl in Hnd; congruence. }
  destruct (Nat.ltb 1 1 && Nat.eqb d 1); injection H as _ <- _; reflexivity.
Qed.

Lemma pack_result_no_rows m r : pack_result 0 m [] = Ok r -> result_size r = 0%nat.
Proof.
  unfold pack_result. simpl.
  destruct (Nat.eqb m 1); intros [= <-]; reflexivity.
Qed.

(** X11: with an array of query points and a single float as [alpha],
    [computeQuantile] never returns a quantile: the loop over the levels
    iterates a zero-dimensional array, which raises, so a call can only
    return when there is no query point at all, and then with an empty
    vector. *)
Theorem X11_float_alpha_with_array_gives_no_quantile
    (X : ndarray) (a : Q) (o : options) (self : obj) (r : pyfloats) :
  fst (computeQuantile' (QArray X (AFloat a)) o self) = Ok r ->
  r = RVector [].
Proof.
  intros H. apply computeQuantile_Ok_inv in H as (X' & n & s0 & nd & qs & s & s' & Hci & Hloop & Hpack).
  simpl in Hloop, Hpack.
  destruct n as [|n].
  - simpl in Hloop. injection Hloop as <- _. simpl in Hpack.
    injection Hpack as <-. reflexivity.
  - exfalso. cbn [seq] in Hloop.
    apply quantile_loop_Ok_row in Hloop as (w & row & s1 & row' & s2 & Hrow).
    unfold quantile_row in Hrow. destruct (do_optim o).
    + apply bind_Ok_inv in Hrow as (ys & s3 & _ & H).
      apply bind_Ok_inv in H as (y0 & s4 & _ & H).
      apply bind_Ok_inv in H as (al & s5 & Hal & _).
      apply lift_Ok_inv in Hal as [Hal _]. discriminate.
    + apply bind_Ok_inv in Hrow as (infYY & s3 & _ & H).
      apply bind_Ok_inv in H as (al & s4 & Hal & _).
      apply lift_Ok_inv in Hal as [Hal _]. discriminate.
Qed.

Lemma optimize_unknown_method o w y0 i a self :
  opt_method o <> "Cobyla" -> opt_method o <> "SQP" ->
  optimize fmin_cobyla fmin_slsqp o w y0 i a self
  = (Raise (ValueError "Unknow optimisation method"), self).
Proof.
  intros H1 H2. unfold optimize.
  apply String.eqb_neq in H1, H2. rewrite H1, H2. reflexivity.
Qed.

(** X12: with [do_optim] set and an [opt_method] other than "Cobyla" and
    "SQP", [computeQuantile] never returns a quantile, for every object and
    query: a scalar query never returns, and a call that returns does so
    with an empty result, because there was no query point or no level. *)
Theorem X12_unknown_method_gives_no_quantile
    (q : query) (o : options) (self : obj) :
  do_optim o = true ->
  opt_method o <> "Cobyla" ->
  opt_method o <> "SQP" ->
  (forall r, fst (computeQuantile' q o self) = Ok r -> result_size r = 0%nat) /\
  (forall x a, q = QScalar x a -> ~ is_Ok (fst (computeQuantile' q o self))).
Proof.
  intros Ho H1 H2.
  assert (Hsize : forall r, fst (computeQuantile' q o self) = Ok r ->
                            result_size r = 0%nat).
  { intros r H.
    apply computeQuantile_Ok_inv in H as (X' & n & s0 & nd & qs & s & s' & Hci & Hloop & Hpack).
    destruct n as [|n].
    - simpl in Hloop. injection Hloop as <- _.
      apply pack_result_no_rows in Hpack. exact Hpack.
    - pose proof Hloop as Hshape.
      apply quantile_loop_shape in Hshape as [Hlen Hall].
      2:{ apply Forall_forall. intros row Hrow. apply list_elem_of_In in Hrow.
          apply repeat_spec in Hrow. subst row.
      first [apply repeat_length | reflexivity]. }
      cbn [seq] in Hloop.
      apply quantile_loop_Ok_row in Hloop as (w & row & s1 & row' & s2 & Hrow).
      unfold quantile_row in Hrow. rewrite Ho in Hrow.
      apply bind_Ok_inv in Hrow as (ys & s3 & _ & H).
      apply bind_Ok_inv in H as (y0 & s4 & _ & H).
      apply bind_Ok_inv in H as (al & s5 & Hal & H).
      apply lift_Ok_inv in Hal as [Hal _].
      destruct al as [|a al].
      + assert (Hm : alpha_size (snd (as_arrays q)) = 0%nat).
        { destruct (snd (as_arrays q)); simpl in Hal; [discriminate|].
          injection Hal as ->. reflexivity. }
        rewrite Hm in *.
        assert (Hc : length (concat qs) = 0%nat).
        { rewrite (concat_length_uniform _ 0 Hall). lia. }
        unfold pack_result in Hpack.
        destruct (Nat.eqb (S n) 1); simpl in Hpack; injection Hpack as <-; exact Hc.
      + simpl in H. rewrite bind_run, optimize_unknown_method in H by assumption.
        discriminate. }
  split; [exact Hsize|].
  intros x a -> Hok.
  destruct (fst (computeQuantile' (QScalar x a) o self)) as [r|e] eqn:Hr; [|exact Hok].
  pose proof (Hsize r eq_refl) as Hz.
  apply computeQuantile_Ok_inv in Hr as (X' & n & s0 & nd & qs & s & s' & Hci & Hloop & Hpack).
  simpl in Hloop, Hpack.
  apply quantile_loop_shape in Hloop as [Hlen Hall].
  2:{ apply Forall_forall. intros row Hrow. apply list_elem_of_In in Hrow.
      apply repeat_spec in Hrow. subst row.
      first [apply repeat_length | reflexivity]. }
  rewrite repeat_length in Hlen. simpl in Hall.
  unfold pack_result in Hpack.
  destruct (Nat.eqb n 1); simpl in Hpack.
  - destruct qs as [|[|x0 row] rest]; try discriminate.
    injection Hpack as <-. discriminate.
  - apply check_input_scalar in Hci. subst n.
    injection Hpack as <-. simpl in Hz.
    rewrite (concat_length_uniform _ 1 Hall) in Hz.
    destruct qs; discriminate.
Qed.

End Failures.

Lemma X10_query_before_fit_witness :
  computeQuantile example_percentile example_cobyla example_slsqp
    (QScalar 3 (9 # 10)) default_options QuantileForest_new
  = (Raise (AttributeError "_input_dim"), QuantileForest_new).
Proof.
  apply (X10_query_before_fit example_percentile example_cobyla example_slsqp
           (QScalar 3 (9 # 10)) default_options QuantileForest_new 1).
  - reflexivity.
  - reflexivity.
Defined.

Lemma X11_float_alpha_with_array_gives_no_quantile_witness :
  fst (computeQuantile example_percentile example_cobyla example_slsqp
         (QArray (Arr2 1 []) (AFloat (1 # 2))) (Options true false 0 "Cobyla") oob_view)
  = Ok (RVector []) /\ RVector [] = RVector [].
Proof.
  split.
  - reflexivity.
  - apply (X11_float_alpha_with_array_gives_no_quantile example_percentile
             example_cobyla example_slsqp (Arr2 1 []) (1 # 2)
             (Options true false 0 "Cobyla") oob_view (RVector [])).
    reflexivity.
Defined.

Lemma X12_unknown_method_gives_no_quantile_witness :
  (forall r,
      fst (computeQuantile example_percentile example_cobyla example_slsqp
             (QArray (Arr2 1 [[1]; [4]]) (AList [])) (Options true false (-1) "Newton")
             example_model) = Ok r ->
      result_size r = 0%nat) /\
  (forall x a,
      QArray (Arr2 1 [[1]; [4]]) (AList []) = QScalar x a ->
      ~ is_Ok (fst (computeQuantile example_percentile example_cobyla example_slsqp
                      (QArray (Arr2 1 [[1]; [4]]) (AList []))
                      (Options true false (-1) "Newton") example_model))).
Proof.
  apply (X12_unknown_method_gives_no_quantile example_percentile example_cobyla
           example_slsqp (QArray (Arr2 1 [[1]; [4]]) (AList []))
           (Options true false (-1) "Newton") example_model).
  - reflexivity.
  - discriminate.
  - discriminate.
Defined.
(** ** The loops of [computeQuantile] *)

Lemma map_result_from_lookup {A B : Type} (f : nat -> A -> result B) (xs : list A) :
  forall start ys,
    map_result_from f start xs = Ok ys ->
    length ys = length xs /\
    forall j x, xs !! j = Some x ->
                exists y, f (start + j)%nat x = Ok y /\ ys !! j = Some y.
Proof.
  induction xs as [|x xs IH]; intros start ys; simpl.
  - intros [= <-]. split; [reflexivity|]. intros j x Hj. discriminate.
  - destruct (f start x) as [y|e] eqn:Hy; [|discriminate].
    destruct (map_result_from f (S start) xs) as [ys'|e] eqn:Hys; [|discriminate].
    intros [= <-]. destruct (IH _ _ Hys) as [Hlen Hall].
    split; [simpl; congruence|].
    intros [|j] x' Hj; simpl in Hj.
    + injection Hj as <-. exists y. rewrite Nat.add_0_r. split; [exact Hy | reflexivity].
    + destruct (Hall j x' Hj) as (y' & Hf & Hl). exists y'.
      replace (start + S j)%nat with (S start + j)%nat by lia.
      split; assumption.
Qed.

Lemma map_result_from_total {A B : Type} (f : nat -> A -> result B) (xs : list A) :
  forall start,
    (forall j x, xs !! j = Some x -> is_Ok (f (start + j)%nat x)) ->
    exists ys, map_result_from f start xs = Ok ys.
Proof.
  induction xs as [|x xs IH]; intros start Hall; simpl.
  - eexists. reflexivity.
  - pose proof (Hall 0%nat x eq_refl) as H0. rewrite Nat.add_0_r in H0.
    destruct (f start x) as [y|e]; [|destruct H0].
    destruct (IH (S start)) as [ys ->].
    + intros j x' Hj. replace (S start + j)%nat with (start + S j)%nat by lia.
      apply Hall. exact Hj.
    + eexists. reflexivity.
Qed.

Lemma map_result_lookup {A B : Type} (f : A -> result B) (xs : list A) :
  forall ys,
    map_result f xs = Ok ys ->
    forall j x, xs !! j = Some x -> exists y, f x = Ok y /\ ys !! j = Some y.
Proof.
  induction xs as [|x xs IH]; intros ys; simpl.
  - intros _ j x Hj. discriminate.
  - destruct (f x) as [y|e] eqn:Hy; [|discriminate].
    destruct (map_result f xs) as [ys'|e] eqn:Hys; [|discriminate].
    intros [= <-] [|j] x' Hj; simpl in Hj.
    + injection Hj as <-. exists y. split; [exact Hy | reflexivity].
    + apply (IH _ eq_refl j x' Hj).
Qed.

Lemma map_result_total {A B : Type} (f : A -> result B) (xs : list A) :
  (forall x, In x xs -> is_Ok (f x)) -> exists ys, map_result f xs = Ok ys.
Proof.
  induction xs as [|x xs IH]; intros Hall; simpl.
  - eexists. reflexivity.
  - pose proof (Hall x (or_introl eq_refl)) as H0.
    destruct (f x) as [y|e]; [|destruct H0].
    destruct IH as [ys ->].
    + intros x' Hx'. apply Hall. right. exact Hx'.
    + eexists. reflexivity.
Qed.

Section Loops.

Variable np_percentile : list Q -> list Q -> result (list Q).
Variable fmin_cobyla : (Q -> result Q) -> Q -> (Q -> result fnum) -> result Q.
Variable fmin_slsqp : (Q -> result Q) -> Q -> (Q -> result fnum) -> Q -> result Q.

Local Abbreviation computeQuantile' := (computeQuantile np_percentile fmin_cobyla fmin_slsqp).
Local Abbreviation quantile_loop' := (quantile_loop np_percentile fmin_cobyla fmin_slsqp).
Local Abbreviation quantile_row' := (quantile_row np_percentile fmin_cobyla fmin_slsqp).
Local Abbreviation optimize' := (optimize fmin_cobyla fmin_slsqp).
Local Abbreviation optimize_loop' := (optimize_loop fmin_cobyla fmin_slsqp).

(** The loop over the levels fills the entries [i], [i + 1], ... of the row
    with the results of the optimizer, in order. *)
Lemma optimize_loop_run o w y0 self al : forall i row,
  (i + length al <= length row)%nat ->
  optimize_loop' o w y0 i al row self
  = (match map_result_from (fun j a => fst (optimize' o w y0 j a self)) i al with
     | Ok vs => Ok (firstn i row ++ vs ++ skipn (i + length al) row)
     | Raise e => Raise e
     end, self).
Proof.
  induction al as [|a al IH]; intros i row Hlen; simpl.
  - unfold ret. rewrite Nat.add_0_r, firstn_skipn. reflexivity.
  - rewrite bind_run, (pure_run _ self (pure_optimize _ _ o w y0 i a)).
    destruct (fst (optimize' o w y0 i a self)) as [q|e]; [|reflexivity].
    simpl in Hlen. rewrite IH by (rewrite length_insert; lia).
    destruct (map_result_from _ (S i) al) as [vs|e]; [|reflexivity].
    do 2 f_equal.
    rewrite (take_S_r (<[i:=q]> row) i q) by (apply list_lookup_insert_eq; lia).
    rewrite take_insert_ge by lia. rewrite drop_insert_lt by lia.
    rewrite <- app_assoc. simpl.
    replace (S (i + length al)) with (i + S (length al))%nat by lia. reflexivity.
Qed.

Lemma map_result_ext_in {A B : Type} (f g : A -> result B) (xs : list A) :
  (forall x, In x xs -> f x = g x) -> map_result f xs = map_result g xs.
Proof.
  induction xs as [|x xs IH]; intros H; simpl; [reflexivity|].
  rewrite (H x (or_introl eq_refl)), IH; [reflexivity|].
  intros x' Hx'. apply H. right. exact Hx'.
Qed.

(** The loop over the query points fills the rows [s], [s + 1], ... with
    the rows computed for them, in order; on the optimization path it does
    not change the object. *)
Lemma quantile_loop_run o alpha nd self :
  do_optim o = true ->
  forall n s quantiles,
    (s + n <= length quantiles)%nat ->
    quantile_loop' o alpha nd (seq s n) quantiles self
    = (match map_result
               (fun k => match weight_of nd k with
                         | Raise e => Raise e
                         | Ok w => fst (quantile_row' o alpha w k (nth k quantiles []) self)
                         end) (seq s n) with
       | Ok rows => Ok (firstn s quantiles ++ rows ++ skipn (s + n) quantiles)
       | Raise e => Raise e
       end, self).
Proof.
  intros Ho. induction n as [|n IH]; intros s quantiles Hlen; simpl.
  - unfold ret. rewrite Nat.add_0_r, firstn_skipn. reflexivity.
  - rewrite bind_run. unfold lift at 1.
    destruct (weight_of nd s) as [w|e]; [|reflexivity].
    rewrite bind_run,
      (pure_run _ self (pure_quantile_row _ _ _ o alpha w s (nth s quantiles []) Ho)).
    destruct (fst (quantile_row' o alpha w s (nth s quantiles []) self)) as [row|e];
      [|reflexivity].
    rewrite IH by (rewrite length_insert; lia).
    rewrite (map_result_ext_in _
               (fun k => match weight_of nd k with
                         | Raise e => Raise e
                         | Ok w => fst (quantile_row' o alpha w k (nth k quantiles []) self)
                         end)).
    2:{ intros k Hk. apply in_seq in Hk.
        rewrite !nth_lookup, list_lookup_insert_ne by lia. reflexivity. }
    destruct (map_result _ (seq (S s) n)) as [rows|e]; [|reflexivity].
    do 2 f_equal.
    rewrite (take_S_r (<[s:=row]> quantiles) s row) by (apply list_lookup_insert_eq; lia).
    rewrite take_insert_ge by lia. rewrite drop_insert_lt by lia.
    rewrite <- app_assoc. simpl.
    replace (S (s + n)) with (s + S n)%nat by lia. reflexivity.
Qed.

(** One call of the optimizer on an object whose training outputs are
    bound: the objective and the constraint it receives. *)
Lemma optimize_run o w y0 i a ys self :
  attrs self !! "_output_sample" = Some (VSeries ys) ->
  fst (optimize' o w y0 i a self)
  = if String.eqb (opt_method o) "Cobyla" then
      match y0 !! i with
      | None => Raise (IndexError "index out of bounds")
      | Some x0 =>
          match fmin_cobyla (fun yi => Ok (optFunc_value ys yi w a)) x0
                            (fun yi => Ok (ieqFunc_value ys yi w a)) with
          | Ok q => Ok (Fin q)
          | Raise e => Raise e
          end
      end
    else if String.eqb (opt_method o) "SQP" then
      match y0 !! i with
      | None => Raise (IndexError "index out of bounds")
      | Some x0 =>
          match fmin_slsqp (fun yi => Ok (optFunc_value ys yi w a)) x0
                           (fun yi => Ok (ieqFunc_value ys yi w a))
                           ((1 # 10) * Qabs x0) with
          | Ok q => Ok (Fin q)
          | Raise e => Raise e
          end
      end
    else Raise (ValueError "Unknow optimisation method").
Proof.
  intros Hys. unfold optimize, _optFunc, _ieqFunc, get_series, bind, getattr.
  rewrite Hys. cbn [fst ret].
  destruct (String.eqb (opt_method o) "Cobyla").
  - destruct (y0 !! i) as [x0|]; [|reflexivity].
    destruct (fmin_cobyla _ x0 _); reflexivity.
  - destruct (String.eqb (opt_method o) "SQP"); [|reflexivity].
    destruct (y0 !! i) as [x0|]; [|reflexivity].
    destruct (fmin_slsqp _ x0 _ _); reflexivity.
Qed.

(** The row of one query point on the optimization path. *)
Lemma quantile_row_run o al w k row ys self :
  do_optim o = true ->
  attrs self !! "_output_sample" = Some (VSeries ys) ->
  length row = length al ->
  fst (quantile_row' o (AList al) w k row self)
  = match np_percentile (mask_select (map fne0 w) ys) (map (Qmult 100) al) with
    | Raise e => Raise e
    | Ok y0 => map_result_from (fun j a => fst (optimize' o w y0 j a self)) 0 al
    end.
Proof.
  intros Ho Hys Hlen. unfold quantile_row, get_series. rewrite Ho.
  rewrite !bind_run, (getattr_bound _ _ _ Hys). simpl.
  rewrite bind_run. unfold lift at 1.
  destruct (np_percentile _ _) as [y0|e]; [|reflexivity].
  rewrite bind_run. simpl.
  rewrite optimize_loop_run by (simpl; lia). simpl.
  destruct (map_result_from _ 0 al) as [vs|e] eqn:Hvs; [|reflexivity].
  apply map_result_from_lookup in Hvs as [Hl _].
  rewrite <- Hlen, drop_all, app_nil_r. reflexivity.
Qed.

(** A call on the optimization path, once the input has been accepted and
    the leaves have been found. *)
Lemma computeQuantile_run X al o self X' n nd ys :
  do_optim o = true ->
  doSaveCDF o = false ->
  attrs self !! "_output_sample" = Some (VSeries ys) ->
  _check_input X self = (Ok (X', n), self) ->
  find_nodes X' n (iTree o) self = (Ok nd, self) ->
  computeQuantile' (QArray X (AList al)) o self
  = (match map_result
             (fun k =>
                match weight_of nd k with
                | Raise e => Raise e
                | Ok w =>
                    match np_percentile (mask_select (map fne0 w) ys)
                                        (map (Qmult 100) al) with
                    | Raise e => Raise e
                    | Ok y0 =>
                        map_result_from (fun j a => fst (optimize' o w y0 j a self)) 0 al
                    end
                end) (seq 0 n) with
     | Ok rows => pack_result n (length al) rows
     | Raise e => Raise e
     end, self).
Proof.
  intros Ho Hs Hys Hci Hfind. unfold computeQuantile. simpl.
  rewrite bind_run, Hci, Ho, Hs. simpl.
  rewrite bind_run. change (ret tt self) with (Ok tt, self). cbv iota beta.
  rewrite bind_run. change (ret tt self) with (Ok tt, self). cbv iota beta.
  rewrite bind_run, Hfind, bind_run.
  rewrite quantile_loop_run by (rewrite ?repeat_length; simpl; (exact Ho || lia)).
  rewrite (map_result_ext_in _
             (fun k =>
                match weight_of nd k with
                | Raise e => Raise e
                | Ok w =>
                    match np_percentile (mask_select (map fne0 w) ys)
                                        (map (Qmult 100) al) with
                    | Raise e => Raise e
                    | Ok y0 =>
                        map_result_from (fun j a => fst (optimize' o w y0 j a self)) 0 al
                    end
                end)).
  2:{ intros k Hk. apply in_seq in Hk. destruct (weight_of nd k) as [w|e]; [|reflexivity].
      apply quantile_row_run; [exact Ho | exact Hys |].
      rewrite nth_repeat_lt by lia. apply repeat_length. }
  destruct (map_result _ (seq 0 n)) as [rows|e] eqn:Hrows; [|reflexivity].
  simpl. apply map_result_length in Hrows. rewrite length_seq in Hrows.
  rewrite <- Hrows at 2.
  replace (drop (length rows) _) with (@nil (list fnum)).
  2:{ symmetry. apply drop_ge. rewrite repeat_length. lia. }
  rewrite app_nil_r. reflexivity.
Qed.

End Loops.

(** ** Quantiles of two levels *)


Section Monotone.

Variable np_percentile : list Q -> list Q -> result (list Q).
Variable fmin_cobyla : (Q -> result Q) -> Q -> (Q -> result fnum) -> result Q.
Variable fmin_slsqp : (Q -> result Q) -> Q -> (Q -> result fnum) -> Q -> result Q.

Local Abbreviation quantile_row' := (quantile_row np_percentile fmin_cobyla fmin_slsqp).
Local Abbreviation optimize' := (optimize fmin_cobyla fmin_slsqp).


End Monotone.

(** ** From the query to the leaves *)

Lemma concat_singletons (rows : list (list Q)) :
  Forall (fun r => length r = 1%nat) rows ->
  map (fun x => [x]) (concat rows) = rows /\ length (concat rows) = length rows.
Proof.
  induction 1 as [|r rows Hr Hrows [IH1 IH2]]; simpl; [split; reflexivity|].
  destruct r as [|x [|? ?]]; try discriminate. simpl.
  rewrite IH1, IH2. split; reflexivity.
Qed.

Lemma rf_apply_rows X trees c rows self :
  estimators_ self = Some trees ->
  atleast_2d X = (c, rows) ->
  rows <> [] ->
  n_features_ self = c ->
  rf_apply X self = (Ok (map (fun r => map (fun t : tree => t r) trees) rows), self).
Proof.
  intros Ht HX Hne Hc. unfold rf_apply. rewrite Ht, HX.
  destruct rows as [|r rows]; [contradiction|]. simpl.
  rewrite <- Hc, Nat.eqb_refl. reflexivity.
Qed.

(** The leaves of the query points on an object in the state that [fit] leaves. *)
Lemma query_nodes
    (c : nat) (trees : list tree) (leaves : list (list Z)) (i : Z) (self : obj) :
  estimators_ self = Some trees ->
  n_features_ self = c ->
  attrs self !! "_input_dim" = Some (VInt c) ->
  attrs self !! "_sample_nodes" = Some (VLeaves leaves) ->
  (i < 0)%Z ->
  (forall qrows,
      qrows <> [] ->
      Forall (fun r => length r = c) qrows ->
      exists X',
        _check_input (Arr2 c qrows) self = (Ok (X', length qrows), self) /\
        find_nodes X' (length qrows) i self
        = (Ok (AllTrees leaves (map (fun r => map (fun t : tree => t r) trees) qrows)),
           self)) /\
  (forall v,
      c = 1%nat ->
      v <> [] ->
      exists X',
        _check_input (Arr1 v) self = (Ok (X', length v), self) /\
        find_nodes X' (length v) i self
        = (Ok (AllTrees leaves
                 (map (fun r => map (fun t : tree => t r) trees) (map (fun x => [x]) v))),
           self)).
Proof.
  intros Ht Hc Hd Hl Hi.
  assert (Hint : get_int "_input_dim" self = (Ok c, self)).
  { unfold get_int. rewrite bind_run, (getattr_bound _ _ _ Hd). reflexivity. }
  assert (Hleaves : get_leaves "_sample_nodes" self = (Ok leaves, self)).
  { unfold get_leaves. rewrite bind_run, (getattr_bound _ _ _ Hl). reflexivity. }
  assert (Hneg : Z.ltb i 0 = true) by (apply Z.ltb_lt; exact Hi).
  assert (Hmany : forall X n rows,
             Nat.eqb n 1 && Nat.eqb c 1 = false ->
             atleast_2d X = (c, rows) -> rows <> [] ->
             find_nodes X n i self
             = (Ok (AllTrees leaves (map (fun r => map (fun t : tree => t r) trees) rows)),
                self)).
  { intros X n rows Hn HX Hne. unfold find_nodes. rewrite Hneg.
    rewrite bind_run.
    destruct (Nat.eqb n 1) eqn:En.
    - rewrite bind_run, Hint. unfold ret at 1. simpl in Hn. rewrite Hn.
      rewrite bind_run, (rf_apply_rows X trees c rows self Ht HX Hne Hc).
      rewrite bind_run, Hleaves. reflexivity.
    - unfold ret at 1.
      rewrite bind_run, (rf_apply_rows X trees c rows self Ht HX Hne Hc).
      rewrite bind_run, Hleaves. reflexivity. }
  assert (Hone : forall X x0 rows,
             c = 1%nat -> item0 X = Ok x0 ->
             atleast_2d x0 = (1%nat, rows) -> rows <> [] ->
             find_nodes X 1 i self
             = (Ok (AllTrees leaves (map (fun r => map (fun t : tree => t r) trees) rows)),
                self)).
  { intros X x0 rows Hc1 HX Hx0 Hne. unfold find_nodes. rewrite Hneg.
    rewrite bind_run. simpl. rewrite bind_run, Hint. unfold ret at 1.
    rewrite Hc1. simpl.
    rewrite !bind_run. unfold lift at 1. rewrite HX.
    rewrite (rf_apply_rows x0 trees 1 rows self Ht Hx0 Hne) by congruence.
    rewrite bind_run, Hleaves. reflexivity. }
  split.
  - intros qrows Hne Hall.
    unfold _check_input. rewrite bind_run. simpl.
    rewrite bind_run, Hint, bind_run. simpl. rewrite Nat.eqb_refl. simpl.
    destruct (Nat.ltb 1 (length qrows) && Nat.eqb c 1) eqn:Hbig.
    + apply andb_true_iff in Hbig as [Hn Hc1].
      apply Nat.ltb_lt in Hn. apply Nat.eqb_eq in Hc1. subst c. rewrite Hc1 in *.
      destruct (concat_singletons qrows Hall) as [Hcat Hlen].
      rewrite Nat.mul_1_r, Nat.eqb_refl.
      eexists. split; [reflexivity|].
      apply Hmany.
      * destruct (Nat.eqb_spec (length qrows) 1); [lia | reflexivity].
      * unfold resize_column. simpl.
        rewrite firstn_app, <- Hlen, firstn_all, Nat.sub_diag. simpl.
        rewrite app_nil_r, Hcat. reflexivity.
      * exact Hne.
    + eexists. split; [reflexivity|].
      destruct (Nat.eqb (length qrows) 1 && Nat.eqb c 1) eqn:Hsmall.
      * apply andb_true_iff in Hsmall as [Hn Hc1].
        apply Nat.eqb_eq in Hn. apply Nat.eqb_eq in Hc1.
        destruct qrows as [|r [|? ?]]; try discriminate.
        inversion Hall as [|? ? Hr _]; subst.
        rewrite Hn. apply (Hone _ (Arr1 r)); try reflexivity; try assumption.
        simpl. rewrite Hr, Hc1. reflexivity.
      * apply Hmany; [exact Hsmall | reflexivity | exact Hne].
  - intros v Hc1 Hne. rewrite Hc1 in *. clear Hc1.
    unfold _check_input. rewrite bind_run. simpl.
    rewrite bind_run, Hint, bind_run. unfold lift at 1, check_input_vector.
    simpl. rewrite andb_true_r.
    destruct (Nat.ltb 1 (length v)) eqn:Hn.
    + apply Nat.ltb_lt in Hn. rewrite Nat.eqb_refl.
      eexists. split; [reflexivity|].
      apply Hmany.
      * destruct (Nat.eqb_spec (length v) 1); [lia | reflexivity].
      * unfold resize_column. simpl.
        rewrite firstn_app, firstn_all, Nat.sub_diag. simpl.
        rewrite app_nil_r. reflexivity.
      * destruct v; [contradiction | discriminate].
    + apply Nat.ltb_ge in Hn.
      destruct v as [|x [|? ?]]; [contradiction | | simpl in Hn; lia].
      eexists. split; [reflexivity|].
      apply (Hone _ (Arr0 x)); try reflexivity; try assumption. discriminate.
Qed.

(** What the query path reads from the state that [fit] leaves. *)
Lemma fit_state (grow : list (list Q) -> list Q -> result (list tree))
    (c : nat) (rows : list (list Q)) (y : list Q) (self0 self : obj) (trees : list tree) :
  fit grow (Arr2 c rows) y self0 = (Ok tt, self) ->
  grow rows y = Ok trees ->
  estimators_ self = Some trees /\
  n_features_ self = c /\
  attrs self !! "_input_dim" = Some (VInt c) /\
  attrs self !! "_output_sample" = Some (VSeries y) /\
  attrs self !! "_sample_nodes"
  = Some (VLeaves (map (fun r => map (fun t : tree => t r) trees) rows)).
Proof.
  unfold fit, bind, lift, setattr, set_bootstrap, rf_fit, rf_apply, ret; simpl.
  intros Hfit Hgrow. rewrite Hgrow in Hfit.
  destruct (Nat.eqb (length rows) (length rows * c)) eqn:Esz; simpl in Hfit;
    destruct (Nat.eqb (length rows) 0) eqn:E0; try discriminate;
    rewrite Nat.eqb_refl in Hfit; injection Hfit as <-; simpl.
  - apply Nat.eqb_neq in E0. apply Nat.eqb_eq in Esz.
    assert (c = 1%nat) as -> by nia.
    repeat split; try reflexivity; by simplify_map_eq.
  - repeat split; try reflexivity; by simplify_map_eq.
Qed.

(** X13: on the model that [fit] leaves for a training matrix, every row
    of a query matrix with as many columns is one query point and is sent
    through every tree, also in the two special cases of the code (a single
    point of a forest of dimension 1, and the resizing of a column), and the
    training rows are represented by the leaves stored at [fit]; for a
    forest of dimension 1 a one-dimensional array of values is treated as
    the column of these values.  The model is unchanged. *)
Theorem X13_query_rows_through_every_tree
    (grow : list (list Q) -> list Q -> result (list tree))
    (c : nat) (rows : list (list Q)) (y : list Q) (self0 self : obj)
    (trees : list tree) (i : Z) :
  fit grow (Arr2 c rows) y self0 = (Ok tt, self) ->
  grow rows y = Ok trees ->
  (i < 0)%Z ->
  (forall qrows,
      qrows <> [] ->
      Forall (fun r => length r = c) qrows ->
      exists X',
        _check_input (Arr2 c qrows) self = (Ok (X', length qrows), self) /\
        find_nodes X' (length qrows) i self
        = (Ok (AllTrees (map (fun r => map (fun t : tree => t r) trees) rows)
                        (map (fun r => map (fun t : tree => t r) trees) qrows)),
           self)) /\
  (forall v,
      c = 1%nat ->
      v <> [] ->
      exists X',
        _check_input (Arr1 v) self = (Ok (X', length v), self) /\
        find_nodes X' (length v) i self
        = (Ok (AllTrees (map (fun r => map (fun t : tree => t r) trees) rows)
                 (map (fun r => map (fun t : tree => t r) trees) (map (fun x => [x]) v))),
           self)).
Proof.
  intros Hfit Hgrow Hi.
  destruct (fit_state _ _ _ _ _ _ _ Hfit Hgrow) as (Ht & Hc & Hd & _ & Hl).
  apply (query_nodes c trees _ i self Ht Hc Hd Hl Hi).
Qed.

Lemma X13_query_rows_through_every_tree_witness :
  (forall qrows,
      qrows <> [] ->
      Forall (fun r => length r = 1%nat) qrows ->
      exists X',
        _check_input (Arr2 1 qrows) example_model = (Ok (X', length qrows), example_model) /\
        find_nodes X' (length qrows) (-1) example_model
        = (Ok (AllTrees
                 (map (fun r => map (fun t : tree => t r) [stump 2; stump 4])
                      [[1]; [3]; [5]])
                 (map (fun r => map (fun t : tree => t r) [stump 2; stump 4]) qrows)),
           example_model)) /\
  (forall v,
      1%nat = 1%nat ->
      v <> [] ->
      exists X',
        _check_input (Arr1 v) example_model = (Ok (X', length v), example_model) /\
        find_nodes X' (length v) (-1) example_model
        = (Ok (AllTrees
                 (map (fun r => map (fun t : tree => t r) [stump 2; stump 4])
                      [[1]; [3]; [5]])
                 (map (fun r => map (fun t : tree => t r) [stump 2; stump 4])
                      (map (fun x => [x]) v))),
           example_model)).
Proof.
  apply (X13_query_rows_through_every_tree example_grow 1 [[1]; [3]; [5]] example_y
           QuantileForest_new example_model [stump 2; stump 4] (-1)).
  - exact example_model_fit.
  - reflexivity.
  - reflexivity.
Defined.
(** ** The quantiles of the optimization strategy *)

Lemma map_result_Forall {A B : Type} (f : A -> result B) (P : B -> Prop) (xs : list A) :
  (forall x y, f x = Ok y -> P y) ->
  forall ys, map_result f xs = Ok ys -> Forall P ys.
Proof.
  intros HP. induction xs as [|x xs IH]; intros ys; simpl.
  - intros [= <-]. constructor.
  - destruct (f x) as [y|e] eqn:Hy; [|discriminate].
    destruct (map_result f xs) as [ys'|e]; [|discriminate].
    intros [= <-]. constructor; [apply (HP x y Hy) | apply IH; reflexivity].
Qed.

Lemma concat_lookup_uniform {A : Type} (m : nat) (rows : list (list A)) :
  Forall (fun row => length row = m) rows ->
  forall k i row v,
    rows !! k = Some row -> row !! i = Some v ->
    concat rows !! (k * m + i)%nat = Some v.
Proof.
  induction 1 as [|r rows Hr Hrows IH]; intros k i row v Hk Hi; [discriminate|].
  destruct k as [|k]; simpl in *.
  - injection Hk as ->. apply lookup_app_l_Some. exact Hi.
  - rewrite lookup_app_r by lia.
    replace (m + k * m + i - length r)%nat with (k * m + i)%nat by lia.
    apply (IH k i row v Hk Hi).
Qed.

(** Reading an entry of the packed result. *)
Lemma pack_result_entry n m rows r k i row v :
  length rows = n ->
  Forall (fun row => length row = m) rows ->
  pack_result n m rows = Ok r ->
  rows !! k = Some row -> row !! i = Some v ->
  quantile_at m r k i = Some v.
Proof.
  intros Hn Hall Hpack Hk Hi.
  assert (Hkn : (k < n)%nat) by (rewrite <- Hn; apply lookup_lt_Some in Hk; exact Hk).
  assert (Him : (i < m)%nat).
  { apply lookup_lt_Some in Hi. rewrite List.Forall_forall in Hall.
    rewrite <- (Hall row); [exact Hi|]. apply list_elem_of_In.
    apply (list_elem_of_lookup_2 _ _ _ Hk). }
  unfold pack_result in Hpack.
  destruct (Nat.eqb_spec n 1) as [Hn1|Hn1]; destruct (Nat.eqb_spec m 1) as [Hm1|Hm1];
    simpl in Hpack.
  - destruct rows as [|[|x row0] rest]; try discriminate. injection Hpack as <-.
    assert (k = 0%nat) as -> by lia. assert (i = 0%nat) as -> by lia.
    simpl in Hk. injection Hk as <-. simpl in Hi. simpl. exact Hi.
  - injection Hpack as <-. simpl. apply (concat_lookup_uniform m rows Hall k i row v Hk Hi).
  - injection Hpack as <-. simpl. apply (concat_lookup_uniform m rows Hall k i row v Hk Hi).
  - injection Hpack as <-. simpl. rewrite Hk. exact Hi.
Qed.

Lemma pack_result_total n m rows :
  length rows = n ->
  Forall (fun row => length row = m) rows ->
  exists r, pack_result n m rows = Ok r.
Proof.
  intros Hn Hall. unfold pack_result.
  destruct (Nat.eqb_spec n 1) as [Hn1|Hn1]; destruct (Nat.eqb_spec m 1) as [Hm1|Hm1];
    simpl; try (eexists; reflexivity).
  destruct rows as [|row rest]; [simpl in Hn; lia|].
  inversion Hall as [|? ? Hrow _]; subst.
  destruct row as [|x row]; [simpl in Hrow; lia|].
  eexists. reflexivity.
Qed.

Section Optimization.

Variable np_percentile : list Q -> list Q -> result (list Q).
Variable fmin_cobyla : (Q -> result Q) -> Q -> (Q -> result fnum) -> result Q.
Variable fmin_slsqp : (Q -> result Q) -> Q -> (Q -> result fnum) -> Q -> result Q.

Local Abbreviation computeQuantile' := (computeQuantile np_percentile fmin_cobyla fmin_slsqp).
Local Abbreviation optimize' := (optimize fmin_cobyla fmin_slsqp).

(** X14: when a call on the optimization path returns, the quantile of
    query point [k] at level number [i] is the value that the optimizer of
    [opt_method] returned for the objective [_optFunc] and the constraint
    [_ieqFunc] with the weights of point [k] and the level [alpha[i]],
    started at entry [i] of the percentiles of the outputs of non-zero
    weight taken at [100 * alpha]; "SQP" runs with the step [0.1 * |y0[i]|].
    Row [k] and column [i] of the result belong to point [k] and level [i]. *)
Theorem X14_optimization_result_entries
    (X : ndarray) (al : list Q) (o : options) (self : obj)
    (X' : ndarray) (n : nat) (nd : nodes) (ys : list Q) (r : pyfloats) :
  do_optim o = true ->
  doSaveCDF o = false ->
  attrs self !! "_output_sample" = Some (VSeries ys) ->
  _check_input X self = (Ok (X', n), self) ->
  find_nodes X' n (iTree o) self = (Ok nd, self) ->
  fst (computeQuantile' (QArray X (AList al)) o self) = Ok r ->
  forall k i a,
    (k < n)%nat ->
    al !! i = Some a ->
    exists w y0 x0 x,
      weight_of nd k = Ok w /\
      np_percentile (mask_select (map fne0 w) ys) (map (Qmult 100) al) = Ok y0 /\
      y0 !! i = Some x0 /\
      ((opt_method o = "Cobyla" /\
        fmin_cobyla (fun yi => Ok (optFunc_value ys yi w a)) x0
                    (fun yi => Ok (ieqFunc_value ys yi w a)) = Ok x) \/
       (opt_method o = "SQP" /\
        fmin_slsqp (fun yi => Ok (optFunc_value ys yi w a)) x0
                   (fun yi => Ok (ieqFunc_value ys yi w a))
                   ((1 # 10) * Qabs x0) = Ok x)) /\
      quantile_at (length al) r k i = Some (Fin x).
Proof.
  intros Ho Hs Hys Hci Hfind Hr k i a Hk Hi.
  rewrite (computeQuantile_run _ _ _ X al o self X' n nd ys Ho Hs Hys Hci Hfind) in Hr.
  simpl in Hr.
  destruct (map_result _ (seq 0 n)) as [rows|e] eqn:Hrows; [|discriminate].
  pose proof (map_result_length _ _ _ Hrows) as Hlen. rewrite length_seq in Hlen.
  assert (Hall : Forall (fun row : list fnum => length row = length al) rows).
  { refine (map_result_Forall _ _ _ _ _ Hrows). intros k0 row H. simpl in H.
    destruct (weight_of nd k0) as [w|e]; [|discriminate].
    destruct (np_percentile _ _) as [y0|e]; [|discriminate].
    apply map_result_from_lookup in H as [H _]. exact H. }
  destruct (map_result_lookup _ _ _ Hrows k k) as (row & Hrow & Hrk).
  { apply lookup_seq. split; [reflexivity | exact Hk]. }
  destruct (weight_of nd k) as [w|e]; [|discriminate].
  destruct (np_percentile _ _) as [y0|e] eqn:Hy0; [|discriminate].
  destruct (map_result_from_lookup _ _ _ _ Hrow) as [_ Hent].
  destruct (Hent i a Hi) as (v & Hv & Hri). simpl in Hv.
  rewrite (optimize_run _ _ o w y0 i a ys self Hys) in Hv.
  pose proof (pack_result_entry n (length al) rows r k i row v Hlen Hall Hr Hrk Hri) as Hq.
  destruct (String.eqb_spec (opt_method o) "Cobyla") as [Hm|Hm].
  - destruct (y0 !! i) as [x0|] eqn:Hx0; [|discriminate].
    destruct (fmin_cobyla _ x0 _) as [x|e] eqn:Hx; [|discriminate].
    injection Hv as <-. exists w, y0, x0, x. repeat split; try assumption.
    left. split; assumption.
  - destruct (String.eqb_spec (opt_method o) "SQP") as [Hm'|Hm']; [|discriminate].
    destruct (y0 !! i) as [x0|] eqn:Hx0; [|discriminate].
    destruct (fmin_slsqp _ x0 _ _) as [x|e] eqn:Hx; [|discriminate].
    injection Hv as <-. exists w, y0, x0, x. repeat split; try assumption.
    right. split; assumption.
Qed.

(** X15: a call on the optimization path with "Cobyla" returns, and leaves
    the object unchanged, as soon as the percentile and the optimizer return
    wherever the loops call them: for every query point the percentiles of
    its outputs of non-zero weight, with one entry per level, and for every
    level the optimizer started at its entry. *)
Theorem X15_optimization_returns
    (X : ndarray) (al : list Q) (o : options) (self : obj)
    (X' : ndarray) (n : nat) (nd : nodes) (ys : list Q) :
  do_optim o = true ->
  doSaveCDF o = false ->
  opt_method o = "Cobyla" ->
  attrs self !! "_output_sample" = Some (VSeries ys) ->
  _check_input X self = (Ok (X', n), self) ->
  find_nodes X' n (iTree o) self = (Ok nd, self) ->
  (forall k, (k < n)%nat ->
     exists w y0,
       weight_of nd k = Ok w /\
       np_percentile (mask_select (map fne0 w) ys) (map (Qmult 100) al) = Ok y0 /\
       forall i a, al !! i = Some a ->
         exists x0, y0 !! i = Some x0 /\
                    is_Ok (fmin_cobyla (fun yi => Ok (optFunc_value ys yi w a)) x0
                                       (fun yi => Ok (ieqFunc_value ys yi w a)))) ->
  exists r, computeQuantile' (QArray X (AList al)) o self = (Ok r, self).
Proof.
  intros Ho Hs Hm Hys Hci Hfind Hall.
  rewrite (computeQuantile_run _ _ _ X al o self X' n nd ys Ho Hs Hys Hci Hfind).
  destruct (map_result_total
              (fun k =>
                 match weight_of nd k with
                 | Raise e => Raise e
                 | Ok w =>
                     match np_percentile (mask_select (map fne0 w) ys)
                                         (map (Qmult 100) al) with
                     | Raise e => Raise e
                     | Ok y0 =>
                         map_result_from (fun j a => fst (optimize' o w y0 j a self)) 0 al
                     end
                 end) (seq 0 n)) as [rows Hrows].
  { intros k Hk. apply in_seq in Hk.
    destruct (Hall k) as (w & y0 & -> & -> & Hopt); [lia|].
    destruct (map_result_from_total (fun j a => fst (optimize' o w y0 j a self)) al 0)
      as [vs ->]; [|exact I].
    intros j a Hj. simpl.
    rewrite (optimize_run _ _ o w y0 j a ys self Hys), Hm. simpl.
    destruct (Hopt j a Hj) as (x0 & -> & Hok).
    destruct (fmin_cobyla _ x0 _); [exact I | destruct Hok]. }
  rewrite Hrows.
  pose proof (map_result_length _ _ _ Hrows) as Hlen. rewrite length_seq in Hlen.
  assert (Hshape : Forall (fun row : list fnum => length row = length al) rows).
  { refine (map_result_Forall _ _ _ _ _ Hrows). intros k0 row H. simpl in H.
    destruct (weight_of nd k0) as [w|e]; [|discriminate].
    destruct (np_percentile _ _) as [y0|e]; [|discriminate].
    apply map_result_from_lookup in H as [H _]. exact H. }
  destruct (pack_result_total n (length al) rows Hlen Hshape) as [r ->].
  exists r. reflexivity.
Qed.

(** X16: the call of the example script.  On the model that [fit] leaves
    for a training matrix with one column, [computeQuantile(x, alpha)] with
    two floats and the default options sends [x] through every tree, weighs
    the training outputs by the forest, takes the percentile of the outputs
    of non-zero weight at [100 * alpha] as starting point, and returns as a
    float what Cobyla returns for the pinball objective under the
    constraint; the model is unchanged. *)
Theorem X16_fit_then_scalar_query
    (grow : list (list Q) -> list Q -> result (list tree))
    (rows : list (list Q)) (y : list Q) (self0 self : obj) (trees : list tree)
    (x a : Q) (y0 : list Q) (x0 q : Q) :
  fit grow (Arr2 1 rows) y self0 = (Ok tt, self) ->
  grow rows y = Ok trees ->
  np_percentile
    (mask_select
       (map fne0 (forest_weight (map (fun r => map (fun t : tree => t r) trees) rows)
                                (map (fun t : tree => t [x]) trees))) y)
    [100 * a] = Ok y0 ->
  y0 !! 0%nat = Some x0 ->
  fmin_cobyla
    (fun yi => Ok (optFunc_value y yi
                     (forest_weight (map (fun r => map (fun t : tree => t r) trees) rows)
                                    (map (fun t : tree => t [x]) trees)) a))
    x0
    (fun yi => Ok (ieqFunc_value y yi
                     (forest_weight (map (fun r => map (fun t : tree => t r) trees) rows)
                                    (map (fun t : tree => t [x]) trees)) a))
  = Ok q ->
  computeQuantile' (QScalar x a) default_options self = (Ok (RScalar (Fin q)), self).
Proof.
  intros Hfit Hgrow Hy0 Hx0 Hq.
  destruct (fit_state _ _ _ _ _ _ _ Hfit Hgrow) as (Ht & Hc & Hd & Hys & Hl).
  destruct (query_nodes 1 trees _ (-1) self Ht Hc Hd Hl eq_refl) as [_ Hvec].
  destruct (Hvec [x] eq_refl) as (X' & Hci & Hfind); [discriminate|].
  change (computeQuantile' (QScalar x a) default_options self)
    with (computeQuantile' (QArray (Arr1 [x]) (AList [a])) default_options self).
  rewrite (computeQuantile_run _ _ _ (Arr1 [x]) [a] default_options self X' 1 _ y
             eq_refl eq_refl Hys Hci Hfind).
  simpl. rewrite Hy0.
  rewrite (optimize_run _ _ default_options _ y0 0 a y self Hys). simpl.
  rewrite Hx0, Hq. reflexivity.
Qed.

End Optimization.
Lemma X14_optimization_result_entries_witness :
  exists w y0 x0 x,
    weight_of (AllTrees [[1%Z; 1%Z]; [2%Z; 1%Z]; [2%Z; 2%Z]] [[1%Z; 1%Z]; [2%Z; 1%Z]]) 1
    = Ok w /\
    example_percentile (mask_select (map fne0 w) example_y)
                       (map (Qmult 100) [1 # 2; 9 # 10]) = Ok y0 /\
    y0 !! 1%nat = Some x0 /\
    ((opt_method default_options = "Cobyla" /\
      example_cobyla (fun yi => Ok (optFunc_value example_y yi w (9 # 10))) x0
                     (fun yi => Ok (ieqFunc_value example_y yi w (9 # 10))) = Ok x) \/
     (opt_method default_options = "SQP" /\
      example_slsqp (fun yi => Ok (optFunc_value example_y yi w (9 # 10))) x0
                    (fun yi => Ok (ieqFunc_value example_y yi w (9 # 10)))
                    ((1 # 10) * Qabs x0) = Ok x)) /\
    quantile_at (length [1 # 2; 9 # 10])
      (RMatrix 2 2 [[Fin (4000 # 200); Fin 28.000]; [Fin (6000 # 200); Fin 46.000]])
      1 1 = Some (Fin x).
Proof.
  apply (X14_optimization_result_entries example_percentile example_cobyla example_slsqp
           (Arr2 1 [[1]; [4]]) [1 # 2; 9 # 10] default_options example_model
           (Arr2 1 [[1]; [4]]) 2
           (AllTrees [[1%Z; 1%Z]; [2%Z; 1%Z]; [2%Z; 2%Z]] [[1%Z; 1%Z]; [2%Z; 1%Z]])
           example_y
           (RMatrix 2 2 [[Fin (4000 # 200); Fin 28.000]; [Fin (6000 # 200); Fin 46.000]])
           eq_refl eq_refl eq_refl eq_refl eq_refl eq_refl 1%nat 1%nat (9 # 10)).
  - lia.
  - reflexivity.
Defined.

Lemma X15_optimization_returns_witness :
  exists r,
    computeQuantile example_percentile example_cobyla example_slsqp
      (QArray (Arr2 1 [[1]; [4]]) (AList [1 # 2; 9 # 10])) default_options example_model
    = (Ok r, example_model).
Proof.
  apply (X15_optimization_returns example_percentile example_cobyla example_slsqp
           (Arr2 1 [[1]; [4]]) [1 # 2; 9 # 10] default_options example_model
           (Arr2 1 [[1]; [4]]) 2
           (AllTrees [[1%Z; 1%Z]; [2%Z; 1%Z]; [2%Z; 2%Z]] [[1%Z; 1%Z]; [2%Z; 1%Z]])
           example_y).
  - reflexivity.
  - reflexivity.
  - reflexivity.
  - reflexivity.
  - reflexivity.
  - reflexivity.
  - intros [|[|k]] Hk; [| |lia].
    + eexists. eexists. split; [reflexivity|]. split; [vm_compute; reflexivity|].
      intros [|[|[|i]]] a Hi; simpl in Hi; try discriminate;
        injection Hi as <-; eexists; (split; [reflexivity | vm_compute; exact I]).
    + eexists. eexists. split; [reflexivity|]. split; [vm_compute; reflexivity|].
      intros [|[|[|i]]] a Hi; simpl in Hi; try discriminate;
        injection Hi as <-; eexists; (split; [reflexivity | vm_compute; exact I]).
Defined.

Lemma X16_fit_then_scalar_query_witness :
  computeQuantile example_percentile example_cobyla example_slsqp
    (QScalar 2 (1 # 2)) default_options example_model
  = (Ok (RScalar (Fin (4000 # 200))), example_model).
Proof.
  apply (X16_fit_then_scalar_query example_percentile example_cobyla example_slsqp
           example_grow [[1]; [3]; [5]] example_y QuantileForest_new example_model
           [stump 2; stump 4] 2 (1 # 2) [4000 # 200] (4000 # 200) (4000 # 200)).
  - exact example_model_fit.
  - reflexivity.
  - reflexivity.
  - reflexivity.
  - reflexivity.
Defined.
(** ** [setPrecisionOfCDF] on an object that has the attributes it reads *)

Lemma fold_min_le_all (y : Q) (ys : list Q) (z : Q) :
  In z (y :: ys) -> fold_right Qmin y ys <= z.
Proof.
  induction ys as [|a ys IH]; simpl.
  - intros [<- | []]. lra.
  - intros [<- | [<- | Hz]].
    + pose proof (Q.le_min_r a (fold_right Qmin y ys)).
      pose proof (IH (or_introl eq_refl)). lra.
    + apply Q.le_min_l.
    + pose proof (Q.le_min_r a (fold_right Qmin y ys)).
      pose proof (IH (or_intror Hz)). lra.
Qed.

Lemma fold_min_In (y : Q) (ys : list Q) : In (fold_right Qmin y ys) (y :: ys).
Proof.
  induction ys as [|a ys IH]; [left; reflexivity|].
  cbn [fold_right].
  assert (H : Qmin a (fold_right Qmin y ys) = a
              \/ Qmin a (fold_right Qmin y ys) = fold_right Qmin y ys).
  { generalize (fold_right Qmin y ys). intros b.
    unfold Qmin, GenericMinMax.gmin. destruct (a ?= b); auto. }
  destruct H as [-> | ->]; simpl in *; tauto.
Qed.

Lemma fold_max_In (y : Q) (ys : list Q) : In (fold_right Qmax y ys) (y :: ys).
Proof.
  induction ys as [|a ys IH]; [left; reflexivity|].
  cbn [fold_right].
  assert (H : Qmax a (fold_right Qmax y ys) = a
              \/ Qmax a (fold_right Qmax y ys) = fold_right Qmax y ys).
  { generalize (fold_right Qmax y ys). intros b.
    unfold Qmax, GenericMinMax.gmax. destruct (a ?= b); auto. }
  destruct H as [-> | ->]; simpl in *; tauto.
Qed.

(** X17: on an object on which [_outputSample] holds the training outputs
    and [_numSample] their number, [setPrecisionOfCDF(n_points)] returns and
    binds [_yCDF] to a nondecreasing grid: a rearrangement of the outputs
    when [n_points = 0], and otherwise [n_points] values evenly spaced from
    [lo] to [hi], where [lo] is the smallest and [hi] the largest training
    output (what [min()] and [max()] return): the one value [lo] for one
    point, and [lo + i * (hi - lo) / (n_points - 1)] at position [i] from
    two points on.  [_infYY] gets one row per grid value and one column per
    training output, true where the output is at most the grid value.
    Nothing else in the object changes. *)
Theorem X17_setPrecisionOfCDF_grid (ys : list Q) (n_points : nat) (self : obj) :
  ys <> [] ->
  attrs self !! "_outputSample" = Some (VSeries ys) ->
  attrs self !! "_numSample" = Some (VInt (length ys)) ->
  exists self' gq lo hi,
    setPrecisionOfCDF n_points self = (Ok tt, self') /\
    attrs self' !! "_yCDF" = Some (VGrid (map Fin gq)) /\
    attrs self' !! "_infYY"
    = Some (VMask (map (fun g => map (fun y => Qleb y g) ys) gq)) /\
    StronglySorted Qle gq /\
    (n_points = 0%nat -> Permutation ys gq) /\
    (n_points <> 0%nat -> length gq = n_points) /\
    series_min ys = Fin lo /\
    series_max ys = Fin hi /\
    In lo ys /\
    In hi ys /\
    (forall y, In y ys -> lo <= y <= hi) /\
    (n_points = 1%nat -> exists g, gq = [g] /\ g == lo) /\
    (forall i g, (2 <= n_points)%nat -> gq !! i = Some g ->
                 g == lo + inject_Z (Z.of_nat i)
                           * ((hi - lo) / inject_Z (Z.of_nat (n_points - 1)))) /\
    (forall name, name <> "_yCDF" -> name <> "_infYY" ->
                  attrs self' !! name = attrs self !! name) /\
    estimators_ self' = estimators_ self /\
    n_features_ self' = n_features_ self /\
    bootstrap self' = bootstrap self.
Proof.
  intros Hne Hout Hnum.
  assert (Hgrid : exists gq lo hi,
             build_grid ys n_points = map Fin gq /\
             StronglySorted Qle gq /\
             (n_points = 0%nat -> Permutation ys gq) /\
             (n_points <> 0%nat -> length gq = n_points) /\
             series_min ys = Fin lo /\
             series_max ys = Fin hi /\
             In lo ys /\
             In hi ys /\
             (forall y, In y ys -> lo <= y <= hi) /\
             (n_points = 1%nat -> exists g, gq = [g] /\ g == lo) /\
             (forall i g, (2 <= n_points)%nat -> gq !! i = Some g ->
                          g == lo + inject_Z (Z.of_nat i)
                                    * ((hi - lo) / inject_Z (Z.of_nat (n_points - 1))))).
  { destruct ys as [|y ys]; [congruence|].
    assert (Hb : forall z, In z (y :: ys) ->
                           fold_right Qmin y ys <= z <= fold_right Qmax y ys).
    { intros z Hz. split; [apply fold_min_le_all | apply fold_max_ge_all]; exact Hz. }
    pose proof (fold_min_In y ys) as Hlo.
    pose proof (fold_max_In y ys) as Hhi.
    unfold build_grid. destruct (Nat.eqb_spec n_points 0) as [Hz|Hnz].
    - exists (sort_values (y :: ys)), (fold_right Qmin y ys), (fold_right Qmax y ys).
      split; [reflexivity|]. split; [apply sort_values_sorted|].
      split; [intros _; apply sort_values_perm|].
      split; [intros H; contradiction|].
      split; [reflexivity|]. split; [reflexivity|].
      split; [exact Hlo|]. split; [exact Hhi|]. split; [exact Hb|].
      split; [intros H; lia | intros i g Hi; lia].
    - simpl series_min. simpl series_max.
      destruct (linspace_values (fold_right Qmin y ys) (fold_right Qmax y ys) n_points)
        as (gq & Heq & Hlen & Hs & Hval).
      exists gq, (fold_right Qmin y ys), (fold_right Qmax y ys).
      split; [exact Heq|]. split.
      { apply Hs. destruct (Hb y (or_introl eq_refl)). lra. }
      split; [intros H; contradiction|]. split; [intros _; exact Hlen|].
      split; [reflexivity|]. split; [reflexivity|].
      split; [exact Hlo|]. split; [exact Hhi|]. split; [exact Hb|].
      split; [|exact Hval].
      intros ->. destruct gq as [|g [|g' gq]]; try discriminate.
      exists g. split; [reflexivity|].
      simpl in Heq. injection Heq as <-.
      change (inject_Z (Z.of_nat 0)) with 0. lra. }
  destruct Hgrid as (gq & lo & hi & Hg & Hs & Hp & Hl & Hmin & Hmax & Hlo & Hhi & Hb & H1 & Hv).
  exists (set_attrs (fun m => <["_infYY" := VMask (build_infYY ys (build_grid ys n_points))]>
                       (<["_yCDF" := VGrid (build_grid ys n_points)]> m)) self),
    gq, lo, hi.
  split.
  { unfold setPrecisionOfCDF, get_series, get_int, get_grid, bind, getattr, setattr,
      ret, raise, set_attrs.
    rewrite Hout. simpl.
    rewrite (lookup_insert_ne _ "_yCDF" "_outputSample") by discriminate.
    rewrite Hout. simpl.
    rewrite (lookup_insert_ne _ "_yCDF" "_numSample") by discriminate.
    rewrite Hnum, Nat.eqb_refl. simpl.
    rewrite lookup_insert_eq. reflexivity. }
  simpl. split.
  { rewrite lookup_insert_ne by discriminate. rewrite lookup_insert_eq, Hg. reflexivity. }
  split.
  { rewrite lookup_insert_eq, build_infYY_rows, Hg, map_map. reflexivity. }
  repeat split; try assumption; try apply Hb; try assumption.
  intros name H2 H3. rewrite !lookup_insert_ne by congruence. reflexivity.
Qed.

(** X18: [setPrecisionOfCDF] is not atomic.  Where [_outputSample] is bound
    and [_numSample] is not the number of outputs, it raises, a
    [ValueError] for another number and an [AttributeError] where the
    attribute is missing, after it has already replaced [_yCDF]; [_infYY]
    and everything else are left as they were, so the grid and the
    indicator matrix no longer belong together. *)
Theorem X18_setPrecisionOfCDF_failure_partial_update
    (ys : list Q) (n_points : nat) (self : obj) :
  attrs self !! "_outputSample" = Some (VSeries ys) ->
  attrs self !! "_numSample" <> Some (VInt (length ys)) ->
  exists e self',
    setPrecisionOfCDF n_points self = (Raise e, self') /\
    attrs self' !! "_yCDF" = Some (VGrid (build_grid ys n_points)) /\
    (forall name, name <> "_yCDF" -> attrs self' !! name = attrs self !! name) /\
    (attrs self !! "_numSample" = None -> e = AttributeError "_numSample") /\
    (forall m, attrs self !! "_numSample" = Some (VInt m) ->
               e = ValueError "total size of new array must be unchanged").
Proof.
  intros Hout Hnum.
  unfold setPrecisionOfCDF, get_series, get_int, get_grid, bind, getattr, setattr,
    ret, raise, set_attrs.
  rewrite Hout. simpl.
  rewrite (lookup_insert_ne _ "_yCDF" "_outputSample") by discriminate.
  rewrite Hout. simpl.
  rewrite (lookup_insert_ne _ "_yCDF" "_numSample") by discriminate.
  assert (Hframe : forall v name, name <> "_yCDF" ->
             (<["_yCDF" := v]> (attrs self)) !! name = attrs self !! name).
  { intros v name Hn. rewrite lookup_insert_ne by congruence. reflexivity. }
  destruct (attrs self !! "_numSample") as [[m| | | | | | |]|] eqn:Hm;
    try (eexists; eexists; split; [reflexivity|]; simpl;
         split; [apply lookup_insert_eq|];
         split; [apply Hframe|];
         split; [discriminate | intros m' Hm'; discriminate]).
  - destruct (Nat.eqb_spec m (length ys)) as [->|Hneq]; [congruence|].
    eexists. eexists. split; [reflexivity|]. simpl.
    split; [apply lookup_insert_eq|]. split; [apply Hframe|].
    split; [discriminate | intros; reflexivity].
  - eexists. eexists. split; [reflexivity|]. simpl.
    split; [apply lookup_insert_eq|]. split; [apply Hframe|].
    split; [intros; reflexivity | intros; discriminate].
Qed.

Lemma X17_setPrecisionOfCDF_grid_witness :
  exists self' gq lo hi,
    setPrecisionOfCDF 3 oob_view = (Ok tt, self') /\
    attrs self' !! "_yCDF" = Some (VGrid (map Fin gq)) /\
    attrs self' !! "_infYY"
    = Some (VMask (map (fun g => map (fun y => Qleb y g) [10; 30]) gq)) /\
    StronglySorted Qle gq /\
    (3%nat = 0%nat -> Permutation [10; 30] gq) /\
    (3%nat <> 0%nat -> length gq = 3%nat) /\
    series_min [10; 30] = Fin lo /\
    series_max [10; 30] = Fin hi /\
    In lo [10; 30] /\
    In hi [10; 30] /\
    (forall y, In y [10; 30] -> lo <= y <= hi) /\
    (3%nat = 1%nat -> exists g, gq = [g] /\ g == lo) /\
    (forall i g, (2 <= 3)%nat -> gq !! i = Some g ->
                 g == lo + inject_Z (Z.of_nat i)
                           * ((hi - lo) / inject_Z (Z.of_nat (3 - 1)))) /\
    (forall name, name <> "_yCDF" -> name <> "_infYY" ->
                  attrs self' !! name = attrs oob_view !! name) /\
    estimators_ self' = estimators_ oob_view /\
    n_features_ self' = n_features_ oob_view /\
    bootstrap self' = bootstrap oob_view.
Proof.
  apply (X17_setPrecisionOfCDF_grid [10; 30] 3 oob_view).
  - discriminate.
  - reflexivity.
  - reflexivity.
Defined.

Lemma X18_setPrecisionOfCDF_failure_partial_update_witness :
  exists e self',
    setPrecisionOfCDF 0 (Obj None 0 true {[ "_outputSample" := VSeries [3; 1; 2] ]})
    = (Raise e, self') /\
    attrs self' !! "_yCDF" = Some (VGrid (build_grid [3; 1; 2] 0)) /\
    (forall name, name <> "_yCDF" ->
       attrs self' !! name
       = attrs (Obj None 0 true {[ "_outputSample" := VSeries [3; 1; 2] ]}) !! name) /\
    (attrs (Obj None 0 true {[ "_outputSample" := VSeries [3; 1; 2] ]}) !! "_numSample"
     = None -> e = AttributeError "_numSample") /\
    (forall m,
       attrs (Obj None 0 true {[ "_outputSample" := VSeries [3; 1; 2] ]}) !! "_numSample"
       = Some (VInt m) ->
       e = ValueError "total size of new array must be unchanged").
Proof.
  apply (X18_setPrecisionOfCDF_failure_partial_update [3; 1; 2] 0
           (Obj None 0 true {[ "_outputSample" := VSeries [3; 1; 2] ]})).
  - reflexivity.
  - discriminate.
Defined.
(** ** Levels outside the range of the distribution function *)

Section OutOfRange.

Variable np_percentile : list Q -> list Q -> result (list Q).
Variable fmin_cobyla : (Q -> result Q) -> Q -> (Q -> result fnum) -> result Q.
Variable fmin_slsqp : (Q -> result Q) -> Q -> (Q -> result fnum) -> Q -> result Q.

Local Abbreviation quantile_row' := (quantile_row np_percentile fmin_cobyla fmin_slsqp).

(** X19: the inversion branch of [computeQuantile], run after
    [setPrecisionOfCDF] on non-empty outputs, with finite non-negative
    weights.  A level above the sum of the weights (above 1 for normalized
    weights) is reached by no grid value and raises [IndexError]; a level
    that is not positive is reached at once and gives the first grid value,
    which is the smallest. *)
Theorem X19_inversion_level_out_of_range
    (ys wq : list Q) (n_points : nat) (a : Q)
    (o : options) (k : nat) (row : list fnum) (self : obj) :
  ys <> [] ->
  length wq = length ys ->
  Forall (Qle 0) wq ->
  do_optim o = false ->
  attrs self !! "_outputSample" = Some (VSeries ys) ->
  attrs self !! "_numSample" = Some (VInt (length ys)) ->
  (doSaveCDF o = true -> exists cdf, attrs self !! "_CDF" = Some (VArray cdf)) ->
  exists self1,
    setPrecisionOfCDF n_points self = (Ok tt, self1) /\
    (Qsum wq < a ->
     fst (quantile_row' o (AList [a]) (map Fin wq) k row self1)
     = Raise (IndexError "index 0 is out of bounds for axis 0 with size 0")) /\
    (a <= 0 ->
     exists g0 rest,
       build_grid ys n_points = Fin g0 :: map Fin rest /\
       Forall (Qle g0) rest /\
       fst (quantile_row' o (AList [a]) (map Fin wq) k row self1) = Ok [Fin g0]).
Proof.
  intros Hne Hlen Hw Ho Hout Hnum Hcdf.
  destruct (inversion_branch_run np_percentile fmin_cobyla fmin_slsqp
              ys n_points o self Hne Ho Hout Hnum Hcdf)
    as (self1 & gq & Hrun & Hgrid & Hsorted & _ & _ & Hrow).
  exists self1. split; [exact Hrun|]. rewrite Hrow. split.
  - intros Ha. apply (inversion_not_reached (weighted_cdf ys wq)).
    exists a. split; [left; reflexivity|]. intros g _.
    pose proof (weighted_cdf_bounds ys wq g Hlen Hw). lra.
  - intros Ha.
    destruct gq as [|g0 rest].
    + exfalso. unfold build_grid in Hgrid.
      destruct (Nat.eqb n_points 0) eqn:E.
      * apply (f_equal (@length fnum)) in Hgrid. rewrite length_map in Hgrid.
        rewrite <- (Permutation_length (sort_values_perm ys)) in Hgrid.
        destruct ys; [congruence | discriminate].
      * destruct ys as [|y ys]; [congruence|]. simpl in Hgrid.
        destruct (linspace_values (fold_right Qmin y ys) (fold_right Qmax y ys) n_points)
          as (gq' & Heq & Hl & _).
        rewrite Heq in Hgrid. apply (f_equal (@length fnum)) in Hgrid.
        rewrite length_map, Hl in Hgrid. simpl in Hgrid. apply Nat.eqb_neq in E. lia.
    + exists g0, rest. split; [exact Hgrid|].
      inversion Hsorted as [|? ? _ Hall]; subst. split; [exact Hall|].
      cbn [map_result]. unfold first_reaching. cbn [map mask_select]. rewrite fge_Fin.
      assert (E : Qleb a (weighted_cdf ys wq g0) = true).
      { apply Qleb_true. pose proof (weighted_cdf_bounds ys wq g0 Hlen Hw). lra. }
      rewrite E. reflexivity.
Qed.

End OutOfRange.

Lemma X19_inversion_level_out_of_range_witness :
  exists self1,
    setPrecisionOfCDF 0 oob_view = (Ok tt, self1) /\
    fst (quantile_row example_percentile example_cobyla example_slsqp
           (Options false false 0 "Cobyla") (AList [3 # 2]) (map Fin [1 # 2; 1 # 2])
           0 [Fin 0] self1)
    = Raise (IndexError "index 0 is out of bounds for axis 0 with size 0").
Proof.
  destruct (X19_inversion_level_out_of_range
              example_percentile example_cobyla example_slsqp
              [10; 30] [1 # 2; 1 # 2] 0 (3 # 2) (Options false false 0 "Cobyla") 0 [Fin 0]
              oob_view) as (self1 & Hrun & Habove & _).
  - discriminate.
  - reflexivity.
  - repeat constructor; discriminate.
  - reflexivity.
  - reflexivity.
  - reflexivity.
  - discriminate.
  - exists self1. split; [exact Hrun|]. apply Habove. reflexivity.
Defined.
(** ** Weights of the training samples *)

(** X20: the weights of the single-tree mode.  When the leaf [x] of the
    query holds [occ > 0] of the samples, every sample of that leaf weighs
    [1 / occ], every other sample weighs 0, and the weights sum to 1. *)
Theorem X20_single_tree_weights_uniform (sample_node : list Z) (x : Z) :
  count_true (map (fun s => Z.eqb s x) sample_node) <> 0%nat ->
  exists wq,
    tree_weight sample_node x = map Fin wq /\
    (forall k s, sample_node !! k = Some s ->
       exists v, wq !! k = Some v /\
                 v == (if Z.eqb s x
                       then 1 / inject_Z (Z.of_nat
                                  (count_true (map (fun s => Z.eqb s x) sample_node)))
                       else 0)) /\
    Forall (Qle 0) wq /\
    Qsum wq == 1.
Proof.
  intros Hocc.
  set (occ := count_true (map (fun s => Z.eqb s x) sample_node)) in *.
  pose proof (inject_nat_pos occ Hocc) as Hpos.
  exists (map (fun s => b2q (Z.eqb s x) / inject_Z (Z.of_nat occ)) sample_node).
  split; [|split; [|split]].
  - unfold tree_weight. fold occ. rewrite !map_map. apply map_ext. intros s.
    unfold fdiv, of_nat. rewrite Qeq_bool_nat_false by exact Hocc. reflexivity.
  - intros k s Hk. rewrite list_lookup_fmap, Hk. simpl. eexists. split; [reflexivity|].
    destruct (Z.eqb s x); simpl; [reflexivity|]. field. lra.
  - apply List.Forall_forall. intros v Hv. apply in_map_iff in Hv as (s & <- & _).
    apply Qle_shift_div_l; [exact Hpos|]. destruct (Z.eqb s x); simpl; lra.
  - unfold Qdiv.
    rewrite (Qsum_scale (fun s => b2q (Z.eqb s x)) (/ inject_Z (Z.of_nat occ))).
    rewrite Qsum_b2q_count. fold occ. field. lra.
Qed.

Lemma X20_single_tree_weights_uniform_witness :
  exists wq,
    tree_weight [1%Z; 2%Z; 1%Z] 1%Z = map Fin wq /\
    (forall k s, [1%Z; 2%Z; 1%Z] !! k = Some s ->
       exists v, wq !! k = Some v /\
                 v == (if Z.eqb s 1
                       then 1 / inject_Z (Z.of_nat
                                  (count_true (map (fun s => Z.eqb s 1) [1%Z; 2%Z; 1%Z])))
                       else 0)) /\
    Forall (Qle 0) wq /\
    Qsum wq == 1.
Proof.
  apply (X20_single_tree_weights_uniform [1%Z; 2%Z; 1%Z] 1%Z).
  discriminate.
Defined.

Lemma Qsum_le_length (l : list Q) :
  Forall (fun v => v <= 1) l -> Qsum l <= inject_Z (Z.of_nat (length l)).
Proof.
  induction 1 as [|v l Hv _ IH]; [apply Qle_refl|].
  cbn [length Qsum fold_right]. rewrite inject_nat_S. unfold Qsum in IH. lra.
Qed.

Lemma Qsum_pos_exists {A : Type} (f : A -> Q) (l : list A) :
  (forall a, In a l -> 0 <= f a) ->
  (0 < Qsum (map f l) <-> exists a, In a l /\ 0 < f a).
Proof.
  induction l as [|a l IH]; intros Hnn; simpl.
  - split; [lra | intros (a & [] & _)].
  - assert (Hl : forall b, In b l -> 0 <= f b) by (intros b Hb; apply Hnn; right; exact Hb).
    pose proof (Hnn a (or_introl eq_refl)) as Ha.
    specialize (IH Hl). split.
    + intros H. destruct (Qlt_le_dec 0 (f a)) as [Hp|Hz].
      * exists a. split; [left; reflexivity | exact Hp].
      * destruct (proj1 IH) as (b & Hb & Hfb); [unfold Qsum in *; lra|].
        exists b. split; [right; exact Hb | exact Hfb].
    + intros (b & [<- | Hb] & Hfb).
      * assert (0 <= Qsum (map f l)).
        { apply Qsum_nonneg. apply List.Forall_forall. intros v Hv.
          apply in_map_iff in Hv as (c & <- & Hc). apply Hl. exact Hc. }
        unfold Qsum in *. lra.
      * assert (0 < Qsum (map f l)) by (apply IH; exists b; split; assumption).
        unfold Qsum in *. lra.
Qed.

(** X21: the weights of the full-forest mode.  With at least one tree and no
    empty leaf, the weight of a training sample lies between 0 and 1, and it
    is positive exactly when the sample shares the leaf of the query in at
    least one tree: the other training outputs play no part in the
    quantile. *)
Theorem X21_forest_weight_support
    (trees : list tree) (rows : list (list Q)) (x : list Q) :
  trees <> [] ->
  leaves_populated trees rows ->
  exists wq,
    forest_weight (map (fun r => map (fun t : tree => t r) trees) rows)
                  (map (fun t : tree => t x) trees)
    = map Fin wq /\
    forall k r, rows !! k = Some r ->
      exists v, wq !! k = Some v /\
                0 <= v <= 1 /\
                (0 < v <-> exists t, In t trees /\ t r = t x).
Proof.
  intros Hne Hpop.
  exists (map (tree_share trees rows x) rows).
  split; [apply forest_weight_tree_share; assumption|].
  intros k r Hk. rewrite list_lookup_fmap, Hk. simpl. eexists. split; [reflexivity|].
  assert (HT : 0 < inject_Z (Z.of_nat (length trees))).
  { apply inject_nat_pos. destruct trees; [congruence | discriminate]. }
  assert (Hterm : forall t, In t trees ->
            0 <= b2q (Z.eqb (t r) (t x)) / inject_Z (Z.of_nat (occupancy t rows x)) <= 1 /\
            (0 < b2q (Z.eqb (t r) (t x)) / inject_Z (Z.of_nat (occupancy t rows x))
             <-> t r = t x)).
  { intros t Ht.
    assert (Hocc : occupancy t rows x <> 0%nat) by (apply occupancy_pos, Hpop, Ht).
    pose proof (inject_nat_pos _ Hocc) as Hpos.
    assert (H1 : 1 <= inject_Z (Z.of_nat (occupancy t rows x))).
    { change 1 with (inject_Z 1). rewrite <- Zle_Qle. lia. }
    destruct (Z.eqb_spec (t r) (t x)) as [Heq|Hneq]; simpl.
    - split.
      + split; [apply Qle_shift_div_l; lra | apply Qle_shift_div_r; lra].
      + split; [intros _; exact Heq | intros _; apply Qlt_shift_div_l; lra].
    - split.
      + split; [apply Qle_shift_div_l; lra | apply Qle_shift_div_r; lra].
      + split; [|contradiction]. intros H. exfalso.
        assert (0 / inject_Z (Z.of_nat (occupancy t rows x)) == 0) by (field; lra). lra. }
  unfold tree_share.
  set (f := fun t : tree =>
              b2q (Z.eqb (t r) (t x)) / inject_Z (Z.of_nat (occupancy t rows x))) in *.
  assert (Hnn : forall t, In t trees -> 0 <= f t) by (intros t Ht; apply Hterm, Ht).
  assert (Hs0 : 0 <= Qsum (map f trees)).
  { apply Qsum_nonneg. apply List.Forall_forall. intros v Hv.
    apply in_map_iff in Hv as (t & <- & Ht). apply Hnn, Ht. }
  assert (Hs1 : Qsum (map f trees) <= inject_Z (Z.of_nat (length trees))).
  { rewrite <- (length_map f trees). apply Qsum_le_length.
    apply List.Forall_forall. intros v Hv.
    apply in_map_iff in Hv as (t & <- & Ht). apply Hterm, Ht. }
  split; [split|].
  - apply Qle_shift_div_l; lra.
  - apply Qle_shift_div_r; lra.
  - split.
    + intros H.
      assert (Hs : 0 < Qsum (map f trees)).
      { destruct (Qlt_le_dec 0 (Qsum (map f trees))) as [Hp|Hz]; [exact Hp|].
        exfalso. assert (Qsum (map f trees) == 0) as Hz0 by lra.
        rewrite Hz0 in H.
        assert (0 / inject_Z (Z.of_nat (length trees)) == 0) by (field; lra). lra. }
      apply (Qsum_pos_exists f trees Hnn) in Hs as (t & Ht & Hft).
      exists t. split; [exact Ht | apply (Hterm t Ht), Hft].
    + intros (t & Ht & Heq).
      apply Qlt_shift_div_l; [exact HT|].
      assert (0 < Qsum (map f trees)); [|lra].
      apply (Qsum_pos_exists f trees Hnn). exists t. split; [exact Ht|].
      apply (Hterm t Ht), Heq.
Qed.

Lemma X21_forest_weight_support_witness :
  exists wq,
    forest_weight (map (fun r => map (fun t : tree => t r) [stump 2; stump 4])
                       [[1]; [3]; [5]])
                  (map (fun t : tree => t [2]) [stump 2; stump 4])
    = map Fin wq /\
    forall k r, [[1]; [3]; [5]] !! k = Some r ->
      exists v, wq !! k = Some v /\
                0 <= v <= 1 /\
                (0 < v <-> exists t, In t [stump 2; stump 4] /\ t r = t [2]).
Proof.
  apply (X21_forest_weight_support [stump 2; stump 4] [[1]; [3]; [5]] [2]).
  - discriminate.
  - exact example_leaves_populated.
Defined.
(** ** The permutation of one input column *)

(** X22: [shuffle_column] changes one column only.  With a shuffle that
    keeps the number of values, the array keeps its rows and their lengths,
    every entry outside column [j] is the entry of the original, and column
    [j] holds the shuffled values of column [j] in order. *)
Theorem X22_shuffle_column_changes_one_column
    (shuffle : nat -> nat -> list Q -> list Q) (i j : nat) (rows : list (list Q)) :
  length (shuffle i j (map (fun row => nth j row 0) rows)) = length rows ->
  length (shuffle_column shuffle i j rows) = length rows /\
  forall k row, rows !! k = Some row ->
    exists row' x,
      shuffle_column shuffle i j rows !! k = Some row' /\
      shuffle i j (map (fun row => nth j row 0) rows) !! k = Some x /\
      length row' = length row /\
      (forall j', j' <> j -> row' !! j' = row !! j') /\
      ((j < length row)%nat -> row' !! j = Some x).
Proof.
  intros Hlen. unfold shuffle_column.
  set (col := shuffle i j (map (fun row => nth j row 0) rows)) in *.
  split.
  - rewrite length_zip_with. lia.
  - intros k row Hk.
    destruct (col !! k) as [x|] eqn:Hx.
    2:{ apply lookup_ge_None in Hx. apply lookup_lt_Some in Hk. lia. }
    exists (<[j := x]> row), x.
    split; [|split; [reflexivity|split; [|split]]].
    + rewrite lookup_zip_with, Hk. simpl. rewrite Hx. reflexivity.
    + apply length_insert.
    + intros j' Hj'. apply list_lookup_insert_ne. congruence.
    + intros Hj. apply list_lookup_insert_eq. exact Hj.
Qed.

Lemma X22_shuffle_column_changes_one_column_witness :
  length (shuffle_column example_shuffle 0 1 [[1; 2]; [3; 4]; [5; 6]])
  = length [[1; 2]; [3; 4]; [5; 6]] /\
  forall k row, [[1; 2]; [3; 4]; [5; 6]] !! k = Some row ->
    exists row' x,
      shuffle_column example_shuffle 0 1 [[1; 2]; [3; 4]; [5; 6]] !! k = Some row' /\
      example_shuffle 0 1 (map (fun row => nth 1 row 0) [[1; 2]; [3; 4]; [5; 6]]) !! k
      = Some x /\
      length row' = length row /\
      (forall j', j' <> 1%nat -> row' !! j' = row !! j') /\
      ((1 < length row)%nat -> row' !! 1%nat = Some x).
Proof.
  apply (X22_shuffle_column_changes_one_column example_shuffle 0 1
           [[1; 2]; [3; 4]; [5; 6]]).
  reflexivity.
Defined.
(** ** The importance of a tree with a single level *)

Section ImportanceFloat.

Variable np_percentile : list Q -> list Q -> result (list Q).
Variable fmin_cobyla : (Q -> result Q) -> Q -> (Q -> result fnum) -> result Q.
Variable fmin_slsqp : (Q -> result Q) -> Q -> (Q -> result fnum) -> Q -> result Q.
Variable shuffle : nat -> nat -> list Q -> list Q.

Local Abbreviation computeQuantile' := (computeQuantile np_percentile fmin_cobyla fmin_slsqp).

(** The number of query points that [_check_input] announces. *)
Lemma check_input_count X self X' n s n0 :
  _check_input X self = (Ok (X', n), s) ->
  shape0 X = Ok n0 ->
  n = n0 \/ n = 1%nat.
Proof.
  unfold _check_input. intros H Hn0.
  apply bind_Ok_inv in H as (n1 & s1 & Hn & H).
  apply lift_Ok_inv in Hn as [Hn ->]. rewrite Hn0 in Hn. injection Hn as <-.
  apply bind_Ok_inv in H as (d0 & s2 & _ & H).
  apply bind_Ok_inv in H as ([n2 d] & s3 & Hnd & H).
  apply lift_Ok_inv in Hnd as [Hnd ->].
  assert (Hn2 : n2 = n0 \/ n2 = 1%nat).
  { unfold check_input_vector in Hnd.
    destruct (shape1 X) as [c|e];
      repeat match type of Hnd with
             | context [if ?b then _ else _] => destruct b; simpl in Hnd
             end; try discriminate; injection Hnd as <- _; tauto. }
  destruct (Nat.ltb 1 n2 && Nat.eqb d 1); [destruct (Nat.eqb (size X) n2)|];
    try discriminate; injection H as _ <- _; exact Hn2.
Qed.

(** With a float as [alpha] a call returns only when it had no query
    point. *)
Lemma float_alpha_no_point X a o self r :
  fst (computeQuantile' (QArray X (AFloat a)) o self) = Ok r ->
  exists X' s, _check_input X self = (Ok (X', 0%nat), s).
Proof.
  intros H.
  apply computeQuantile_Ok_inv in H
    as (X' & n & s0 & nd & qs & s & s' & Hci & Hloop & Hpack).
  simpl in Hci, Hloop.
  destruct n as [|n]; [exists X', s0; exact Hci|].
  exfalso. cbn [seq] in Hloop.
  apply quantile_loop_Ok_row in Hloop as (w & row & s1 & row' & s2 & Hrow).
  unfold quantile_row in Hrow. destruct (do_optim o).
  - apply bind_Ok_inv in Hrow as (ys & s3 & _ & H).
    apply bind_Ok_inv in H as (y0 & s4 & _ & H).
    apply bind_Ok_inv in H as (al & s5 & Hal & _).
    apply lift_Ok_inv in Hal as [Hal _]. discriminate.
  - apply bind_Ok_inv in Hrow as (infYY & s3 & _ & H).
    apply bind_Ok_inv in H as (al & s4 & Hal & _).
    apply lift_Ok_inv in Hal as [Hal _]. discriminate.
Qed.

(** X23: [_computeImportanceOfTree] with a float as [alpha] never returns
    for a tree that has out-of-bag samples, whatever the object holds: its
    call of [computeQuantile] passes an array of inputs together with the
    float, and the loop over the levels cannot iterate a float. *)
Theorem X23_importance_of_tree_needs_a_list_of_levels
    (a : Q) (i : nat) (self : obj) (ids : list (list nat)) (oob : list nat) :
  attrs self !! "_oobID" = Some (VIndex ids) ->
  ids !! i = Some oob ->
  oob <> [] ->
  ~ is_Ok (fst (_computeImportanceOfTree np_percentile fmin_cobyla fmin_slsqp shuffle
                  (AFloat a) i self)).
Proof.
  intros Hids Hi Hne Hok.
  destruct (_computeImportanceOfTree np_percentile fmin_cobyla fmin_slsqp shuffle
              (AFloat a) i self) as [[r|e] self'] eqn:Hrun; [|exact Hok].
  clear Hok. unfold _computeImportanceOfTree in Hrun.
  apply bind_Ok_inv in Hrun as (ids' & s1 & Hget & H).
  unfold get_index in Hget. rewrite bind_run, (getattr_bound _ _ _ Hids) in Hget.
  injection Hget as <- <-.
  apply bind_Ok_inv in H as (oob' & s2 & Hoob & H).
  apply lift_Ok_inv in Hoob as [Hoob ->]. rewrite Hi in Hoob. injection Hoob as <-.
  apply bind_Ok_inv in H as ([c rows] & s3 & _ & H).
  apply bind_Ok_inv in H as (X_oob & s4 & HX & H).
  apply lift_Ok_inv in HX as [HX ->].
  apply map_result_length in HX.
  apply bind_Ok_inv in H as (outputs & s5 & _ & H).
  apply bind_Ok_inv in H as (Yobs & s6 & _ & H).
  apply bind_Ok_inv in H as (Yest & s7 & Hq & _).
  assert (Hq' : fst (computeQuantile' (QArray (Arr2 c X_oob) (AFloat a)) (tree_options i) s6)
                = Ok Yest) by (rewrite Hq; reflexivity).
  apply float_alpha_no_point in Hq' as (X' & s & Hci).
  destruct (check_input_count _ _ _ _ _ (length X_oob) Hci eq_refl) as [H0|H0];
    [|discriminate].
  destruct oob; [congruence|]. simpl in HX. lia.
Qed.

End ImportanceFloat.

Lemma X23_importance_of_tree_needs_a_list_of_levels_witness :
  ~ is_Ok (fst (_computeImportanceOfTree example_percentile example_cobyla example_slsqp
                  example_shuffle (AFloat (1 # 2)) 0 importance_view)).
Proof.
  apply (X23_importance_of_tree_needs_a_list_of_levels example_percentile example_cobyla
           example_slsqp example_shuffle (1 # 2) 0 importance_view
           [[0%nat; 1%nat]] [0%nat; 1%nat]).
  - reflexivity.
  - reflexivity.
  - discriminate.
Defined.
(** ** The error of a tree on its out-of-bag samples *)

Lemma map_seq_nth {A : Type} (d : A) (l : list A) :
  map (fun j => nth j l d) (seq 0 (length l)) = l.
Proof.
  apply nth_ext with (d := d) (d' := d).
  - rewrite length_map, length_seq. reflexivity.
  - intros n Hn. rewrite length_map, length_seq in Hn.
    rewrite (nth_indep _ d (nth 0 l d)) by (rewrite length_map, length_seq; exact Hn).
    rewrite (map_nth (fun j => nth j l d) (seq 0 (length l)) 0%nat n).
    rewrite seq_nth by exact Hn. reflexivity.
Qed.

Lemma map_seq_ext {A : Type} (f g : nat -> A) (n : nat) :
  (forall j, (j < n)%nat -> f j = g j) -> map f (seq 0 n) = map g (seq 0 n).
Proof.
  intros H. apply map_ext_in. intros j Hj. apply in_seq in Hj. apply H. lia.
Qed.

Lemma nth_map_seq {A : Type} (f : nat -> A) (n j : nat) (d : A) :
  (j < n)%nat -> nth j (map f (seq 0 n)) d = f j.
Proof.
  intros Hj. rewrite (nth_indep _ d (f 0%nat)) by (rewrite length_map, length_seq; exact Hj).
  rewrite (map_nth f (seq 0 n) 0%nat j), seq_nth by exact Hj. reflexivity.
Qed.

Lemma nth_map_Fin (l : list Q) (j : nat) :
  (j < length l)%nat -> nth j (map Fin l) NaN = Fin (nth j l 0).
Proof.
  intros Hj. rewrite (nth_indep _ NaN (Fin 0)) by (rewrite length_map; exact Hj).
  apply (map_nth Fin).
Qed.

(** The index that broadcasting uses on an axis of length [n]. *)
Lemma broadcast_index (n j : nat) :
  (j < n)%nat -> (if Nat.eqb n 1 then 0%nat else j) = j.
Proof. intros Hj. destruct (Nat.eqb_spec n 1); [lia | reflexivity]. Qed.

(** X24: the error of the importance computation for a single level given
    as a one-element list.  For [n >= 1] observed outputs and as many
    estimated quantiles, [check_function(Yobs, Yest, alpha).mean()] is the
    arithmetic mean of the pinball losses [check_function(y_k, q_k, alpha)]
    of the pairs. *)
Theorem X24_mean_check_is_mean_pinball_loss (ys qs : list Q) (a : Q) :
  ys <> [] ->
  length qs = length ys ->
  exists m,
    mean_check ys (RVector (map Fin qs)) (AList [a]) = Ok (Fin m) /\
    m == Qsum (zip_with (fun y q => check_function y q a) ys qs)
         / inject_Z (Z.of_nat (length ys)).
Proof.
  intros Hne Hlen.
  set (n := length ys) in *.
  assert (Hn : n <> 0%nat) by (subst n; destruct ys; [congruence | discriminate]).
  exists (Qsum (zip_with (fun y q => check_function y q a) ys qs)
          / inject_Z (Z.of_nat (1 * n))).
  split; [|rewrite Nat.mul_1_l; reflexivity].
  unfold mean_check, check_function_arrays, broadcast, as_matrix, alpha_matrix.
  cbn [m_rows m_cols m_data length]. fold n.
  rewrite length_map, Hlen.
  assert (Hd : forall k, bdim k k = Ok k) by (intros k; unfold bdim; rewrite Nat.eqb_refl; reflexivity).
  assert (Hd1 : bdim 1 n = Ok n).
  { unfold bdim. destruct (Nat.eqb_spec 1 n) as [<-|_]; reflexivity. }
  do 3 (rewrite ?Hd, ?Hd1; cbn [m_rows m_cols m_data]).
  unfold mean_all. cbn [m_rows m_cols m_data seq map concat]. rewrite app_nil_r.
  rewrite (map_seq_ext _ (fun j => Fin (check_function (nth j ys 0) (nth j qs 0) a)) n).
  2:{ intros j Hj. unfold bget. cbn [m_rows m_cols m_data nth Nat.eqb map].
      rewrite !(broadcast_index n j Hj).
      rewrite !nth_map_seq by exact Hj.
      cbn [nth]. rewrite !(broadcast_index n j Hj).
      rewrite !nth_map_Fin by (rewrite ?Hlen; exact Hj).
      rewrite map_map, nth_map_seq by exact Hj.
      rewrite !(broadcast_index n j Hj).
      rewrite !nth_map_Fin by (rewrite ?Hlen; exact Hj).
      reflexivity. }
  assert (Hzip : map (fun j => Fin (check_function (nth j ys 0) (nth j qs 0) a)) (seq 0 n)
                 = map Fin (zip_with (fun y q => check_function y q a) ys qs)).
  { subst n. revert qs Hlen. clear Hne Hn Hd1.
    induction ys as [|y ys IH]; intros [|q qs] Hlen; try discriminate; [reflexivity|].
    cbn [length seq map zip_with nth]. f_equal.
    rewrite <- seq_shift, map_map. cbn [nth].
    apply IH. simpl in Hlen. lia. }
  rewrite Hzip, fsum_Fin. unfold fdiv, of_nat.
  rewrite Qeq_bool_nat_false by lia. reflexivity.
Qed.

Lemma X24_mean_check_is_mean_pinball_loss_witness :
  exists m,
    mean_check [10; 30] (RVector (map Fin [20; 20])) (AList [1 # 2]) = Ok (Fin m) /\
    m == Qsum (zip_with (fun y q => check_function y q (1 # 2)) [10; 30] [20; 20])
         / inject_Z (Z.of_nat (length [10; 30])).
Proof.
  apply (X24_mean_check_is_mean_pinball_loss [10; 30] [20; 20] (1 # 2)).
  - discriminate.
  - reflexivity.
Defined.

(** X25: with at least two levels and at least two estimated points, the
    error of the importance computation needs as many observed outputs as
    there are levels: [check_function] subtracts the matrix of estimates,
    one row per point and one column per level, from the vector of observed
    outputs, one per point, and numpy cannot broadcast the two unless these
    numbers agree, so the computation raises [ValueError]. *)
Theorem X25_mean_check_several_levels
    (ys : list Q) (n m : nat) (rows : list (list fnum)) (al : list Q) :
  length ys = n ->
  length al = m ->
  (2 <= n)%nat ->
  (2 <= m)%nat ->
  n <> m ->
  mean_check ys (RMatrix n m rows) (AList al)
  = Raise (ValueError "operands could not be broadcast together").
Proof.
  intros Hn Hm Hn2 Hm2 Hnm.
  unfold mean_check, check_function_arrays, broadcast, as_matrix.
  cbn [m_rows m_cols m_data]. rewrite Hn.
  assert (H1 : bdim 1 n = Ok n).
  { unfold bdim. destruct (Nat.eqb_spec 1 n); [lia | reflexivity]. }
  assert (H2 : bdim n m = Raise (ValueError "operands could not be broadcast together")).
  { unfold bdim.
    destruct (Nat.eqb_spec n m); [contradiction|].
    destruct (Nat.eqb_spec n 1); [lia|].
    destruct (Nat.eqb_spec m 1); [lia | reflexivity]. }
  rewrite H1, H2. reflexivity.
Qed.

Lemma X25_mean_check_several_levels_witness :
  mean_check [10; 30; 50] (RMatrix 3 2 [[Fin 1; Fin 2]; [Fin 3; Fin 4]; [Fin 5; Fin 6]])
             (AList [1 # 4; 3 # 4])
  = Raise (ValueError "operands could not be broadcast together").
Proof.
  apply (X25_mean_check_several_levels [10; 30; 50] 3 2
           [[Fin 1; Fin 2]; [Fin 3; Fin 4]; [Fin 5; Fin 6]] [1 # 4; 3 # 4]).
  - reflexivity.
  - reflexivity.
  - lia.
  - lia.
  - discriminate.
Defined.
